(** * A shallow embedding of the react-three-fiber reconciler core (src/index.js)

    The first half gives the definitions, in the order of the source file:

    - [Str]: the string helpers the source calls (startsWith, includes, split,
      charAt/substr, lodash's upperFirst);
    - [Js]: the fragment of JavaScript the source relies on (values, strict
      equality, truthiness, a heap of mutable objects and arrays, exceptions);
    - [Props]: [applyProps];
    - [Adapter]: [createInstance], [appendChild], [removeChild],
      [insertBefore], [commitUpdate];
    - [Loop]: the [subscribe] entry of the canvas state;
    - [Picking]: [intersect], [handleMove] and the click handler;
    - [Frame]: [renderLoop], and [subscribe] on the heap;
    - [Roots]: [render] and [unmountComponentAtNode].

    The second half states and proves their properties:

    - [Heap], [HeapWrites]: reading and writing the heap;
    - [LoopSpec], [PropsSpec], [AdapterSpec], [PickingSpec]: the behaviour of
      the single functions;
    - [AdapterInv]: an invariant of the heap under sequences of adapter
      operations, proved with a small program logic;
    - [PropsMore], [AdapterMore], [PickingMore], [FrameSpec], [RootsSpec]:
      further properties of the single functions and of their
      compositions. *)

From Stdlib Require Import ZArith Ascii String DecimalString DecimalNat.
From stdpp Require Import base option list gmap strings.

Open Scope string_scope.
Open Scope list_scope.

(* ===================================================================== *)
(** ** Strings *)
(* ===================================================================== *)

Module Str.

(** [key.startsWith(pre)] *)
Definition startsWith (key pre : string) : bool := String.prefix pre key.

(** [key.split(sep)] for a one-character separator. *)
Fixpoint split (sep : ascii) (s : string) : list string :=
  match s with
  | EmptyString => [""]
  | String c r =>
      if Ascii.eqb c sep then "" :: split sep r
      else match split sep r with
           | h :: t => String c h :: t
           | [] => [String c ""]
           end
  end.

(** [key.includes(c)] for a one-character needle. *)
Fixpoint includes (c : ascii) (s : string) : bool :=
  match s with
  | EmptyString => false
  | String x r => Ascii.eqb x c || includes c r
  end.

(** [key.substr(n)] *)
Fixpoint substr (n : nat) (s : string) : string :=
  match n, s with
  | O, _ => s
  | S n', String _ r => substr n' r
  | S _, EmptyString => ""
  end.

(** [toLowerCase] and [toUpperCase] of one character; only the ASCII letters
    have a case in this model. *)
Definition toLowerCase (c : ascii) : ascii :=
  let n := nat_of_ascii c in
  if (65 <=? n)%nat && (n <=? 90)%nat then ascii_of_nat (n + 32) else c.

Definition toUpperCase (c : ascii) : ascii :=
  let n := nat_of_ascii c in
  if (97 <=? n)%nat && (n <=? 122)%nat then ascii_of_nat (n - 32) else c.

(** [key.charAt(2).toLowerCase() + key.substr(3)]:  "onClick" becomes
    "click"; a key of two characters or fewer becomes the empty string. *)
Definition handlerName (key : string) : string :=
  match substr 2 key with
  | EmptyString => ""
  | String c r => String (toLowerCase c) r
  end.

(** lodash's [upperFirst]. *)
Definition upperFirst (s : string) : string :=
  match s with
  | EmptyString => ""
  | String c r => String (toUpperCase c) r
  end.

(** The property key of an array index, and the index a key denotes when it
    is a canonical numeric string ("0", "1", "12"; not "01"). *)
Definition indexKey (n : nat) : string :=
  NilEmpty.string_of_uint (Nat.to_uint n).

Definition parseIndex (k : string) : option nat :=
  match NilEmpty.uint_of_string k with
  | Some u =>
      let n := Nat.of_uint u in
      if String.eqb (indexKey n) k then Some n else None
  | None => None
  end.

Definition ofZ (n : Z) : string := NilZero.string_of_int (Z.to_int n).

End Str.

(* ===================================================================== *)
(** ** The JavaScript fragment *)
(* ===================================================================== *)

Module Js.

Definition addr := nat.

(** Values.  Numbers are the integers and [NaN]; objects, arrays and
    functions live in the heap and are denoted by their address. *)
Inductive value :=
| VUndef
| VNull
| VBool (b : bool)
| VNum (n : Z)
| VNaN
| VStr (s : string)
| VRef (a : addr).

#[export] Instance value_eq_dec : EqDecision value.
Proof. solve_decision. Defined.

(** [v === w] *)
Definition strict_eq (v w : value) : bool :=
  match v, w with
  | VNaN, _ | _, VNaN => false
  | _, _ => bool_decide (v = w)
  end.

(** ToBoolean *)
Definition truthy (v : value) : bool :=
  match v with
  | VUndef | VNull | VNaN => false
  | VBool b => b
  | VNum n => negb (n =? 0)%Z
  | VStr s => negb (String.eqb s "")
  | VRef _ => true
  end.

Definition nullish (v : value) : bool :=
  match v with VUndef | VNull => true | _ => false end.

(** A heap object: the name of its constructor, its properties (own and
    inherited alike), for an array its elements, and whether it can be
    called. *)
Record object := Object {
  cname : string;
  fields : gmap string value;
  items : option (list value);
  callable : bool
}.

Definition plain (fs : gmap string value) : object :=
  Object "Object" fs None false.
Definition array (l : list value) : object :=
  Object "Array" ∅ (Some l) false.
Definition function (fs : gmap string value) : object :=
  Object "Function" fs None true.

(** What the outside world sees of a run: constructor calls of the scene
    library, calls of function values (library methods such as [set] and
    [copy], user handlers), and events dispatched on scene nodes.  The
    effects these callees have on their own are outside the model. *)
Inductive event :=
| Construct (name : string) (args : list value) (a : addr)
| Invoke (f : value) (this : value) (args : list value)
| Dispatch (target : value) (type : string).

(** The program state.  [leaves] is ghost state: the placeholders
    [createInstance] has wrapped around non-spatial resources; nothing reads
    it. *)
Record state := State {
  heap : gmap addr object;
  leaves : gset addr;
  trace : list event
}.

(** A computation either returns or throws (a TypeError, or the RangeError of
    an invalid array length); either way the heap writes made so far stay. *)
Inductive result (A : Type) :=
| Ok (a : A) (s : state)
| Throw (s : state).
Arguments Ok {A} a s.
Arguments Throw {A} s.

Definition M (A : Type) := state -> result A.

Definition ret {A} (a : A) : M A := fun s => Ok a s.
Definition throw {A} : M A := fun s => Throw s.
Definition bind {A B} (m : M A) (k : A -> M B) : M B :=
  fun s => match m s with
           | Ok a s' => k a s'
           | Throw s' => Throw s'
           end.

Notation "'let!' x ':=' m 'in' k" := (bind m (fun x => k))
  (at level 20, x name, m at level 100, k at level 200, only parsing).
Notation "m '>>>' k" := (bind m (fun _ => k))
  (at level 20, k at level 200, only parsing).

(** [forEach] over a list, in order; an exception ends the loop. *)
Fixpoint forEach {A} (f : A -> M unit) (l : list A) : M unit :=
  match l with
  | [] => ret tt
  | x :: r => f x >>> forEach f r
  end.

(** [o[k]] on a heap object. *)
Definition obj_get (o : object) (k : string) : value :=
  match items o with
  | Some l =>
      if String.eqb k "length" then VNum (Z.of_nat (length l))
      else match Str.parseIndex k with
           | Some i => default VUndef (l !! i)
           | None => default VUndef (fields o !! k)
           end
  | None => default VUndef (fields o !! k)
  end.

(** [o[k] = x] on a heap object; [None] when the write is refused (an array
    length that is not a non-negative integer).  Writing past the end of an
    array pads it with [undefined]. *)
Definition resize (n : nat) (l : list value) : list value :=
  take n l ++ replicate (n - length l) VUndef.

Definition obj_set (o : object) (k : string) (x : value) : option object :=
  match items o with
  | Some l =>
      if String.eqb k "length" then
        match x with
        | VNum n =>
            if (0 <=? n)%Z
            then Some (Object (cname o) (fields o)
                         (Some (resize (Z.to_nat n) l)) (callable o))
            else None
        | _ => None
        end
      else match Str.parseIndex k with
           | Some i =>
               Some (Object (cname o) (fields o)
                       (Some (<[i := x]> (resize (max (S i) (length l)) l)))
                       (callable o))
           | None =>
               Some (Object (cname o) (<[k := x]> (fields o)) (items o)
                       (callable o))
           end
  | None => Some (Object (cname o) (<[k := x]> (fields o)) None (callable o))
  end.

(** [v[k]]: reading a property of [undefined] or [null] throws; a primitive
    has no properties in this model (prototype methods and the characters of
    a string are left out), and neither has a reference to no object, which
    no run of the program produces. *)
Definition getv (v : value) (k : string) : M value :=
  fun s =>
    match v with
    | VUndef | VNull => Throw s
    | VRef a =>
        match heap s !! a with
        | Some o => Ok (obj_get o k) s
        | None => Ok VUndef s
        end
    | _ => Ok VUndef s
    end.

(** [v[k] = x] in strict mode (the source is an ES module): assigning to a
    property of [undefined], [null] or a primitive throws.  A write through a
    reference to no object is ignored. *)
Definition setv (v : value) (k : string) (x : value) : M unit :=
  fun s =>
    match v with
    | VRef a =>
        match heap s !! a with
        | Some o =>
            match obj_set o k x with
            | Some o' => Ok tt (State (<[a := o']> (heap s)) (leaves s) (trace s))
            | None => Throw s
            end
        | None => Ok tt s
        end
    | _ => Throw s
    end.

(** Allocation of a new object. *)
Definition alloc (o : object) : M addr :=
  fun s =>
    let a := fresh (dom (heap s)) in
    Ok a (State (<[a := o]> (heap s)) (leaves s) (trace s)).

Definition emit (e : event) : M unit :=
  fun s => Ok tt (State (heap s) (leaves s) (trace s ++ [e])).

Definition gets {A} (f : state -> A) : M A := fun s => Ok (f s) s.

(** [typeof v === 'function'] *)
Definition is_function (s : state) (v : value) : bool :=
  match v with
  | VRef a => match heap s !! a with
              | Some o => callable o
              | None => false
              end
  | _ => false
  end.

(** [f.call(this, ...args)]: calling what is not a function throws. *)
Definition callv (f this : value) (args : list value) : M unit :=
  let! fn := gets (fun s => is_function s f) in
  if fn then emit (Invoke f this args) else throw.

(** The elements of an array value; methods of [Array.prototype] called on
    anything else throw. *)
Definition arr_items (v : value) : M (list value) :=
  fun s =>
    match v with
    | VRef a =>
        match heap s !! a with
        | Some o => match items o with Some l => Ok l s | None => Throw s end
        | None => Throw s
        end
    | _ => Throw s
    end.

(** In-place update of an array's elements ([push], [splice]). *)
Definition arr_update (v : value) (l : list value) : M unit :=
  fun s =>
    match v with
    | VRef a =>
        match heap s !! a with
        | Some o =>
            match items o with
            | Some _ =>
                Ok tt (State (<[a := Object (cname o) (fields o) (Some l)
                                       (callable o)]> (heap s))
                         (leaves s) (trace s))
            | None => Throw s
            end
        | None => Throw s
        end
    | _ => Throw s
    end.

(** [Array.isArray(v)] *)
Definition isArray (s : state) (v : value) : bool :=
  match v with
  | VRef a => match heap s !! a with
              | Some o => bool_decide (is_Some (items o))
              | None => false
              end
  | _ => false
  end.

(** [v.constructor.name]; [None] when [v] is [undefined] or [null]. *)
Definition ctor_name (s : state) (v : value) : option string :=
  match v with
  | VUndef | VNull => None
  | VBool _ => Some "Boolean"
  | VNum _ | VNaN => Some "Number"
  | VStr _ => Some "String"
  | VRef a => Some (match heap s !! a with Some o => cname o | None => "Object" end)
  end.

(** ToPropertyKey, used for computed keys.  Objects are rendered as
    "[object Object]" whatever their class. *)
Definition to_key (v : value) : string :=
  match v with
  | VUndef => "undefined"
  | VNull => "null"
  | VBool true => "true"
  | VBool false => "false"
  | VNum n => Str.ofZ n
  | VNaN => "NaN"
  | VStr s => s
  | VRef _ => "[object Object]"
  end.

(** [l.indexOf(x)]: the first index whose element is [===] to [x], else -1. *)
Fixpoint indexOf_from (i : Z) (l : list value) (x : value) : Z :=
  match l with
  | [] => (-1)%Z
  | y :: r => if strict_eq y x then i else indexOf_from (i + 1)%Z r x
  end.
Definition indexOf (l : list value) (x : value) : Z := indexOf_from 0 l x.

(** [l.slice(start, end)] and [l.slice(start)]: a negative bound counts from
    the end of the array. *)
Definition clamp (len i : Z) : nat :=
  Z.to_nat (if (i <? 0)%Z then Z.max (len + i) 0 else Z.min i len).

Definition slice (l : list value) (from to : Z) : list value :=
  let len := Z.of_nat (length l) in
  let a := clamp len from in
  let b := clamp len to in
  take (b - a) (drop a l).

Definition slice_from (l : list value) (from : Z) : list value :=
  slice l from (Z.of_nat (length l)).

(** Property bags ([newProps], [oldProps]): immutable objects whose keys are
    enumerated in insertion order. *)
Abbreviation props := (list (string * value)).

Definition keys (p : props) : list string := p.*1.

(** [p[k]] *)
Fixpoint pget (p : props) (k : string) : value :=
  match p with
  | [] => VUndef
  | (k', v) :: r => if String.eqb k' k then v else pget r k
  end.

(** lodash's [omit(p, ks)] for plain (dot-free) keys, and the rest pattern. *)
Definition omit (p : props) (ks : list string) : props :=
  filter (fun kv => kv.1 ∉ ks) p.

End Js.

(* ===================================================================== *)
(** ** The prop application engine (source lines 23-62) *)
(* ===================================================================== *)

Module Props.
Import Js.

(** [entries.reduce((acc, key) => acc[key], instance)] *)
Fixpoint resolve (entries : list string) (acc : value) : M value :=
  match entries with
  | [] => ret acc
  | key :: r => let! v := getv acc key in resolve r v
  end.

(** [target && target.set], as a boolean. *)
Definition settable (target : value) : M bool :=
  if truthy target
  then let! st := getv target "set" in ret (truthy st)
  else ret false.

(** Lines 30-41: the root object, the key to assign on it, and the target
    the key resolves to.  For a dashed key whose target is atomic the root
    becomes the container of the last segment and the key that segment. *)
Definition locate (instance : value) (key : string)
  : M (value * string * value) :=
  let root := instance in
  let! target := getv root key in
  if Str.includes "-" key then
    let entries := Str.split "-" key in
    let! target := resolve entries instance in
    let! st := settable target in
    if truthy target && negb st then
      match reverse entries with
      | name :: reverseEntries =>
          let! root := resolve (reverse reverseEntries) instance in
          ret (root, name, target)
      | [] => ret (root, key, target)
      end
    else ret (root, key, target)
  else ret (root, key, target).

(** Lines 42-50: copy, spread-set or set a settable target, else assign. *)
Definition assign (root : value) (key : string) (target value : value)
  : M unit :=
  let! st := settable target in
  if st then
    let! tn := gets (fun s => ctor_name s target) in
    let! vn := gets (fun s => ctor_name s value) in
    match tn, vn with
    | Some tn, Some vn =>
        if String.eqb tn vn then
          let! copy := getv target "copy" in callv copy target [value]
        else
          let! arr := gets (fun s => isArray s value) in
          let! set := getv target "set" in
          if arr then let! l := arr_items value in callv set target l
          else callv set target [value]
    | _, _ => throw
    end
  else setv root key value.

(** The body of the [forEach] of line 29. *)
Definition applyEntry (instance : value) (kv : string * value) : M unit :=
  let! r := locate instance kv.1 in
  assign r.1.1 r.1.2 r.2 kv.2.

(** Line 25 *)
Definition sameProps (newProps oldProps : props) : list string :=
  filter (fun key => strict_eq (pget newProps key) (pget oldProps key) = true)
         (keys newProps).

(** Line 26 *)
Definition handlers (s : state) (newProps : props) : list string :=
  filter (fun key => is_function s (pget newProps key)
                     && Str.startsWith key "on" = true)
         (keys newProps).

(** Line 27 *)
Definition filteredProps (s : state) (newProps oldProps : props) : props :=
  omit newProps
    (sameProps newProps oldProps ++ handlers s newProps ++ ["children"; "key"; "ref"]).

(** Lines 54-57: the table built by the [reduce]; a later key overrides an
    earlier one of the same name.  Only the final table is allocated. *)
Definition handlerTable (newProps : props) (hs : list string)
  : gmap string value :=
  foldl (fun acc key => <[Str.handlerName key := pget newProps key]> acc) ∅ hs.

(** Lines 53-60 *)
Definition rebuildHandlers (instance : value) (newProps : props)
    (hs : list string) : M unit :=
  if bool_decide (hs = []) then ret tt
  else
    let! t := alloc (plain (handlerTable newProps hs)) in
    setv instance "__handlers" (VRef t) >>>
    let! table := getv instance "__handlers" in
    let! update := getv table "update" in
    if truthy update then callv update table [instance] else ret tt.

Definition applyProps (instance : value) (newProps oldProps : props) : M unit :=
  let! hs := gets (fun s => handlers s newProps) in
  let! fp := gets (fun s => filteredProps s newProps oldProps) in
  if bool_decide (keys fp = []) then ret tt
  else forEach (applyEntry instance) fp >>> rebuildHandlers instance newProps hs.

End Props.

(* ===================================================================== *)
(** ** The reconciliation adapter (source lines 64-140) *)
(* ===================================================================== *)

Module Adapter.
Import Js Props.

(** Modelled from the spec: the scene library's constructors are not part of
    the source; the spec (sections 4.1 and 6) only says that a type tag is
    resolved to a constructor in a registry and that a constructed object
    either exposes spatial identity or does not.  A registry maps a
    constructor name to the properties the constructor gives the new object,
    as a function of its arguments; an unknown name is not a constructor. *)
Definition registry := string -> option (list value -> gmap string value).

(** Modelled from the spec: [new THREE[name](...args)].  A spatial object
    (one whose [isObject3D] is truthy) starts with an empty child list of its
    own and no parent (section 3, SceneNode). *)
Definition construct (THREE : registry) (name : string) (args : list value)
  : M value :=
  match THREE name with
  | None => throw
  | Some ctor =>
      let fs := ctor args in
      let! a :=
        if truthy (default VUndef (fs !! "isObject3D")) then
          let! c := alloc (array []) in
          alloc (Object name (<["children" := VRef c]> (<["parent" := VNull]> fs))
                   None false)
        else alloc (Object name fs None false) in
      emit (Construct name args a) >>> ret (VRef a)
  end.

(** Modelled from the spec: [child.dispatchEvent({ type })] of the scene
    library, recorded as an event. *)
Definition dispatchEvent (target : value) (type : string) : M unit :=
  emit (Dispatch target type).

(** [l] without its element at index [i] ([splice(i, 1)]). *)
Definition splice1 (l : list value) (i : Z) : list value :=
  take (Z.to_nat i) l ++ drop (S (Z.to_nat i)) l.

(** Modelled from the spec: [parent.remove(child)] of the scene library
    (section 6: a mutable ordered child list with add and remove): a child
    found in the list loses its parent and leaves the list; only a spatial
    object has the method. *)
Definition Object3D_remove (this object : value) : M unit :=
  let! is3d := getv this "isObject3D" in
  if truthy is3d then
    let! cs := getv this "children" in
    let! l := arr_items cs in
    let index := indexOf l object in
    if (index =? -1)%Z then ret tt
    else
      setv object "parent" VNull >>>
      dispatchEvent object "removed" >>>
      arr_update cs (splice1 l index)
  else throw.

(** Modelled from the spec: [parent.add(child)] of the scene library
    (section 3: a scene node is a member of at most one parent at a time): a
    spatial child leaves its current parent, if any, gets the new parent and
    is pushed at the end of the child list. *)
Definition Object3D_add (this object : value) : M unit :=
  let! is3d := getv this "isObject3D" in
  if truthy is3d then
    if strict_eq object this then ret tt
    else
      let! c3d := if truthy object then getv object "isObject3D" else ret VUndef in
      if truthy object && truthy c3d then
        let! old := getv object "parent" in
        (if strict_eq old VNull then ret tt else Object3D_remove old object) >>>
        setv object "parent" this >>>
        dispatchEvent object "added" >>>
        let! cs := getv this "children" in
        let! l := arr_items cs in
        arr_update cs (l ++ [object])
      else ret tt
  else throw.

(** The iterable behind [...args]: the elements of an array or the characters
    of a string; anything else is not iterable. *)
Definition spread (v : value) : M (list value) :=
  match v with
  | VStr s => ret ((fun c => VStr (String c "")) <$> list_ascii_of_string s)
  | _ => arr_items v
  end.

(** The [args = []] default of the parameter patterns: [None] stands for the
    empty default. *)
Definition argsOf (p : props) : option value :=
  match pget p "args" with
  | VUndef => None
  | v => Some v
  end.

(** lodash's [toString] as [upperFirst] applies it to the type tag. *)
Definition typeTag (v : value) : string :=
  match v with
  | VUndef | VNull => ""
  | _ => to_key v
  end.

Section WithRegistry.

Variable THREE : registry.

(** Lines 64-70.  The type tag is the string React passes for a host
    component; [commitUpdate] passes whatever [instance.current.type] holds. *)
Definition createInstance (type : value) (props0 : props) : M value :=
  let props := omit props0 ["args"] in
  let name := Str.upperFirst (typeTag type) in
  let! instance :=
    if strict_eq type (VStr "primitive") then ret (pget props "object")
    else
      let! args := match argsOf props0 with
                   | None => ret []
                   | Some v => spread v
                   end in
      construct THREE name args in
  applyProps instance props [] >>>
  let! is3d := getv instance "isObject3D" in
  if truthy is3d then ret instance
  else
    let! p := alloc (plain {["current" := instance]}) in
    (fun s => Ok (VRef p) (State (heap s) ({[p]} ∪ leaves s) (trace s))).

(** Lines 72-82 *)
Definition appendChild (parentInstance child : value) : M unit :=
  if truthy child then
    let! is3d := getv child "isObject3D" in
    if truthy is3d then Object3D_add parentInstance child
    else
      let! current := getv child "current" in
      let! name := getv current "name" in
      if truthy name then
        setv child "parent" parentInstance >>>
        let! p3d := getv parentInstance "isObject3D" in
        let! root := if truthy p3d then ret parentInstance
                     else getv parentInstance "current" in
        let! current := getv child "current" in
        let! name := getv current "name" in
        applyProps root [(to_key name, current)] []
      else ret tt
  else ret tt.

(** Lines 84-89 *)
Definition removeChild (parentInstance child : value) : M unit :=
  if truthy child then
    let! is3d := getv child "isObject3D" in
    if truthy is3d then Object3D_remove parentInstance child
    else setv child "parent" VUndef
  else ret tt.

(** Lines 103-117.  The three reads of [parentInstance.children] see the same
    array, so it is read once. *)
Definition insertBefore (parentInstance child beforeChild : value) : M unit :=
  if truthy child then
    let! is3d := getv child "isObject3D" in
    if truthy is3d then
      setv child "parent" parentInstance >>>
      dispatchEvent child "added" >>>
      let! cs := getv parentInstance "children" in
      let! l := arr_items cs in
      let index := indexOf l beforeChild in
      let! a := alloc (array (slice l 0 index ++ [child] ++ slice_from l index)) in
      setv parentInstance "children" (VRef a)
    else setv child "parent" parentInstance
  else ret tt.

(** [argsNew.some((value, index) => value !== argsOld[index])], from index
    [i] on; [argsOld] is [None] for the empty default. *)
Fixpoint someDiffers (argsNew : list value) (argsOld : option value) (i : nat)
  : M bool :=
  match argsNew with
  | [] => ret false
  | value :: r =>
      let! old := match argsOld with
                  | None => ret VUndef
                  | Some o => getv o (Str.indexKey i)
                  end in
      if negb (strict_eq value old) then ret true
      else someDiffers r argsOld (S i)
  end.

(** Lines 118-140; of the parameters [(instance, updatePayload, type,
    oldProps, newProps, fiber)] the body uses [instance], [oldProps] and
    [newProps]. *)
Definition commitUpdate (instance : value) (oldProps newProps : props) : M unit :=
  let! is3d := getv instance "isObject3D" in
  if truthy is3d then applyProps instance newProps oldProps
  else
    let! parent := getv instance "parent" in
    let restNew := omit newProps ["args"] in
    let restOld := omit oldProps ["args"] in
    let! argsNew := match argsOf newProps with
                    | None => ret []
                    | Some v => arr_items v
                    end in
    let! changed := someDiffers argsNew (argsOf oldProps) 0 in
    if changed then
      let! current := getv instance "current" in
      let! type := getv current "type" in
      let! newInstance := createInstance type newProps in
      removeChild parent instance >>>
      appendChild parent newInstance >>>
      let! c := getv newInstance "current" in
      setv instance "current" c >>>
      let! p := getv newInstance "parent" in
      setv instance "parent" p
    else
      let! current := getv instance "current" in
      applyProps current restNew restOld.

End WithRegistry.

End Adapter.

(* ===================================================================== *)
(** ** Frame subscribers (source lines 198, 205-208) *)
(* ===================================================================== *)

Module Loop.
Import Js.

(** [state.current.subscribers.filter(s => s === fn)], the body of the
    function [subscribe] returns; it runs on the list current at that time. *)
Definition unsubscribe (fn : value) (subscribers : list value) : list value :=
  filter (fun s => strict_eq s fn = true) subscribers.

(** [subscribe(fn)]: the list after the [push], and the function returned. *)
Definition subscribe (fn : value) (subscribers : list value)
  : list value * (list value -> list value) :=
  (subscribers ++ [fn], unsubscribe fn).

End Loop.

(* ===================================================================== *)
(** ** Pointer picking (source lines 257-299 and 313-323) *)
(* ===================================================================== *)

Module Picking.

(** Scene nodes are referred to by identity; what the picking code reads of
    a node is its [uuid] and its [__handlers] table, which holds a callback
    (a function identity) per event name. *)
Definition oid := nat.
Definition callback := nat.

Record node := Node {
  uuid : string;
  __handlers : option (gmap string callback)
}.

(** The nodes as they are while one event is handled. *)
Definition scene := oid -> node.

(** One entry of the raycaster's result. *)
Record intersection := Intersection {
  object : oid;
  distance : Z
}.

(** The calls the picking code makes: a handler called with the
    intersection, the [unhover] handler of a node, and [setCursor]. *)
Inductive call :=
| Hover (f : callback) (data : intersection)
| Unhover (o : oid) (f : callback)
| Click (f : callback) (data : intersection)
| SetCursor (c : string).

(** A JavaScript object used as a map from uuid to node ([hovered],
    [clicked]), its keys in insertion order (the order of [Object.values]
    for keys that are not integers, as uuids are). *)
Abbreviation table := (list (string * oid)).

Fixpoint tget (t : table) (k : string) : option oid :=
  match t with
  | [] => None
  | (k', o) :: r => if String.eqb k' k then Some o else tget r k
  end.

Fixpoint tset (t : table) (k : string) (o : oid) : table :=
  match t with
  | [] => [(k, o)]
  | (k', o') :: r => if String.eqb k' k then (k, o) :: r else (k', o') :: tset r k o
  end.

Definition tdelete (t : table) (k : string) : table :=
  filter (fun e => e.1 ≠ k) t.

Definition values (t : table) : list oid := t.*2.

(** A handler of the loops below either returns or throws (reading a
    property of an absent [__handlers]). *)
Inductive outcome (S : Type) :=
| Done (s : S)
| Raised (s : S).
Arguments Done {S} s.
Arguments Raised {S} s.

Fixpoint each {A S} (f : A -> S -> outcome S) (l : list A) (s : S) : outcome S :=
  match l with
  | [] => Done s
  | x :: r => match f x s with
              | Done s' => each f r s'
              | Raised s' => Raised s'
              end
  end.

(** Lines 257-267: [intersect(event, fn)] calls [fn] on every intersection
    whose node carries a handler table, in the raycaster's order; the list
    [intersects] is what the raycaster returned for the event. *)
Definition intersect {S} (sc : scene) (intersects : list intersection)
    (fn : intersection -> S -> outcome S) (s : S) : outcome S :=
  each (fun i s => match __handlers (sc (object i)) with
                   | None => Done s
                   | Some _ => fn i s
                   end) intersects s.

(** The state the move handler works on: the [hover] flag of the current
    event, the [hovered] map that lives across events, the calls made. *)
Record moveState := MoveState {
  hover : bool;
  hovered : table;
  calls : list call
}.

(** Lines 273-283: the callback passed to [intersect]. *)
Definition onMoveHit (sc : scene) (data : intersection) (s : moveState)
  : outcome moveState :=
  let object := object data in
  match __handlers (sc object) with
  | None => Raised s
  | Some handlers =>
      match handlers !! "hover" with
      | Some f =>
          match tget (hovered s) (uuid (sc object)) with
          | None =>
              Done (MoveState true (tset (hovered s) (uuid (sc object)) object)
                      (calls s ++ [Hover f data]))
          | Some _ => Done (MoveState true (hovered s) (calls s))
          end
      | None => Done s
      end
  end.

(** Lines 285-286 *)
Definition updateCursor (cursor : string) (s : moveState) : moveState :=
  let want := if hover s then "pointer" else "default" in
  if String.eqb cursor want then s
  else MoveState (hover s) (hovered s) (calls s ++ [SetCursor want]).

(** Lines 288-293: the body of the loop over [Object.values(hovered)]. *)
Definition onLeave (sc : scene) (intersects : list intersection) (object : oid)
    (s : moveState) : outcome moveState :=
  if bool_decide (intersects = []) ||
     negb (existsb (fun i => Nat.eqb (Picking.object i) object) intersects)
  then
    match __handlers (sc object) with
    | None => Raised s
    | Some handlers =>
        let s' := match handlers !! "unhover" with
                  | Some f => MoveState (hover s) (hovered s)
                                (calls s ++ [Unhover object f])
                  | None => s
                  end in
        Done (MoveState (hover s') (tdelete (hovered s') (uuid (sc object)))
                (calls s'))
    end
  else Done s.

(** Lines 271-294: one pointer-move event, from the [hovered] map of the
    listener and the [cursor] it closed over. *)
Definition handleMove (sc : scene) (cursor : string)
    (intersects : list intersection) (hovered0 : table) : outcome moveState :=
  match intersect sc intersects (onMoveHit sc) (MoveState false hovered0 []) with
  | Raised s => Raised s
  | Done s =>
      let s := updateCursor cursor s in
      each (onLeave sc intersects) (values (hovered s)) s
  end.

(** Lines 314-322: the state of one click, and the callback passed to
    [intersect]. *)
Record clickState := ClickState {
  clicked : table;
  clickCalls : list call
}.

Definition onClickHit (sc : scene) (data : intersection) (s : clickState)
  : outcome clickState :=
  let object := object data in
  match __handlers (sc object) with
  | None => Raised s
  | Some handlers =>
      match handlers !! "click", tget (clicked s) (uuid (sc object)) with
      | Some f, None =>
          Done (ClickState (tset (clicked s) (uuid (sc object)) object)
                  (clickCalls s ++ [Click f data]))
      | _, _ => Done s
      end
  end.

(** Lines 313-323: one click event; [clicked] starts empty every time. *)
Definition onClick (sc : scene) (intersects : list intersection)
  : outcome clickState :=
  intersect sc intersects (onClickHit sc) (ClickState [] []).

End Picking.

(* ===================================================================== *)
(** ** The render loop (source lines 205-208, 230-237 and 244) *)
(* ===================================================================== *)

Module Frame.
Import Js.

Section WithCanvas.

(** The global function [requestAnimationFrame], the object [state.current]
    (which [state] holds for the life of the canvas), and the props
    [onUpdate] and [render] of the canvas. *)
Variables requestAnimationFrame current onUpdate renderFn : value.

(** [fn(state.current)]: a call without a receiver. *)
Definition notify (fn : value) : M unit := callv fn VUndef [current].

(** Lines 230-237.  [self] is the function [renderLoop] itself, which it
    hands to [requestAnimationFrame]. *)
Definition renderLoop (self : value) : M unit :=
  let! active := getv current "active" in
  if negb (truthy active) then ret tt
  else
    callv requestAnimationFrame VUndef [self] >>>
    (if truthy onUpdate then notify onUpdate else ret tt) >>>
    let! subscribers := getv current "subscribers" in
    let! l := arr_items subscribers in
    forEach notify l >>>
    if truthy renderFn then notify renderFn
    else
      let! gl := getv current "gl" in
      let! render := getv gl "render" in
      let! scene := getv current "scene" in
      let! camera := getv current "camera" in
      callv render gl [scene; camera].

(** Line 244, the first step of the clean-up. *)
Definition deactivate : M unit := setv current "active" (VBool false).

(** Line 206: [subscribe(fn)] pushes [fn] onto the array of subscribers. *)
Definition addSubscriber (fn : value) : M unit :=
  let! subscribers := getv current "subscribers" in
  let! l := arr_items subscribers in
  arr_update subscribers (l ++ [fn]).

(** Line 207: the function that [subscribe(fn)] returns puts a filtered
    copy of the array in its place. *)
Definition dropSubscriber (fn : value) : M unit :=
  let! subscribers := getv current "subscribers" in
  let! l := arr_items subscribers in
  let! a := alloc (array (Loop.unsubscribe fn l)) in
  setv current "subscribers" (VRef a).

End WithCanvas.

End Frame.

(* ===================================================================== *)
(** ** Roots (source lines 20 and 167-180) *)
(* ===================================================================== *)

Module Roots.

#[local] Existing Instance Js.value_eq_dec.

(** A root of the reconciler, as [createContainer] returns it: an object,
    known by its identity only. *)
Definition root := nat.

(** The requests made on the reconciler.  The callback of line 179 is the one
    function the source ever passes to [updateContainer]; it is recorded by
    the container it closes over. *)
Inductive request :=
| CreateContainer (container : Js.value)
| UpdateContainer (element : Js.value) (r : root) (callback : option Js.value)
| GetPublicRootInstance (r : root).

(** The map [roots] of line 20, a [Map] keyed by container, and the requests
    made so far. *)
Record store := Store {
  roots : list (Js.value * root);
  requests : list request
}.

(** [roots.get(container)]: keys are compared by SameValueZero, under which
    [NaN] is equal to itself. *)
Fixpoint get (m : list (Js.value * root)) (container : Js.value) : option root :=
  match m with
  | [] => None
  | (k, r) :: rest => if decide (k = container) then Some r else get rest container
  end.

(** [roots.set(container, root)] *)
Fixpoint set (m : list (Js.value * root)) (container : Js.value) (r : root)
  : list (Js.value * root) :=
  match m with
  | [] => [(container, r)]
  | (k, r') :: rest =>
      if decide (k = container) then (k, r) :: rest
      else (k, r') :: set rest container r
  end.

(** [roots.delete(container)] *)
Definition delete (m : list (Js.value * root)) (container : Js.value)
  : list (Js.value * root) :=
  filter (fun e => e.1 <> container) m.

(** Lines 167-175.  [created] is the root that [createContainer] returns if
    it is called; what [getPublicRootInstance] returns, and [render] with
    it, is up to the reconciler. *)
Definition render (element container : Js.value) (created : root) (s : store)
  : store :=
  let '(root, s) :=
    match get (roots s) container with
    | Some root => (root, s)
    | None =>
        (created,
         Store (set (roots s) container created)
               (requests s ++ [CreateContainer container]))
    end in
  Store (roots s)
        (requests s ++ [UpdateContainer element root None; GetPublicRootInstance root]).

(** Lines 177-180 *)
Definition unmountComponentAtNode (container : Js.value) (s : store) : store :=
  match get (roots s) container with
  | Some root =>
      Store (roots s)
            (requests s ++ [UpdateContainer Js.VNull root (Some container)])
  | None => s
  end.

(** The callback of line 179, [() => roots.delete(container)], which the
    reconciler calls once the update is committed. *)
Definition unmounted (container : Js.value) (s : store) : store :=
  Store (delete (roots s) container) (requests s).

End Roots.

(* ===================================================================== *)
(** * Properties *)
(* ===================================================================== *)

(** ** Reading the heap *)

Module Heap.
Import Js.

(** The value [v[k]] reads in state [s], where it does not throw. *)
Definition field (s : state) (v : value) (k : string) : value :=
  match v with
  | VRef a => match heap s !! a with
              | Some o => obj_get o k
              | None => VUndef
              end
  | _ => VUndef
  end.

(** The elements of the array [v] denotes, if it denotes one. *)
Definition elements (s : state) (v : value) : option (list value) :=
  match v with
  | VRef a => heap s !! a ≫= items
  | _ => None
  end.

(** The structural child list of a scene node. *)
Definition childList (s : state) (parent : value) : option (list value) :=
  elements s (field s parent "children").

Lemma getv_field s v k :
  nullish v = false -> getv v k s = Ok (field s v k) s.
Proof.
  destruct v; simpl; try done.
  intros _. by destruct (heap s !! a).
Qed.

Lemma getv_nullish {s v} k : nullish v = true -> getv v k s = Throw s.
Proof. by destruct v. Qed.

Lemma getv_state s v k x s' : getv v k s = Ok x s' -> s' = s /\ x = field s v k.
Proof.
  destruct v; simpl; try congruence.
  - intros [= <- <-]; done.
  - intros [= <- <-]; done.
  - intros [= <- <-]; done.
  - intros [= <- <-]; done.
  - destruct (heap s !! a); intros [= <- <-]; done.
Qed.

Lemma getv_throw s v k s' : getv v k s = Throw s' -> s' = s /\ nullish v = true.
Proof.
  destruct v; simpl; try congruence; try (intros [= <-]; done).
  destruct (heap s !! a); congruence.
Qed.

Lemma bind_Ok {A B} (m : M A) (k : A -> M B) s a s' :
  m s = Ok a s' -> bind m k s = k a s'.
Proof. unfold bind. by intros ->. Qed.

Lemma bind_Throw {A B} (m : M A) (k : A -> M B) s s' :
  m s = Throw s' -> bind m k s = Throw s'.
Proof. unfold bind. by intros ->. Qed.

Lemma forEach_app {A} (f : A -> M unit) l1 l2 s :
  forEach f (l1 ++ l2) s = bind (forEach f l1) (fun _ => forEach f l2) s.
Proof.
  revert s. induction l1 as [|x l1 IH]; intros s; simpl; [done|].
  unfold bind in *. destruct (f x s) as [[] s1|s1]; [apply IH|done].
Qed.

End Heap.

(* --------------------------------------------------------------------- *)
(** ** Frame subscribers *)
(* --------------------------------------------------------------------- *)

Module LoopSpec.
Import Js Loop.

(** What the function returned by [subscribe] does to the subscriber list:
    it keeps the entries identical to [fn] and drops all the others. *)
Lemma unsubscribe_keeps_only_fn fn subscribers x :
  x ∈ unsubscribe fn subscribers <-> x ∈ subscribers /\ strict_eq x fn = true.
Proof. unfold unsubscribe. by rewrite list_elem_of_filter, (comm and). Qed.

(** C7, at the failing input: with subscribers [f; g], subscribing [h] and
    then calling the function [subscribe] returned leaves [h] alone in the
    list; [f] and [g], which were to stay, are gone and [h], which was to
    go, stays. *)
Theorem unsubscribe_drops_the_others :
  let f := VRef 1 in
  let g := VRef 2 in
  let h := VRef 3 in
  let '(subscribers, unsub) := subscribe h [f; g] in
  subscribers = [f; g; h] /\ unsub subscribers = [h].
Proof. vm_compute. done. Qed.

End LoopSpec.

(* --------------------------------------------------------------------- *)
(** ** The prop application engine *)
(* --------------------------------------------------------------------- *)

Module PropsSpec.
Import Js Props Heap.

Lemma filter_none {A} (P : A -> Prop) `{!forall x, Decision (P x)} (l : list A) :
  (forall x, x ∈ l -> ~ P x) -> filter P l = [].
Proof.
  induction l as [|x l IH]; intros Hall; [done|].
  rewrite filter_cons_False by (apply Hall; left).
  apply IH. intros y Hy. apply Hall. by right.
Qed.

Lemma omit_all (p : props) ks :
  (forall key, key ∈ keys p -> key ∈ ks) -> omit p ks = [].
Proof.
  intros H. apply filter_none. intros [k v] Hkv Hn. apply Hn, H.
  unfold keys. apply list_elem_of_fmap. by exists (k, v).
Qed.

(** The guard of line 28: with nothing left after filtering, nothing runs. *)
Lemma applyProps_skip s instance newProps oldProps :
  filteredProps s newProps oldProps = [] ->
  applyProps instance newProps oldProps s = Ok tt s.
Proof.
  intros H. unfold applyProps, bind, gets. by rewrite H.
Qed.

Lemma filteredProps_same s newProps oldProps :
  (forall key, key ∈ keys newProps ->
               strict_eq (pget newProps key) (pget oldProps key) = true) ->
  filteredProps s newProps oldProps = [].
Proof.
  intros H. apply omit_all. intros key Hk.
  apply elem_of_app. left. unfold sameProps.
  apply list_elem_of_filter. split; [by apply H|done].
Qed.

(** Props that are all handlers are all filtered out, changed or not. *)
Lemma filteredProps_handlers s newProps oldProps :
  (forall key, key ∈ keys newProps ->
               is_function s (pget newProps key) && Str.startsWith key "on" = true) ->
  filteredProps s newProps oldProps = [].
Proof.
  intros H. apply omit_all. intros key Hk.
  apply elem_of_app. right. apply elem_of_app. left.
  apply list_elem_of_filter. split; [by apply H|done].
Qed.

Lemma resolve_app l1 l2 x s :
  resolve (l1 ++ l2) x s = bind (resolve l1 x) (resolve l2) s.
Proof.
  revert x s. induction l1 as [|k l1 IH]; intros x s; simpl; [done|].
  unfold bind in *. destruct (getv x k s); [apply IH|done].
Qed.

(** Path resolution only reads. *)
Lemma resolve_state l x s v s' : resolve l x s = Ok v s' -> s' = s.
Proof.
  revert x s. induction l as [|k l IH]; intros x s; simpl.
  - by intros [= _ <-].
  - unfold bind. destruct (getv x k s) as [y s1|s1] eqn:E; [|done].
    apply getv_state in E as [-> _]. apply IH.
Qed.

(** A path that runs through [undefined] or [null] before its last segment
    cannot be resolved. *)
Lemma resolve_through_nullish entries n x s u :
  (0 < n < length entries)%nat ->
  resolve (take n entries) x s = Ok u s ->
  nullish u = true ->
  resolve entries x s = Throw s /\ nullish x = false.
Proof.
  intros Hn Hres Hu. split.
  - rewrite <- (take_drop n entries), resolve_app.
    rewrite (bind_Ok _ _ _ _ _ Hres).
    destruct (drop n entries) as [|k r] eqn:E.
    + apply (f_equal length) in E. rewrite length_drop in E. simpl in E. lia.
    + simpl. by rewrite (bind_Throw _ _ _ _ (getv_nullish k Hu)).
  - destruct entries as [|k r]; [simpl in Hn; lia|].
    destruct n as [|n]; [lia|]. simpl in Hres. unfold bind in Hres.
    destruct (getv x k s) eqn:E; [|done].
    destruct x; simpl in *; congruence.
Qed.

(** An entry whose dashed key cannot be resolved throws before it writes. *)
Lemma applyEntry_unresolved x key v s :
  nullish x = false ->
  Str.includes "-" key = true ->
  resolve (Str.split "-" key) x s = Throw s ->
  applyEntry x (key, v) s = Throw s.
Proof.
  intros Hx Hdash Hthrow. unfold applyEntry, locate. simpl.
  unfold bind at 1 2. rewrite (getv_field s x key Hx), Hdash.
  unfold bind at 1. by rewrite Hthrow.
Qed.

(** C3 (amended).  [applyProps(x, {}, {})] changes nothing; more generally
    [applyProps] changes nothing (no field of the target, no handler table,
    no call) when every key of [newProps] maps to a value that is [===] to
    its value in [oldProps]; hence applying a prop set a second time, with
    the set itself as [oldProps], gives the state of applying it once,
    provided every value of the set is [===] to itself (which [NaN] is
    not). *)
Theorem applyProps_noop (s : state) (x : value) :
  applyProps x [] [] s = Ok tt s /\
  (forall newProps oldProps,
      (forall key, key ∈ keys newProps ->
                   strict_eq (pget newProps key) (pget oldProps key) = true) ->
      applyProps x newProps oldProps s = Ok tt s) /\
  (forall P,
      (forall key, key ∈ keys P -> strict_eq (pget P key) (pget P key) = true) ->
      bind (applyProps x P []) (fun _ => applyProps x P P) s
      = applyProps x P [] s).
Proof.
  split; [by apply applyProps_skip|split].
  - intros newProps oldProps H. by apply applyProps_skip, filteredProps_same.
  - intros P H. unfold bind at 1.
    destruct (applyProps x P [] s) as [[] s1|s1]; [|done].
    by apply applyProps_skip, filteredProps_same.
Qed.

(** A target [{}] at address 0 and two functions at addresses 1 and 2. *)
Definition demoTarget : state :=
  State (<[0 := plain ∅]> (<[1 := function ∅]> (<[2 := function ∅]> ∅))) ∅ [].

(** [applyProps_noop] on the target [{}]: props that all recur in
    [oldProps], and a prop set applied twice. *)
Lemma applyProps_noop_witness :
  applyProps (VRef 0) [("x", VNum 1); ("onClick", VRef 1)]
             [("onClick", VRef 1); ("x", VNum 1); ("y", VNum 2)] demoTarget
  = Ok tt demoTarget /\
  bind (applyProps (VRef 0) [("x", VNum 1); ("onUpdate", VRef 1)] [])
       (fun _ => applyProps (VRef 0) [("x", VNum 1); ("onUpdate", VRef 1)]
                   [("x", VNum 1); ("onUpdate", VRef 1)]) demoTarget
  = applyProps (VRef 0) [("x", VNum 1); ("onUpdate", VRef 1)] [] demoTarget.
Proof.
  split.
  - apply (applyProps_noop demoTarget (VRef 0)).
    intros key Hk. repeat (apply elem_of_cons in Hk as [->|Hk]; [reflexivity|]).
    by apply elem_of_nil in Hk.
  - apply (applyProps_noop demoTarget (VRef 0)).
    intros key Hk. repeat (apply elem_of_cons in Hk as [->|Hk]; [reflexivity|]).
    by apply elem_of_nil in Hk.
Defined.

(** C3, as stated, fails for a prop set that holds [NaN]: the second
    application, with the set itself as [oldProps], assigns again, builds a
    new handler table and calls the [update] handler a second time. *)
Lemma applyProps_twice_with_NaN :
  let P := [("foo", VNaN); ("onUpdate", VRef 1)] in
  exists s1 s2,
    applyProps (VRef 0) P [] demoTarget = Ok tt s1 /\
    applyProps (VRef 0) P P s1 = Ok tt s2 /\
    trace s1 = [Invoke (VRef 1) (VRef 3) [VRef 0]] /\
    trace s2 = [Invoke (VRef 1) (VRef 3) [VRef 0]; Invoke (VRef 1) (VRef 4) [VRef 0]] /\
    field s1 (VRef 0) "__handlers" = VRef 3 /\
    field s2 (VRef 0) "__handlers" = VRef 4 /\
    s2 <> s1.
Proof.
  eexists _, _. split; [vm_compute; reflexivity|].
  split; [vm_compute; reflexivity|].
  repeat (split; [vm_compute; reflexivity|]).
  intros E. apply (f_equal trace) in E. vm_compute in E. discriminate.
Qed.

(** C4, at the failing input: a target [{}] mounted with a click handler as
    its only prop gets no handler table, and replacing that handler by
    another one afterwards is ignored as well: in both calls the handler prop
    changed, and in both the state stays as it was. *)
Theorem applyProps_ignores_handler_only_change :
  applyProps (VRef 0) [("onClick", VRef 1)] [] demoTarget = Ok tt demoTarget /\
  applyProps (VRef 0) [("onClick", VRef 2)] [("onClick", VRef 1)] demoTarget
  = Ok tt demoTarget /\
  field demoTarget (VRef 0) "__handlers" = VUndef.
Proof. vm_compute. done. Qed.

(** When a plain prop changes in the same call, the table is rebuilt from all
    the handler props and the [update] handler is called with the target. *)
Lemma applyProps_rebuilds_with_plain_change :
  exists s',
    applyProps (VRef 0) [("x", VNum 1); ("onClick", VRef 1); ("onUpdate", VRef 2)]
               [("onClick", VRef 1); ("onUpdate", VRef 2)] demoTarget = Ok tt s' /\
    field s' (VRef 0) "x" = VNum 1 /\
    field s' (VRef 0) "__handlers" = VRef 3 /\
    field s' (VRef 3) "click" = VRef 1 /\
    field s' (VRef 3) "update" = VRef 2 /\
    trace s' = [Invoke (VRef 2) (VRef 3) [VRef 0]].
Proof. eexists. split; [vm_compute; reflexivity|]. vm_compute. done. Qed.

(** C8 (amended).  When the props that are applied (changed, not handlers,
    not reserved) hold a dashed key whose path runs through [undefined] or
    [null] before its last segment, [applyProps] throws on reaching that
    key: the entries before it have been applied and stay applied, nothing
    is written for the key itself or for any later entry, and the handler
    table is not rebuilt. *)
Theorem applyProps_invalid_path s x newProps oldProps pre key v post s1 n u :
  filteredProps s newProps oldProps = pre ++ (key, v) :: post ->
  forEach (applyEntry x) pre s = Ok tt s1 ->
  Str.includes "-" key = true ->
  (0 < n < length (Str.split "-" key))%nat ->
  resolve (take n (Str.split "-" key)) x s1 = Ok u s1 ->
  nullish u = true ->
  applyProps x newProps oldProps s = Throw s1.
Proof.
  intros Hfp Hpre Hdash Hn Hres Hu.
  destruct (resolve_through_nullish _ _ _ _ _ Hn Hres Hu) as [Hthrow Hx].
  unfold applyProps. unfold gets. unfold bind at 1 2. rewrite Hfp.
  rewrite bool_decide_eq_false_2
    by (unfold keys; rewrite fmap_app; by destruct (pre.*1)).
  unfold bind at 1. rewrite forEach_app, (bind_Ok _ _ _ _ _ Hpre). simpl.
  by rewrite (bind_Throw _ _ _ _ (applyEntry_unresolved _ _ _ _ Hx Hdash Hthrow)).
Qed.

(** [applyProps_invalid_path] on the target [{}]: "x" is written, "a-b"
    throws, "y" is never reached. *)
Lemma applyProps_invalid_path_witness :
  applyProps (VRef 0) [("x", VNum 1); ("a-b", VNum 2); ("y", VNum 3)] [] demoTarget
  = Throw (State (<[0 := plain {["x" := VNum 1]}]> (heap demoTarget)) ∅ []).
Proof.
  apply (applyProps_invalid_path demoTarget (VRef 0) _ _ [("x", VNum 1)] "a-b" (VNum 2)
           [("y", VNum 3)] _ 1 VUndef).
  - vm_compute. reflexivity.
  - vm_compute. reflexivity.
  - reflexivity.
  - vm_compute. lia.
  - vm_compute. reflexivity.
  - reflexivity.
Defined.

(** C8, as stated, fails: the call below throws at its key "a-b", whose
    first segment is no field of the target, after it has written "x". *)
Lemma applyProps_partial_write :
  exists s',
    applyProps (VRef 0) [("x", VNum 1); ("a-b", VNum 2)] [] demoTarget = Throw s' /\
    field demoTarget (VRef 0) "a" = VUndef /\
    field demoTarget (VRef 0) "x" = VUndef /\
    field s' (VRef 0) "x" = VNum 1 /\
    s' <> demoTarget.
Proof.
  eexists. split; [vm_compute; reflexivity|].
  repeat (split; [vm_compute; reflexivity|]).
  intros E. apply (f_equal (fun s => field s (VRef 0) "x")) in E.
  vm_compute in E. discriminate.
Qed.

End PropsSpec.
Module HeapWrites.
Import Js Heap.

(** A key that names an ordinary property also on an array: neither
    "length" nor an index. *)
Definition named (k : string) : Prop :=
  String.eqb k "length" = false /\ Str.parseIndex k = None.

Lemma obj_set_named o k x :
  named k ->
  obj_set o k x = Some (Object (cname o) (<[k := x]> (fields o)) (items o) (callable o)).
Proof.
  intros [H1 H2]. unfold obj_set. destruct (items o); [|done].
  by rewrite H1, H2.
Qed.

Lemma obj_get_named o k :
  named k -> obj_get o k = default VUndef (fields o !! k).
Proof.
  intros [H1 H2]. unfold obj_get. destruct (items o); [|done].
  by rewrite H1, H2.
Qed.

(** What a write to a named property of an allocated object does. *)
Lemma setv_named s a o k x :
  named k ->
  heap s !! a = Some o ->
  setv (VRef a) k x s
  = Ok tt (State (<[a := Object (cname o) (<[k := x]> (fields o)) (items o)
                          (callable o)]> (heap s)) (leaves s) (trace s)).
Proof.
  intros Hk Ha. unfold setv. by rewrite Ha, (obj_set_named _ _ _ Hk).
Qed.

(** Other properties of any object, and the elements of any array, are as
    they were. *)
Lemma field_set_named_ne h lv tr a o k x v k' :
  named k -> k' <> k -> h !! a = Some o ->
  field (State (<[a := Object (cname o) (<[k := x]> (fields o)) (items o)
                        (callable o)]> h) lv tr) v k'
  = field (State h lv tr) v k'.
Proof.
  intros Hk Hne Ha. destruct v as [| | | | | |b]; try done. simpl.
  destruct (decide (a = b)) as [->|Hab].
  - rewrite lookup_insert_eq, Ha. unfold obj_get. simpl.
    by rewrite lookup_insert_ne.
  - by rewrite lookup_insert_ne.
Qed.

Lemma field_set_named_eq h lv tr a o k x :
  named k ->
  field (State (<[a := Object (cname o) (<[k := x]> (fields o)) (items o)
                        (callable o)]> h) lv tr) (VRef a) k = x.
Proof.
  intros Hk. simpl. rewrite lookup_insert_eq, (obj_get_named _ _ Hk). simpl.
  by rewrite lookup_insert_eq.
Qed.

Lemma elements_set_named h lv tr a o k x v :
  h !! a = Some o ->
  elements (State (<[a := Object (cname o) (<[k := x]> (fields o)) (items o)
                           (callable o)]> h) lv tr) v
  = elements (State h lv tr) v.
Proof.
  intros Ha. destruct v as [| | | | | |b]; try done. simpl.
  destruct (decide (a = b)) as [->|Hab].
  - by rewrite lookup_insert_eq, Ha.
  - by rewrite lookup_insert_ne.
Qed.

Lemma arr_items_elements s v l :
  elements s v = Some l -> arr_items v s = Ok l s.
Proof.
  destruct v as [| | | | | |a]; try done. simpl.
  destruct (heap s !! a) as [o|]; [|done]. simpl. by intros ->.
Qed.

Lemma field_truthy_alloc s v k :
  truthy (field s v k) = true -> exists a o, v = VRef a /\ heap s !! a = Some o.
Proof.
  destruct v as [| | | | | |a]; try done. simpl.
  destruct (heap s !! a) as [o|] eqn:E; [|done]. intros _. by exists a, o.
Qed.

Lemma named_parent : named "parent".
Proof. done. Qed.
Lemma named_children : named "children".
Proof. done. Qed.
Lemma named_current : named "current".
Proof. done. Qed.
Lemma named_handlers : named "__handlers".
Proof. done. Qed.

End HeapWrites.

(* --------------------------------------------------------------------- *)
(** ** The reconciliation adapter: single operations *)
(* --------------------------------------------------------------------- *)

Module AdapterSpec.
Import Js Props Adapter Heap HeapWrites.

(** A DataLeaf placeholder: an object that is not spatial and wraps an
    underlying resource in its [current] field. *)
Definition dataLeaf (s : state) (v : value) : Prop :=
  truthy v = true /\
  truthy (field s v "isObject3D") = false /\
  nullish (field s v "current") = false.

(** A scene node: an object whose [isObject3D] is truthy. *)
Definition sceneNode (s : state) (v : value) : Prop :=
  truthy (field s v "isObject3D") = true.

Lemma truthy_not_nullish v : truthy v = true -> nullish v = false.
Proof. by destruct v. Qed.

Lemma indexOf_from_found pre y post i :
  Forall (fun x => strict_eq x y = false) pre ->
  strict_eq y y = true ->
  indexOf_from i (pre ++ y :: post) y = (i + Z.of_nat (length pre))%Z.
Proof.
  intros Hpre Hy. revert i. induction Hpre as [|x pre Hx _ IH]; intros i; simpl.
  - rewrite Hy. lia.
  - rewrite Hx, IH. lia.
Qed.

Lemma slice_prefix (l : list value) (n : nat) :
  n <= length l -> slice l 0 (Z.of_nat n) = take n l.
Proof.
  intros Hn. unfold slice, clamp. simpl.
  destruct (Z.of_nat n <? 0)%Z eqn:E; [lia|].
  rewrite Z.min_l by lia. rewrite (Z.min_l 0) by lia.
  rewrite Nat2Z.id. simpl. by rewrite Nat.sub_0_r.
Qed.

Lemma slice_from_suffix (l : list value) (n : nat) :
  n <= length l -> slice_from l (Z.of_nat n) = drop n l.
Proof.
  intros Hn. unfold slice_from, slice, clamp.
  destruct (Z.of_nat n <? 0)%Z eqn:E1; [lia|].
  destruct (Z.of_nat (length l) <? 0)%Z eqn:E2; [lia|].
  rewrite !Z.min_l by lia. rewrite !Nat2Z.id.
  apply take_ge. rewrite length_drop. lia.
Qed.

(** The splice of lines 109-114, for any child list: the new child goes
    right before the first occurrence of the reference child. *)
Lemma insertBefore_general s parentInstance child beforeChild pre post :
  childList s parentInstance = Some (pre ++ beforeChild :: post) ->
  sceneNode s child ->
  Forall (fun x => strict_eq x beforeChild = false) pre ->
  strict_eq beforeChild beforeChild = true ->
  exists s',
    insertBefore parentInstance child beforeChild s = Ok tt s' /\
    childList s' parentInstance = Some (pre ++ child :: beforeChild :: post) /\
    field s' child "parent" = parentInstance.
Proof.
  intros Hcs Hchild Hpre Hy.
  destruct (field_truthy_alloc _ _ _ Hchild) as (x & xo & -> & Hx).
  unfold childList in Hcs.
  destruct (field s parentInstance "children") as [| | | | | |c] eqn:Hc; try done.
  assert (exists pa po, parentInstance = VRef pa /\ heap s !! pa = Some po)
    as (pa & po & -> & Hpa).
  { apply (field_truthy_alloc s _ "children"). by rewrite Hc. }
  destruct s as [h lv tr]. simpl in Hx, Hpa.
  set (h1 := <[x := Object (cname xo) (<["parent" := VRef pa]> (fields xo))
                      (items xo) (callable xo)]> h).
  set (tr1 := tr ++ [Dispatch (VRef x) "added"]).
  set (a := fresh (dom h1)).
  set (l' := pre ++ [VRef x] ++ beforeChild :: post).
  assert (Hc1 : field (State h1 lv tr1) (VRef pa) "children" = VRef c).
  { rewrite <- Hc. apply (field_set_named_ne h lv tr1 x xo "parent"); done. }
  assert (He1 : elements (State h1 lv tr1) (VRef c) = Some (pre ++ beforeChild :: post)).
  { rewrite <- Hcs. apply (elements_set_named h lv tr1 x xo "parent"); done. }
  assert (Hfresh : h1 !! a = None).
  { apply not_elem_of_dom. apply is_fresh. }
  assert (exists po1, h1 !! pa = Some po1) as [po1 Hpo1].
  { unfold h1. destruct (decide (x = pa)) as [->|Hne].
    - rewrite lookup_insert_eq. eauto.
    - rewrite lookup_insert_ne by done. eauto. }
  assert (Hapa : a <> pa) by (intros Heq; rewrite Heq in Hfresh; congruence).
  assert (Hpo2 : <[a := array l']> h1 !! pa = Some po1)
    by (by rewrite lookup_insert_ne).
  exists (State (<[pa := Object (cname po1) (<["children" := VRef a]> (fields po1))
                          (items po1) (callable po1)]> (<[a := array l']> h1)) lv tr1).
  split; [|split].
  - unfold insertBefore. change (truthy (VRef x)) with true. cbv iota.
    rewrite (bind_Ok _ _ _ _ _ (getv_field _ (VRef x) "isObject3D" eq_refl)).
    unfold sceneNode in Hchild. rewrite Hchild.
    rewrite (bind_Ok _ _ _ _ _ (setv_named (State h lv tr) _ _ _ _ named_parent Hx)).
    unfold dispatchEvent, emit at 1. unfold bind at 1.
    simpl heap. simpl leaves. simpl trace. fold h1 tr1.
    rewrite (bind_Ok _ _ _ _ _ (getv_field _ (VRef pa) "children" eq_refl)), Hc1.
    rewrite (bind_Ok _ _ _ _ _ (arr_items_elements _ _ _ He1)).
    unfold indexOf. rewrite (indexOf_from_found _ _ _ _ Hpre Hy), Z.add_0_l.
    rewrite slice_prefix, slice_from_suffix by (rewrite length_app; lia).
    rewrite take_app_length, drop_app_length.
    unfold alloc at 1. unfold bind at 1. simpl heap. simpl leaves. simpl trace.
    fold a l'.
    by rewrite (setv_named (State _ lv tr1) _ _ _ _ named_children Hpo2).
  - unfold childList. rewrite (field_set_named_eq _ _ _ _ _ _ _ named_children).
    simpl. rewrite lookup_insert_ne, lookup_insert_eq by done. done.
  - destruct (decide (x = pa)) as [->|Hne].
    + rewrite (field_set_named_ne _ lv tr1 pa po1 "children") by done.
      simpl. rewrite Hpo2. unfold h1 in Hpo1. rewrite lookup_insert_eq in Hpo1.
      injection Hpo1 as <-. rewrite (obj_get_named _ _ named_parent). simpl.
      by rewrite lookup_insert_eq.
    + simpl. rewrite lookup_insert_ne by done.
      assert (a <> x).
      { intros Heq. rewrite Heq in Hfresh. unfold h1 in Hfresh.
        by rewrite lookup_insert_eq in Hfresh. }
      rewrite lookup_insert_ne by done. unfold h1. rewrite lookup_insert_eq.
      rewrite (obj_get_named _ _ named_parent). simpl. by rewrite lookup_insert_eq.
Qed.

(** C2.  With child list [A; Y; C] ([A] and [Y] distinct nodes),
    [insertBefore(parent, X, Y)] with a scene node [X] returns and leaves the
    parent with the child list [A; X; Y; C]. *)
Theorem insertBefore_splices s parent X A Y C :
  childList s parent = Some [A; Y; C] ->
  sceneNode s X ->
  sceneNode s Y ->
  A <> Y ->
  exists s',
    insertBefore parent X Y s = Ok tt s' /\
    childList s' parent = Some [A; X; Y; C].
Proof.
  intros Hcs HX HY Hne.
  destruct (field_truthy_alloc _ _ _ HY) as (y & yo & -> & _).
  destruct (insertBefore_general s parent X (VRef y) [A] [C]) as (s' & H1 & H2 & _);
    try done.
  - constructor; [|constructor]. destruct A; try done. simpl.
    by apply bool_decide_eq_false_2.
  - by apply bool_decide_eq_true_2.
  - by exists s'.
Qed.

(** C10.  [appendChild] with a DataLeaf whose underlying resource has no
    truthy [name] returns and changes nothing: no parent back-reference on
    the leaf, no field on the parent, no call. *)
Theorem appendChild_unnamed_leaf s parentInstance child :
  dataLeaf s child ->
  truthy (field s (field s child "current") "name") = false ->
  appendChild parentInstance child s = Ok tt s.
Proof.
  intros (Hc & H3d & Hcur) Hname. unfold appendChild. rewrite Hc.
  rewrite (bind_Ok _ _ _ _ _ (getv_field _ _ "isObject3D" (truthy_not_nullish _ Hc))).
  rewrite H3d.
  rewrite (bind_Ok _ _ _ _ _ (getv_field _ _ "current" (truthy_not_nullish _ Hc))).
  rewrite (bind_Ok _ _ _ _ _ (getv_field _ _ "name" Hcur)).
  by rewrite Hname.
Qed.

Lemma parseIndex_indexKey i : Str.parseIndex (Str.indexKey i) = Some i.
Proof.
  unfold Str.parseIndex, Str.indexKey. rewrite NilEmpty.usu.
  rewrite Unsigned.of_to. by rewrite String.eqb_refl.
Qed.

Lemma indexKey_not_length i : String.eqb (Str.indexKey i) "length" = false.
Proof.
  apply String.eqb_neq. intros H.
  pose proof (parseIndex_indexKey i) as P. rewrite H in P. by vm_compute in P.
Qed.

(** Reading index [i] of an array. *)
Lemma field_index s v l i :
  elements s v = Some l ->
  field s v (Str.indexKey i) = default VUndef (l !! i).
Proof.
  destruct v as [| | | | | |a]; try done. simpl.
  destruct (heap s !! a) as [o|]; [|done]. simpl. intros Hl.
  unfold obj_get. by rewrite Hl, indexKey_not_length, parseIndex_indexKey.
Qed.

(** The comparison of line 127 finds no difference when the new list is a
    prefix of the old one, whatever the old list holds beyond it. *)
Lemma someDiffers_prefix s old pre argsNew rest :
  elements s old = Some (pre ++ argsNew ++ rest) ->
  Forall (fun v => strict_eq v v = true) argsNew ->
  someDiffers argsNew (Some old) (length pre) s = Ok false s.
Proof.
  revert pre. induction argsNew as [|v r IH]; intros pre Hold Hself; [done|].
  apply Forall_cons in Hself as [Hv Hself]. simpl.
  assert (Hnn : nullish old = false) by (by destruct old).
  rewrite (bind_Ok _ _ _ _ _ (getv_field s old _ Hnn)).
  rewrite (field_index s old _ _ Hold).
  rewrite lookup_app_r, Nat.sub_diag by done. simpl. rewrite Hv. simpl.
  replace (S (length pre)) with (length (pre ++ [v])) by (rewrite length_app; simpl; lia).
  apply IH; [|done]. by rewrite <- app_assoc.
Qed.

(** On a placeholder, when the new argument list is a prefix of the old one
    ([rest] may well be non-empty), [commitUpdate] is the in-place
    [applyProps] of line 137: nothing is re-instantiated. *)
Lemma commitUpdate_prefix_args THREE s instance oldProps newProps vn vo argsNew rest :
  dataLeaf s instance ->
  argsOf newProps = Some vn -> elements s vn = Some argsNew ->
  argsOf oldProps = Some vo -> elements s vo = Some (argsNew ++ rest) ->
  Forall (fun v => strict_eq v v = true) argsNew ->
  commitUpdate THREE instance oldProps newProps s
  = applyProps (field s instance "current")
      (omit newProps ["args"]) (omit oldProps ["args"]) s.
Proof.
  intros (Ht & H3d & Hcur) Hn Hen Ho Heo Hself. unfold commitUpdate.
  pose proof (truthy_not_nullish _ Ht) as Hnn.
  rewrite (bind_Ok _ _ _ _ _ (getv_field s instance "isObject3D" Hnn)), H3d.
  rewrite (bind_Ok _ _ _ _ _ (getv_field s instance "parent" Hnn)).
  rewrite Hn, (bind_Ok _ _ _ _ _ (arr_items_elements _ _ _ Hen)), Ho.
  rewrite (bind_Ok _ _ _ _ _ (someDiffers_prefix s vo [] argsNew rest Heo Hself)).
  by rewrite (bind_Ok _ _ _ _ _ (getv_field s instance "current" Hnn)).
Qed.

(** A scene [0] with the children [2; 3; 4] (the array [1]), a further scene
    node [5], a placeholder [6] around the box geometry [7], which has a
    type and no name, the argument arrays [8] and [9], and the empty child
    lists [10] to [13] of the nodes [2] to [5]. *)
Definition node3d (children : addr) : object :=
  Object "Object3D"
    (<["isObject3D" := VBool true]> {["children" := VRef children]}) None false.

Definition demoGraph : state :=
  State (<[0 := node3d 1]> (<[1 := array [VRef 2; VRef 3; VRef 4]]>
        (<[2 := node3d 10]> (<[3 := node3d 11]> (<[4 := node3d 12]>
        (<[5 := node3d 13]>
        (<[6 := plain {["current" := VRef 7]}]>
        (<[7 := Object "BoxGeometry" {["type" := VStr "BoxGeometry"]} None false]>
        (<[8 := array [VNum 1; VNum 2]]>
        (<[9 := array [VNum 1]]>
        (<[10 := array []]> (<[11 := array []]> (<[12 := array []]>
        (<[13 := array []]> ∅))))))))))))))
        {[6]} [].

(** A registry that knows box geometries. *)
Definition boxRegistry : registry := fun name =>
  if String.eqb name "BoxGeometry"
  then Some (fun _ => {["type" := VStr "BoxGeometry"]})
  else None.

(** [insertBefore_splices] on the scene [0]: node [5] goes before node [3]. *)
Lemma insertBefore_splices_witness :
  exists s',
    insertBefore (VRef 0) (VRef 5) (VRef 3) demoGraph = Ok tt s' /\
    childList s' (VRef 0) = Some [VRef 2; VRef 5; VRef 3; VRef 4].
Proof.
  apply (insertBefore_splices demoGraph (VRef 0) (VRef 5) (VRef 2) (VRef 3) (VRef 4)).
  - reflexivity.
  - reflexivity.
  - reflexivity.
  - discriminate.
Defined.

(** [appendChild_unnamed_leaf] on the placeholder [6], whose geometry has no
    name. *)
Lemma appendChild_unnamed_leaf_witness :
  appendChild (VRef 0) (VRef 6) demoGraph = Ok tt demoGraph.
Proof.
  apply (appendChild_unnamed_leaf demoGraph (VRef 0) (VRef 6)).
  - repeat split.
  - reflexivity.
Defined.

(** C1, at the failing input: the placeholder [6] wraps a box geometry built
    from the arguments [1; 2]; an update to the arguments [1] changes the
    list in length, yet [commitUpdate] constructs nothing, removes nothing
    and leaves the placeholder wrapping the old geometry: the state is as it
    was.  (With the lists the other way round the geometry is replaced.) *)
Theorem commitUpdate_misses_shorter_args (THREE : registry) :
  commitUpdate THREE (VRef 6) [("args", VRef 8)] [("args", VRef 9)] demoGraph
  = Ok tt demoGraph /\
  field demoGraph (VRef 6) "current" = VRef 7.
Proof. split; [vm_compute|]; reflexivity. Qed.

(** The other way round, from the arguments [1] to the arguments [1; 2], the
    second element differs from [undefined]: one geometry is constructed and
    the placeholder [6], at its old address, wraps it. *)

(** The other way round, from the arguments [1] to the arguments [1; 2], the
    second element differs from [undefined]: one geometry is constructed and
    the placeholder [6], at its old address, wraps it. *)
Lemma commitUpdate_replaces_on_longer_args :
  exists s',
    commitUpdate boxRegistry (VRef 6) [("args", VRef 9)] [("args", VRef 8)]
      demoGraph = Ok tt s' /\
    trace s' = [Construct "BoxGeometry" [VNum 1; VNum 2] 14] /\
    field s' (VRef 6) "current" = VRef 14 /\
    leaves s' = {[6; 15]}.
Proof. eexists. split; [vm_compute; reflexivity|]. vm_compute. done. Qed.

End AdapterSpec.

(* --------------------------------------------------------------------- *)
(** ** Pointer picking *)
(* --------------------------------------------------------------------- *)

Module PickingSpec.
Import Picking.

(** The handler a node has registered under an event name, if any. *)
Definition handler (sc : scene) (o : oid) (name : string) : option callback :=
  __handlers (sc o) ≫= (.!! name).

(** The nodes hit by an event. *)
Definition hit (intersects : list intersection) (o : oid) : Prop :=
  o ∈ object <$> intersects.

#[local] Instance hit_dec intersects o : Decision (hit intersects o).
Proof. unfold hit. apply _. Defined.

(** No other node hit by the event carries the uuid of [A]. *)
Definition uuidUnique (sc : scene) (intersects : list intersection) (A : oid) : Prop :=
  Forall (fun i => uuid (sc (object i)) = uuid (sc A) -> object i = A) intersects.

(** The [hovered] map is keyed by the uuid of the node it holds, holds a key
    once, and holds nodes that carry a handler table. *)
Definition wf (sc : scene) (t : table) : Prop :=
  NoDup t.*1 /\
  Forall (fun e => e.1 = uuid (sc e.2) /\ is_Some (__handlers (sc e.2))) t.

(** [A] is in the Hovered state. *)
Definition isHovered (sc : scene) (t : table) (A : oid) : Prop :=
  tget t (uuid (sc A)) = Some A.

(** How often the hover, unhover and click handlers of node [A] are called
    in a list of calls. *)
Definition isHoverOf (A : oid) (c : call) : bool :=
  match c with Hover _ d => Nat.eqb (object d) A | _ => false end.
Definition isUnhoverOf (A : oid) (c : call) : bool :=
  match c with Unhover o _ => Nat.eqb o A | _ => false end.
Definition isClickOf (A : oid) (c : call) : bool :=
  match c with Click _ d => Nat.eqb (object d) A | _ => false end.

Definition count (f : call -> bool) (l : list call) : nat :=
  length (filter (fun c => f c = true) l).

Lemma count_app f l1 l2 : count f (l1 ++ l2) = count f l1 + count f l2.
Proof. unfold count. by rewrite filter_app, length_app. Qed.

Lemma count_snoc f l c :
  count f (l ++ [c]) = count f l + (if f c then 1 else 0).
Proof.
  rewrite count_app. f_equal. unfold count.
  destruct (f c) eqn:E.
  - by rewrite filter_cons_True.
  - rewrite filter_cons_False; [done|congruence].
Qed.

(** *** The uuid-keyed tables *)

Lemma tget_tset_eq t k o : tget (tset t k o) k = Some o.
Proof.
  induction t as [|[k' o'] t IH]; simpl.
  - by rewrite String.eqb_refl.
  - destruct (String.eqb k' k) eqn:E; simpl.
    + by rewrite String.eqb_refl.
    + by rewrite E.
Qed.

Lemma tget_tset_ne t k k' o : k <> k' -> tget (tset t k o) k' = tget t k'.
Proof.
  intros Hne. induction t as [|[k0 o0] t IH]; simpl.
  - by rewrite (proj2 (String.eqb_neq k k')).
  - destruct (String.eqb k0 k) eqn:E; simpl.
    + apply String.eqb_eq in E as ->.
      by rewrite (proj2 (String.eqb_neq k k')).
    + by rewrite IH.
Qed.

Lemma tget_None t k : tget t k = None <-> k ∉ t.*1.
Proof.
  induction t as [|[k' o'] t IH]; simpl.
  - split; [intros _; apply not_elem_of_nil|done].
  - rewrite not_elem_of_cons. destruct (String.eqb k' k) eqn:E.
    + apply String.eqb_eq in E as ->. split; [done|]. by intros [? _].
    + apply String.eqb_neq in E. rewrite IH. split; [by split|by intros [_ ?]].
Qed.

Lemma tget_Some t k o : tget t k = Some o -> (k, o) ∈ t.
Proof.
  induction t as [|[k' o'] t IH]; simpl; [done|].
  destruct (String.eqb k' k) eqn:E.
  - apply String.eqb_eq in E as ->. intros [= ->]. left.
  - intros H. right. by apply IH.
Qed.

Lemma tget_elem t k o : NoDup t.*1 -> (k, o) ∈ t -> tget t k = Some o.
Proof.
  induction t as [|[k' o'] t IH]; simpl; intros Hnd Hin.
  - by apply elem_of_nil in Hin.
  - apply NoDup_cons in Hnd as [Hk' Hnd].
    apply elem_of_cons in Hin as [[= <- <-]|Hin].
    + by rewrite String.eqb_refl.
    + destruct (String.eqb k' k) eqn:E.
      * apply String.eqb_eq in E as ->. exfalso. apply Hk'.
        apply list_elem_of_fmap. by exists (k, o).
      * by apply IH.
Qed.

Lemma tset_fresh t k o : tget t k = None -> tset t k o = t ++ [(k, o)].
Proof.
  induction t as [|[k' o'] t IH]; simpl; [done|].
  destruct (String.eqb k' k); [done|]. intros H. by rewrite IH.
Qed.

Lemma tget_tdelete_eq t k : tget (tdelete t k) k = None.
Proof.
  apply tget_None. unfold tdelete. intros Hin.
  apply list_elem_of_fmap in Hin as ([k' o] & -> & Hin).
  apply list_elem_of_filter in Hin as [Hne _]. done.
Qed.

Lemma tget_tdelete_ne t k k' : k <> k' -> tget (tdelete t k) k' = tget t k'.
Proof.
  intros Hne. induction t as [|[k0 o0] t IH]; [done|].
  unfold tdelete in *. destruct (decide (k0 = k)) as [->|Hk0].
  - rewrite filter_cons_False by (intros Hk; by apply Hk).
    rewrite IH. simpl. by rewrite (proj2 (String.eqb_neq k k')).
  - rewrite filter_cons_True by done. simpl. by rewrite IH.
Qed.

Lemma wf_tset sc t o :
  wf sc t -> tget t (uuid (sc o)) = None -> is_Some (__handlers (sc o)) ->
  wf sc (tset t (uuid (sc o)) o).
Proof.
  intros [Hnd Hall] Hnone Hh. rewrite (tset_fresh _ _ _ Hnone). split.
  - rewrite fmap_app. apply NoDup_app. split; [done|]. split.
    + intros k Hk Hk'. apply list_elem_of_singleton in Hk' as ->.
      by apply tget_None in Hnone.
    + apply NoDup_singleton.
  - apply Forall_app. split; [done|]. by constructor.
Qed.

Lemma wf_tdelete sc t k : wf sc t -> wf sc (tdelete t k).
Proof.
  intros [Hnd Hall]. unfold tdelete. split.
  - apply (sublist_NoDup _ t.*1); [done|]. apply fmap_sublist, sublist_filter.
  - apply Forall_forall. intros e He. apply list_elem_of_filter in He as [_ He].
    revert e He. by apply Forall_forall.
Qed.

(** *** The loop of [intersect] *)

Lemma isHoverOf_false A f d : object d <> A -> isHoverOf A (Hover f d) = false.
Proof. intros H. simpl. by apply Nat.eqb_neq. Qed.

Lemma isHoverOf_true f d : isHoverOf (object d) (Hover f d) = true.
Proof. simpl. apply Nat.eqb_refl. Qed.

(** The move callback over the nodes hit: it never throws; it does not call
    [unhover]; a node that is in the map stays there without a call; a node
    that is not, is hit and has a hover handler gets one call and enters the
    map. *)
Lemma move_hits sc A intersects s :
  wf sc (hovered s) ->
  uuidUnique sc intersects A ->
  exists s',
    intersect sc intersects (onMoveHit sc) s = Done s' /\
    wf sc (hovered s') /\
    count (isUnhoverOf A) (calls s') = count (isUnhoverOf A) (calls s) /\
    (forall o, tget (hovered s) (uuid (sc A)) = Some o ->
               tget (hovered s') (uuid (sc A)) = Some o /\
               count (isHoverOf A) (calls s') = count (isHoverOf A) (calls s)) /\
    (tget (hovered s) (uuid (sc A)) = None ->
     hit intersects A -> is_Some (handler sc A "hover") ->
     tget (hovered s') (uuid (sc A)) = Some A /\
     count (isHoverOf A) (calls s') = count (isHoverOf A) (calls s) + 1).
Proof.
  unfold intersect. revert s.
  induction intersects as [|i intersects IH]; intros s Hwf Huniq.
  { exists s. split; [done|]. split; [done|]. split; [done|].
    split; [by intros o Ho|]. intros _ Hhit. by apply elem_of_nil in Hhit. }
  apply Forall_cons in Huniq as [Hi Huniq]. simpl.
  assert (Hskip : forall s0, wf sc (hovered s0) ->
            hovered s0 = hovered s -> calls s0 = calls s ->
            (object i = A -> tget (hovered s) (uuid (sc A)) = None ->
             is_Some (handler sc A "hover") -> False) ->
            exists s',
              each (fun i s => match __handlers (sc (object i)) with
                               | None => Done s
                               | Some _ => onMoveHit sc i s
                               end) intersects s0 = Done s' /\
              wf sc (hovered s') /\
              count (isUnhoverOf A) (calls s') = count (isUnhoverOf A) (calls s) /\
              (forall o, tget (hovered s) (uuid (sc A)) = Some o ->
                         tget (hovered s') (uuid (sc A)) = Some o /\
                         count (isHoverOf A) (calls s') = count (isHoverOf A) (calls s)) /\
              (tget (hovered s) (uuid (sc A)) = None ->
               hit (i :: intersects) A -> is_Some (handler sc A "hover") ->
               tget (hovered s') (uuid (sc A)) = Some A /\
               count (isHoverOf A) (calls s') = count (isHoverOf A) (calls s) + 1)).
  { intros s0 Hwf0 Hh Hc Habs.
    destruct (IH s0 Hwf0 Huniq) as (s' & Hrun & Hwf' & Hun & Hsome & Hnone).
    exists s'. rewrite Hh, Hc in *. split; [done|]. split; [done|].
    split; [done|]. split; [done|]. intros Hn Hhit Hhas.
    apply Hnone; [done| |done].
    unfold hit in *. rewrite fmap_cons in Hhit.
    apply elem_of_cons in Hhit as [HA|]; [|done]. by destruct Habs. }
  destruct (__handlers (sc (object i))) as [tbl|] eqn:Hh.
  2:{ apply (Hskip s); try done. intros HA _ [f Hf].
      unfold handler in Hf. rewrite <- HA, Hh in Hf. done. }
  unfold onMoveHit. rewrite Hh.
  destruct (tbl !! "hover") as [f|] eqn:Hf.
  2:{ apply (Hskip s); try done. intros HA _ [f' Hf'].
      unfold handler in Hf'. rewrite <- HA, Hh in Hf'. simpl in Hf'. congruence. }
  destruct (tget (hovered s) (uuid (sc (object i)))) as [o'|] eqn:Hget.
  { apply (Hskip (MoveState true (hovered s) (calls s))); try done.
    intros HA Hnone _. rewrite HA in Hget. congruence. }
  set (s1 := MoveState true (tset (hovered s) (uuid (sc (object i))) (object i))
               (calls s ++ [Hover f i])).
  assert (Hwf1 : wf sc (hovered s1)).
  { apply wf_tset; [done|done|]. by rewrite Hh. }
  destruct (IH s1 Hwf1 Huniq) as (s' & Hrun & Hwf' & Hun & Hsome & Hnone).
  exists s'. split; [done|]. split; [done|]. split.
  { rewrite Hun. simpl. by rewrite count_snoc, Nat.add_0_r. }
  destruct (decide (object i = A)) as [HA|HA].
  - split.
    + intros o Ho. rewrite <- HA in Ho. congruence.
    + intros _ _ _. destruct (Hsome A) as [H1 H2].
      { simpl. rewrite <- HA. apply tget_tset_eq. }
      split; [done|]. rewrite H2. simpl. rewrite count_snoc.
      by rewrite <- HA, isHoverOf_true.
  - assert (Hu : uuid (sc (object i)) <> uuid (sc A)) by (intros E; by apply HA, Hi).
    split.
    + intros o Ho. destruct (Hsome o) as [H1 H2].
      { simpl. by rewrite tget_tset_ne. }
      split; [done|]. rewrite H2. simpl. rewrite count_snoc.
      by rewrite isHoverOf_false, Nat.add_0_r.
    + intros Hn Hhit Hhas. destruct Hnone as [H1 H2]; try done.
      { simpl. by rewrite tget_tset_ne. }
      { unfold hit in *. rewrite fmap_cons in Hhit.
        apply elem_of_cons in Hhit as [->|]; done. }
      split; [done|]. rewrite H2. simpl. rewrite count_snoc.
      by rewrite isHoverOf_false, Nat.add_0_r.
Qed.

(** *** The loop over [Object.values(hovered)] *)

Lemma leaves_iff intersects o :
  bool_decide (intersects = []) ||
    negb (existsb (fun i => Nat.eqb (object i) o) intersects) = true
  <-> ~ hit intersects o.
Proof.
  assert (bool_decide (intersects = []) ||
            negb (existsb (fun i => Nat.eqb (object i) o) intersects)
          = negb (existsb (fun i => Nat.eqb (object i) o) intersects)) as ->
    by (by destruct intersects).
  unfold hit. induction intersects as [|i l IH]; simpl.
  - split; [intros _; apply not_elem_of_nil|done].
  - rewrite not_elem_of_cons.
    destruct (Nat.eqb (object i) o) eqn:E; simpl.
    + apply Nat.eqb_eq in E. split; [done|]. intros [H _]. by destruct H.
    + apply Nat.eqb_neq in E. rewrite IH. split; [by split|by intros [_ ?]].
Qed.

(** The number of calls a registration stands for: one if there is a
    handler, none otherwise. *)
Definition once (h : option callback) : nat :=
  match h with Some _ => 1 | None => 0 end.

(** With a handler table on every node of the snapshot the leave loop
    returns, and it keeps the map well-formed. *)
Lemma leave_runs sc intersects vs s :
  Forall (fun o => is_Some (__handlers (sc o))) vs ->
  exists s',
    each (onLeave sc intersects) vs s = Done s' /\
    (wf sc (hovered s) -> wf sc (hovered s')).
Proof.
  revert s. induction vs as [|o vs IH]; intros s Hh; [by exists s|].
  apply Forall_cons in Hh as [[tbl Ho] Hh]. simpl. unfold onLeave at 1.
  destruct (bool_decide (intersects = []) || _); [|by apply IH].
  rewrite Ho.
  edestruct IH as (s' & Hrun & Hwf); [done|]. exists s'. split; [exact Hrun|].
  intros Hw. apply Hwf. simpl. apply wf_tdelete.
  by destruct (tbl !! "unhover").
Qed.

Lemma isUnhoverOf_false A o f : o <> A -> isUnhoverOf A (Unhover o f) = false.
Proof. intros H. simpl. by apply Nat.eqb_neq. Qed.

(** The leave loop over a snapshot [vs] of the map's nodes: with a handler
    table on every node it never throws; it does not call [hover]; node [A],
    if it is in the snapshot and was not hit, gets its [unhover] handler
    called once (when it has one) and leaves the map, and otherwise is left
    alone. *)
Lemma leave_loop sc intersects A vs s :
  Forall (fun o => is_Some (__handlers (sc o))) vs ->
  Forall (fun o => o <> A -> uuid (sc o) <> uuid (sc A)) vs ->
  NoDup vs ->
  exists s',
    each (onLeave sc intersects) vs s = Done s' /\
    (wf sc (hovered s) -> wf sc (hovered s')) /\
    count (isHoverOf A) (calls s') = count (isHoverOf A) (calls s) /\
    (A ∉ vs \/ hit intersects A ->
     tget (hovered s') (uuid (sc A)) = tget (hovered s) (uuid (sc A)) /\
     count (isUnhoverOf A) (calls s') = count (isUnhoverOf A) (calls s)) /\
    (A ∈ vs -> ~ hit intersects A ->
     tget (hovered s') (uuid (sc A)) = None /\
     count (isUnhoverOf A) (calls s')
     = count (isUnhoverOf A) (calls s)
       + once (handler sc A "unhover")).
Proof.
  revert s. induction vs as [|o vs IH]; intros s Hh Hu Hnd.
  { exists s. split; [done|]. split; [done|]. split; [done|].
    split; [done|]. intros HA. by apply elem_of_nil in HA. }
  apply Forall_cons in Hh as [[tbl Ho] Hh]. apply Forall_cons in Hu as [Huo Hu].
  apply NoDup_cons in Hnd as [Hov Hnd]. simpl. unfold onLeave at 1.
  destruct (bool_decide (intersects = []) ||
            negb (existsb (fun i => Nat.eqb (object i) o) intersects)) eqn:Hc.
  - apply leaves_iff in Hc. rewrite Ho.
    set (s0 := match tbl !! "unhover" with
               | Some f => MoveState (hover s) (hovered s) (calls s ++ [Unhover o f])
               | None => s
               end).
    set (s1 := MoveState (hover s0) (tdelete (hovered s0) (uuid (sc o))) (calls s0)).
    assert (Hs0 : hovered s0 = hovered s) by (unfold s0; by destruct (tbl !! "unhover")).
    assert (Hhov : count (isHoverOf A) (calls s0) = count (isHoverOf A) (calls s)).
    { unfold s0. destruct (tbl !! "unhover"); [|done]. simpl.
      by rewrite count_snoc, Nat.add_0_r. }
    destruct (IH s1 Hh Hu Hnd) as (s' & Hrun & Hwf & Hhc & Hkeep & Hgo).
    change (calls s1) with (calls s0) in *.
    exists s'. split; [done|]. split.
    { intros Hw. apply Hwf. simpl. rewrite Hs0. by apply wf_tdelete. }
    split; [by rewrite Hhc|].
    destruct (decide (o = A)) as [->|HoA].
    + split.
      * intros [HA|HA]; [|done]. exfalso. apply HA. left.
      * intros _ _. destruct Hkeep as [H1 H2]; [by left|].
        rewrite H1, H2. simpl. split; [apply tget_tdelete_eq|].
        unfold s0, handler, once. rewrite Ho. simpl.
        destruct (tbl !! "unhover"); simpl.
        -- rewrite count_snoc. simpl. by rewrite Nat.eqb_refl.
        -- by rewrite Nat.add_0_r.
    + assert (Hun : count (isUnhoverOf A) (calls s0) = count (isUnhoverOf A) (calls s)).
      { unfold s0. destruct (tbl !! "unhover"); [|done]. simpl.
        by rewrite count_snoc, isUnhoverOf_false, Nat.add_0_r. }
      assert (Hget : tget (hovered s1) (uuid (sc A)) = tget (hovered s) (uuid (sc A))).
      { simpl. rewrite Hs0. apply tget_tdelete_ne. by apply Huo. }
      split.
      * intros HA. destruct Hkeep as [H1 H2].
        { destruct HA as [HA|HA]; [|by right]. left.
          apply not_elem_of_cons in HA. by destruct HA. }
        by rewrite H1, H2, Hget.
      * intros HA Hnh. apply elem_of_cons in HA as [->|HA]; [done|].
        destruct (Hgo HA Hnh) as [H1 H2]. by rewrite H1, H2, Hun.
  - assert (Hhit : hit intersects o).
    { destruct (decide (hit intersects o)) as [|Hn]; [done|].
      apply leaves_iff in Hn. congruence. }
    destruct (IH s Hh Hu Hnd) as (s' & Hrun & Hwf & Hhc & Hkeep & Hgo).
    exists s'. split; [done|]. split; [done|]. split; [done|]. split.
    + intros HA. apply Hkeep. destruct HA as [HA|HA]; [|by right].
      left. apply not_elem_of_cons in HA. by destruct HA.
    + intros HA Hnh. apply elem_of_cons in HA as [->|HA]; [done|]. by apply Hgo.
Qed.

(** The nodes held by a well-formed map. *)
Lemma wf_values sc t :
  wf sc t ->
  Forall (fun o => is_Some (__handlers (sc o))) (values t) /\
  NoDup (values t) /\
  (forall A, A ∈ values t <-> tget t (uuid (sc A)) = Some A) /\
  (forall A, A ∈ values t ->
             Forall (fun o => o <> A -> uuid (sc o) <> uuid (sc A)) (values t)).
Proof.
  intros [Hnd Hall]. unfold values.
  assert (Hkeys : t.*1 = (fun o => uuid (sc o)) <$> t.*2).
  { clear Hnd. induction t as [|[k o] t IH]; [done|]. rewrite !fmap_cons.
    apply Forall_cons in Hall as [[Hk _] Hall]. simpl in *.
    rewrite Hk. f_equal. by apply IH. }
  assert (Hin : forall A, A ∈ t.*2 <-> tget t (uuid (sc A)) = Some A).
  { intros A. split.
    - intros HA. apply list_elem_of_fmap in HA as ([k o] & -> & HA).
      apply tget_elem; [done|]. simpl.
      apply (proj1 (Forall_forall _ _) Hall) in HA as HA'. simpl in HA'.
      destruct HA' as [<- _]. done.
    - intros HA. apply tget_Some in HA. apply list_elem_of_fmap.
      by exists (uuid (sc A), A). }
  split; [|split; [|split; [done|]]].
  - apply Forall_fmap. eapply Forall_impl; [exact Hall|]. by intros [k o] [_ H].
  - rewrite Hkeys in Hnd. by apply NoDup_fmap_1 in Hnd.
  - intros A HA. apply Forall_forall. intros o Ho Hne Hu.
    apply Hin in HA. apply Hin in Ho. rewrite Hu in Ho. congruence.
Qed.

(** *** One pointer-move event *)

(** What one event does for node [A], from a well-formed [hovered] map, when
    no other node hit carries the uuid of [A]:
    - Unhovered, hit, with a hover handler: that handler is called once, and
      [A] is Hovered afterwards;
    - Hovered and hit: no call, and [A] stays Hovered;
    - Hovered and not hit: no hover call, one call of the unhover handler if
      [A] has one and none otherwise, and [A] is Unhovered afterwards.
    The event handler returns in all three cases. *)
Lemma handleMove_step sc cursor intersects t A :
  wf sc t ->
  uuidUnique sc intersects A ->
  exists s',
    handleMove sc cursor intersects t = Done s' /\
    wf sc (hovered s') /\
    (tget t (uuid (sc A)) = None -> hit intersects A ->
     is_Some (handler sc A "hover") ->
     count (isHoverOf A) (calls s') = 1 /\
     count (isUnhoverOf A) (calls s') = 0 /\
     isHovered sc (hovered s') A) /\
    (isHovered sc t A -> hit intersects A ->
     count (isHoverOf A) (calls s') = 0 /\
     count (isUnhoverOf A) (calls s') = 0 /\
     isHovered sc (hovered s') A) /\
    (isHovered sc t A -> ~ hit intersects A ->
     count (isHoverOf A) (calls s') = 0 /\
     count (isUnhoverOf A) (calls s') = once (handler sc A "unhover") /\
     tget (hovered s') (uuid (sc A)) = None).
Proof.
  intros Hwf Huniq. unfold handleMove.
  destruct (move_hits sc A intersects (MoveState false t []) Hwf Huniq)
    as (s1 & Hrun1 & Hwf1 & Hun1 & Hsome1 & Hnone1).
  rewrite Hrun1. simpl in *.
  set (s2 := updateCursor cursor s1).
  assert (Hh2 : hovered s2 = hovered s1).
  { unfold s2, updateCursor. by destruct (String.eqb _ _). }
  assert (Hc2 : forall f, (forall c, f (SetCursor c) = false) ->
                          count f (calls s2) = count f (calls s1)).
  { intros f Hf. unfold s2, updateCursor. destruct (String.eqb _ _); [done|].
    simpl. by rewrite count_snoc, Hf, Nat.add_0_r. }
  destruct (wf_values sc (hovered s1) Hwf1) as (Hvh & Hvnd & Hvin & Hvu).
  assert (Hloop : forall (HA : isHovered sc (hovered s1) A),
    exists s',
      each (onLeave sc intersects) (values (hovered s2)) s2 = Done s' /\
      wf sc (hovered s') /\
      count (isHoverOf A) (calls s') = count (isHoverOf A) (calls s1) /\
      (hit intersects A ->
       tget (hovered s') (uuid (sc A)) = Some A /\
       count (isUnhoverOf A) (calls s') = count (isUnhoverOf A) (calls s1)) /\
      (~ hit intersects A ->
       tget (hovered s') (uuid (sc A)) = None /\
       count (isUnhoverOf A) (calls s')
       = count (isUnhoverOf A) (calls s1) + once (handler sc A "unhover"))).
  { intros HA. rewrite Hh2.
    destruct (leave_loop sc intersects A (values (hovered s1)) s2 Hvh
                (Hvu A (proj2 (Hvin A) HA)) Hvnd)
      as (s' & Hrun & Hwf' & Hhc & Hkeep & Hgo).
    exists s'. split; [done|]. split; [apply Hwf'; by rewrite Hh2|].
    split; [by rewrite Hhc, Hc2|]. split.
    - intros Hhit. destruct Hkeep as [H1 H2]; [by right|].
      rewrite H1, H2, Hh2, Hc2 by done. done.
    - intros Hnh. destruct Hgo as [H1 H2]; [by apply Hvin|done|].
      rewrite H1, H2, Hc2 by done. done. }
  destruct (tget t (uuid (sc A))) as [o|] eqn:Hget.
  - destruct (Hsome1 o eq_refl) as [Hg1 Hc1].
    destruct (decide (o = A)) as [->|HoA].
    + destruct (Hloop Hg1) as (s' & Hrun & Hwf' & Hhc & Hhit & Hnh).
      exists s'. split; [done|]. split; [done|]. split; [done|].
      unfold isHovered. rewrite Hget. split.
      * intros _ Hh. destruct (Hhit Hh) as [H1 H2].
        by rewrite Hhc, Hc1, H2, Hun1.
      * intros _ Hn. destruct (Hnh Hn) as [H1 H2].
        by rewrite Hhc, Hc1, H2, Hun1.
    + destruct (leave_runs sc intersects (values (hovered s1)) s2 Hvh)
        as (s' & Hrun & Hwf').
      exists s'. rewrite Hh2. split; [done|]. split; [apply Hwf'; by rewrite Hh2|].
      unfold isHovered. rewrite Hget.
      split; [done|]. split; intros [= ?]; done.
  - destruct (decide (hit intersects A /\ is_Some (handler sc A "hover")))
      as [[Hhit Hhas]|Hno].
    + destruct (Hnone1 eq_refl Hhit Hhas) as [Hg1 Hc1].
      destruct (Hloop Hg1) as (s' & Hrun & Hwf' & Hhc & Hstay & _).
      exists s'. split; [done|]. split; [done|].
      unfold isHovered. rewrite Hget. split; [|split; intros [=]].
      intros _ _ _. destruct (Hstay Hhit) as [H1 H2].
      by rewrite Hhc, Hc1, H2, Hun1.
    + destruct (leave_runs sc intersects (values (hovered s1)) s2 Hvh)
        as (s' & Hrun & Hwf').
      exists s'. rewrite Hh2. split; [done|]. split; [apply Hwf'; by rewrite Hh2|].
      unfold isHovered. rewrite Hget.
      split; [|split; intros [=]]. intros _ Hhit Hhas. by destruct Hno.
Qed.

(** Three events in a row, the scene staying as it is. *)
Lemma handleMove_three_frames sc A c1 c2 c3 i1 i2 i3 t :
  wf sc t ->
  tget t (uuid (sc A)) = None ->
  is_Some (handler sc A "hover") ->
  uuidUnique sc i1 A -> uuidUnique sc i2 A -> uuidUnique sc i3 A ->
  hit i1 A -> hit i2 A -> ~ hit i3 A ->
  exists s1 s2 s3,
    handleMove sc c1 i1 t = Done s1 /\
    handleMove sc c2 i2 (hovered s1) = Done s2 /\
    handleMove sc c3 i3 (hovered s2) = Done s3 /\
    count (isHoverOf A) (calls s1) = 1 /\
    count (isUnhoverOf A) (calls s1) = 0 /\
    count (isHoverOf A) (calls s2) = 0 /\
    count (isUnhoverOf A) (calls s2) = 0 /\
    count (isHoverOf A) (calls s3) = 0 /\
    count (isUnhoverOf A) (calls s3) = once (handler sc A "unhover").
Proof.
  intros Hwf Hnone Hhas Hu1 Hu2 Hu3 Hh1 Hh2 Hh3.
  destruct (handleMove_step sc c1 i1 t A Hwf Hu1) as (s1 & Hr1 & Hwf1 & Ha & _).
  destruct (Ha Hnone Hh1 Hhas) as (H1 & H2 & Hov1).
  destruct (handleMove_step sc c2 i2 (hovered s1) A Hwf1 Hu2)
    as (s2 & Hr2 & Hwf2 & _ & Hb & _).
  destruct (Hb Hov1 Hh2) as (H3 & H4 & Hov2).
  destruct (handleMove_step sc c3 i3 (hovered s2) A Hwf2 Hu3)
    as (s3 & Hr3 & Hwf3 & _ & _ & Hc).
  destruct (Hc Hov2 Hh3) as (H5 & H6 & _).
  by exists s1, s2, s3.
Qed.


(** A scene with a node 0 that has all three handlers, a node 1 with a
    click handler only, and nodes without a handler table. *)
Definition demoScene : scene := fun o =>
  match o with
  | 0 => Node "a" (Some (<["hover" := 10]> (<["unhover" := 11]> {["click" := 12]})))
  | 1 => Node "b" (Some {["click" := 13]})
  | _ => Node "c" None
  end.

Lemma wf_nil sc : wf sc [].
Proof. split; [apply NoDup_nil_2|constructor]. Qed.


(** *** One click event *)

(** The click callback over the nodes hit, from any [clicked] map: a node
    that is in the map already gets no call; a node that is not, is hit and
    has a click handler gets that handler called once, with the first
    intersection that hit it. *)
Lemma click_hits sc B intersects s :
  uuidUnique sc intersects B ->
  exists s',
    intersect sc intersects (onClickHit sc) s = Done s' /\
    (forall o, tget (clicked s) (uuid (sc B)) = Some o ->
               tget (clicked s') (uuid (sc B)) = Some o /\
               filter (fun c => isClickOf B c = true) (clickCalls s')
               = filter (fun c => isClickOf B c = true) (clickCalls s)) /\
    (forall f, tget (clicked s) (uuid (sc B)) = None ->
               hit intersects B -> handler sc B "click" = Some f ->
               exists d,
                 find (fun i => Nat.eqb (object i) B) intersects = Some d /\
                 tget (clicked s') (uuid (sc B)) = Some B /\
                 filter (fun c => isClickOf B c = true) (clickCalls s')
                 = filter (fun c => isClickOf B c = true) (clickCalls s) ++ [Click f d]).
Proof.
  unfold intersect. revert s.
  induction intersects as [|i intersects IH]; intros s Huniq.
  { exists s. split; [done|]. split; [done|].
    intros f _ Hhit. by apply elem_of_nil in Hhit. }
  apply Forall_cons in Huniq as [Hi Huniq]. simpl.
  assert (Hskip : forall s0,
            clicked s0 = clicked s -> clickCalls s0 = clickCalls s ->
            (object i = B -> tget (clicked s) (uuid (sc B)) = None ->
             is_Some (handler sc B "click") -> False) ->
            exists s',
              each (fun i s => match __handlers (sc (object i)) with
                               | None => Done s
                               | Some _ => onClickHit sc i s
                               end) intersects s0 = Done s' /\
              (forall o, tget (clicked s) (uuid (sc B)) = Some o ->
                 tget (clicked s') (uuid (sc B)) = Some o /\
                 filter (fun c => isClickOf B c = true) (clickCalls s')
                 = filter (fun c => isClickOf B c = true) (clickCalls s)) /\
              (forall f, tget (clicked s) (uuid (sc B)) = None ->
                 hit (i :: intersects) B -> handler sc B "click" = Some f ->
                 exists d,
                   find (fun i => Nat.eqb (object i) B) (i :: intersects) = Some d /\
                   tget (clicked s') (uuid (sc B)) = Some B /\
                   filter (fun c => isClickOf B c = true) (clickCalls s')
                   = filter (fun c => isClickOf B c = true) (clickCalls s) ++ [Click f d])).
  { intros s0 Hc Hcc Habs.
    destruct (IH s0 Huniq) as (s' & Hrun & Hsome & Hnone).
    exists s'. rewrite Hc, Hcc in *. split; [done|]. split; [done|].
    intros f Hn Hhit Hf. simpl.
    destruct (Nat.eqb (object i) B) eqn:E.
    - apply Nat.eqb_eq in E. destruct Habs; [done|done|by exists f].
    - apply Hnone; [done| |done]. unfold hit in *. rewrite fmap_cons in Hhit.
      apply elem_of_cons in Hhit as [HB|]; [|done].
      apply Nat.eqb_neq in E. congruence. }
  destruct (__handlers (sc (object i))) as [tbl|] eqn:Hh.
  2:{ apply (Hskip s); try done. intros HB _ [f Hf].
      unfold handler in Hf. rewrite <- HB, Hh in Hf. done. }
  unfold onClickHit. rewrite Hh.
  destruct (tbl !! "click") as [f|] eqn:Hf.
  2:{ apply (Hskip s); try done. intros HB _ [f' Hf'].
      unfold handler in Hf'. rewrite <- HB, Hh in Hf'. simpl in Hf'. congruence. }
  destruct (tget (clicked s) (uuid (sc (object i)))) as [o'|] eqn:Hget.
  { apply (Hskip s); try done. intros HB Hnone _. rewrite HB in Hget. congruence. }
  set (s1 := ClickState (tset (clicked s) (uuid (sc (object i))) (object i))
               (clickCalls s ++ [Click f i])).
  destruct (IH s1 Huniq) as (s' & Hrun & Hsome & Hnone).
  exists s'. split; [done|].
  destruct (decide (object i = B)) as [HB|HB].
  - split.
    + intros o Ho. rewrite <- HB in Ho. congruence.
    + intros f' _ _ Hf'. destruct (Hsome B) as [H1 H2].
      { simpl. rewrite <- HB. apply tget_tset_eq. }
      exists i. simpl. rewrite (proj2 (Nat.eqb_eq _ _) HB).
      split; [done|]. split; [done|]. rewrite H2. simpl.
      rewrite filter_app, filter_cons_True by (simpl; by apply Nat.eqb_eq).
      unfold handler in Hf'. rewrite <- HB, Hh in Hf'. simpl in Hf'.
      by replace f' with f by congruence.
  - assert (Hu : uuid (sc (object i)) <> uuid (sc B)) by (intros E; by apply HB, Hi).
    assert (Hfl : filter (fun c => isClickOf B c = true) (clickCalls s1)
                  = filter (fun c => isClickOf B c = true) (clickCalls s)).
    { simpl. rewrite filter_app, filter_cons_False, filter_nil, app_nil_r; [done|].
      simpl. intros E. by apply Nat.eqb_eq in E. }
    split.
    + intros o Ho. destruct (Hsome o) as [H1 H2].
      { simpl. by rewrite tget_tset_ne. }
      by rewrite H1, H2, Hfl.
    + intros f' Hn Hhit Hf'. destruct (Hnone f') as (d & Hd & H1 & H2); try done.
      { simpl. by rewrite tget_tset_ne. }
      { unfold hit in *. rewrite fmap_cons in Hhit.
        apply elem_of_cons in Hhit as [->|]; done. }
      exists d. simpl. rewrite (proj2 (Nat.eqb_neq _ _) HB).
      by rewrite H1, H2, Hfl.
Qed.



End PickingSpec.

(* --------------------------------------------------------------------- *)
(** ** The reconciliation adapter: placeholders stay out of child lists *)
(* --------------------------------------------------------------------- *)

Module AdapterInv.
Import Js Props Adapter Heap HeapWrites.

(** A value that is not a dangling reference. *)
Definition allocated (s : state) (v : value) : Prop :=
  forall a, v = VRef a -> is_Some (heap s !! a).

(** A value that is neither a dangling reference nor a reference to a
    placeholder. *)
Definition clean (s : state) (v : value) : Prop :=
  forall a, v = VRef a -> is_Some (heap s !! a) /\ a ∉ leaves s.

(** What a property may hold: the [parent] back-reference may point to a
    placeholder, every other property holds a clean value. *)
Definition stored (s : state) (k : string) (v : value) : Prop :=
  if decide (k = "parent") then allocated s v else clean s v.

(** The invariant: a placeholder is an allocated object that is not an array
    and not spatial; properties hold what they may hold; arrays (child lists
    among them) hold clean values. *)
Record inv (s : state) : Prop := Inv {
  inv_leaf : forall p, p ∈ leaves s ->
      exists o, heap s !! p = Some o /\ items o = None /\
                truthy (obj_get o "isObject3D") = false;
  inv_fields : forall a o k v,
      heap s !! a = Some o -> fields o !! k = Some v -> stored s k v;
  inv_items : forall a o l,
      heap s !! a = Some o -> items o = Some l -> Forall (clean s) l
}.

(** The state grows: objects stay allocated, placeholders stay
    placeholders, and no object allocated before becomes one. *)
Record ext (s s' : state) : Prop := Ext {
  ext_heap : forall a, is_Some (heap s !! a) -> is_Some (heap s' !! a);
  ext_leaves : forall p, p ∈ leaves s -> p ∈ leaves s';
  ext_old : forall a, is_Some (heap s !! a) -> a ∈ leaves s' -> a ∈ leaves s
}.

Lemma ext_refl s : ext s s.
Proof. by split. Qed.

Lemma ext_trans s1 s2 s3 : ext s1 s2 -> ext s2 s3 -> ext s1 s3.
Proof.
  intros [h1 l1 o1] [h2 l2 o2]. split; [by auto|by auto|].
  intros a Ha Hl. apply o1; [done|]. apply o2; [by apply h1|done].
Qed.

Lemma clean_ext s s' v : ext s s' -> clean s v -> clean s' v.
Proof.
  intros [h l o] Hc a ->. destruct (Hc a eq_refl) as [Ha Hl].
  split; [by apply h|]. intros Hin. by apply Hl, o.
Qed.

Lemma allocated_ext s s' v : ext s s' -> allocated s v -> allocated s' v.
Proof. intros [h _ _] Hc a ->. by apply h, Hc. Qed.

Lemma stored_ext s s' k v : ext s s' -> stored s k v -> stored s' k v.
Proof.
  unfold stored. intros He. destruct (decide (k = "parent")).
  - by apply allocated_ext.
  - by apply clean_ext.
Qed.

Lemma clean_allocated s v : clean s v -> allocated s v.
Proof. intros Hc a Ha. by apply Hc. Qed.

Lemma clean_stored s k v : clean s v -> stored s k v.
Proof.
  intros Hc. unfold stored. destruct (decide _); [by apply clean_allocated|done].
Qed.

Lemma clean_prim s v : (forall a, v <> VRef a) -> clean s v.
Proof. intros H a ->. by destruct (H a). Qed.

Lemma Forall_clean_ext s s' l : ext s s' -> Forall (clean s) l -> Forall (clean s') l.
Proof. intros He Hl. eapply Forall_impl; [exact Hl|]. intros v. by apply clean_ext. Qed.

(** What the invariant says about the values read from the heap. *)
Lemma field_stored s x k : inv s -> stored s k (field s x k).
Proof.
  intros Hinv. destruct x as [| | | | | |a]; try (by apply clean_stored, clean_prim).
  simpl. destruct (heap s !! a) as [o|] eqn:Ha; [|by apply clean_stored, clean_prim].
  unfold obj_get. destruct (items o) as [l|] eqn:Hl.
  - destruct (String.eqb k "length"); [by apply clean_stored, clean_prim|].
    destruct (Str.parseIndex k) as [i|].
    + apply clean_stored. destruct (l !! i) as [v|] eqn:Hi; [|by apply clean_prim].
      simpl. eapply Forall_lookup_1; [by eapply inv_items|done].
    + destruct (fields o !! k) as [v|] eqn:Hk; [|by apply clean_stored, clean_prim].
      by eapply inv_fields.
  - destruct (fields o !! k) as [v|] eqn:Hk; [|by apply clean_stored, clean_prim].
    by eapply inv_fields.
Qed.

Lemma field_clean s x k : inv s -> k <> "parent" -> clean s (field s x k).
Proof.
  intros Hinv Hk. pose proof (field_stored s x k Hinv) as H.
  unfold stored in H. by rewrite decide_False in H.
Qed.

Lemma field_allocated s x k : inv s -> allocated s (field s x k).
Proof.
  intros Hinv. pose proof (field_stored s x k Hinv) as H.
  unfold stored in H. destruct (decide _); [done|by apply clean_allocated].
Qed.

Lemma elements_clean s v l : inv s -> elements s v = Some l -> Forall (clean s) l.
Proof.
  intros Hinv. destruct v as [| | | | | |a]; try done. simpl.
  destruct (heap s !! a) as [o|] eqn:Ha; [|done]. simpl. intros Hl.
  by eapply inv_items.
Qed.

(** A spatial object is no placeholder. *)
Lemma sceneNode_clean s x :
  inv s -> truthy (field s x "isObject3D") = true -> clean s x.
Proof.
  intros Hinv Ht a ->. simpl in Ht.
  destruct (heap s !! a) as [o|] eqn:Ha; [|done]. split; [done|].
  intros Hl. destruct (inv_leaf s Hinv a Hl) as (o' & Ho' & _ & Hf).
  congruence.
Qed.

(** *** A program logic for the invariant *)

(** [post m s Q]: run from [s], the computation [m] ends, by returning or by
    throwing, in a state that satisfies the invariant and extends [s]; when
    it returns, [Q] holds of its result and final state. *)
Definition post {A} (m : M A) (s : state) (Q : A -> state -> Prop) : Prop :=
  match m s with
  | Ok a s' => inv s' /\ ext s s' /\ Q a s'
  | Throw s' => inv s' /\ ext s s'
  end.

Lemma post_ret {A} (a : A) s (Q : A -> state -> Prop) :
  inv s -> Q a s -> post (ret a) s Q.
Proof. intros Hi HQ. unfold post, ret. split; [done|]. split; [apply ext_refl|done]. Qed.

Lemma post_throw {A} s (Q : A -> state -> Prop) : inv s -> post throw s Q.
Proof. intros Hi. unfold post, throw. split; [done|apply ext_refl]. Qed.

Lemma post_bind {A B} (m : M A) (k : A -> M B) s (Q : B -> state -> Prop) :
  post m s (fun a s1 => post (k a) s1 Q) -> post (bind m k) s Q.
Proof.
  unfold post, bind. destruct (m s) as [a s1|s1]; [|done].
  intros (Hi1 & He1 & H). destruct (k a s1) as [b s2|s2].
  - destruct H as (Hi2 & He2 & HQ). split; [done|]. split; [|done].
    by eapply ext_trans.
  - destruct H as (Hi2 & He2). split; [done|]. by eapply ext_trans.
Qed.

Lemma post_conseq {A} (m : M A) s (Q1 Q2 : A -> state -> Prop) :
  post m s Q1 ->
  (forall a s', inv s' -> ext s s' -> Q1 a s' -> Q2 a s') ->
  post m s Q2.
Proof.
  unfold post. destruct (m s) as [a s'|s']; [|done].
  intros (Hi & He & HQ) H. split; [done|]. split; [done|]. by apply H.
Qed.

(** Sequencing: the continuation is verified from any state the first
    computation may return in. *)
Lemma post_seq {A B} (m : M A) (k : A -> M B) s (Q1 : A -> state -> Prop)
    (Q : B -> state -> Prop) :
  post m s Q1 ->
  (forall a s1, inv s1 -> ext s s1 -> Q1 a s1 ->
                post (k a) s1 (fun b s2 => ext s s2 -> Q b s2)) ->
  post (bind m k) s Q.
Proof.
  intros Hm Hk. apply post_bind.
  eapply post_conseq; [exact Hm|]. intros a s1 Hi He HQ. simpl.
  pose proof (Hk a s1 Hi He HQ) as H. unfold post in *.
  destruct (k a s1) as [b s2|s2]; [|done].
  destruct H as (Hi2 & He2 & H). split; [done|]. split; [done|].
  apply H. by eapply ext_trans.
Qed.

(** Drops the extension facts a nested continuation carries. *)
Ltac exts :=
  cbv beta; repeat (match goal with |- ext _ _ -> _ => intros _ end).

(** Reads leave the state as it is. *)
Lemma post_getv x k s :
  inv s -> post (getv x k) s (fun v s' => s' = s /\ v = field s x k).
Proof.
  intros Hi. unfold post. destruct (getv x k s) as [v s'|s'] eqn:E.
  - apply getv_state in E as [-> ->]. split; [done|]. split; [apply ext_refl|done].
  - apply getv_throw in E as [-> _]. split; [done|apply ext_refl].
Qed.

Lemma post_gets {A} (f : state -> A) s :
  inv s -> post (gets f) s (fun a s' => s' = s /\ a = f s).
Proof. intros Hi. unfold post, gets. split; [done|]. split; [apply ext_refl|done]. Qed.

Lemma post_arr_items v s :
  inv s -> post (arr_items v) s (fun l s' => s' = s /\ elements s v = Some l).
Proof.
  intros Hi. unfold post, arr_items.
  destruct v as [| | | | | |a]; try (split; [done|apply ext_refl]).
  simpl. destruct (heap s !! a) as [o|]; [|split; [done|apply ext_refl]].
  simpl. destruct (items o); [|split; [done|apply ext_refl]].
  split; [done|]. split; [apply ext_refl|done].
Qed.

Lemma post_emit e s : inv s -> post (emit e) s (fun _ _ => True).
Proof.
  intros [Hl Hf Hit]. unfold post, emit. split; [|split; [|done]].
  - by split.
  - by split.
Qed.

Lemma post_callv f this args s : inv s -> post (callv f this args) s (fun _ _ => True).
Proof.
  intros Hi. unfold callv. eapply post_seq; [by apply post_gets|].
  intros fn s1 Hi1 _ [-> ->]. destruct (is_function s f).
  - eapply post_conseq; [by apply post_emit|done].
  - by apply post_throw.
Qed.

(** States with the same objects allocated and the same placeholders agree
    on what is clean. *)
Lemma ext_same s s' :
  (forall a, is_Some (heap s !! a) <-> is_Some (heap s' !! a)) ->
  leaves s' = leaves s ->
  ext s s' /\ ext s' s.
Proof.
  intros Hh Hl. split; split; try (intros a; rewrite Hl; tauto);
    intros a; apply Hh.
Qed.

(** What a write does to an object. *)
Lemma obj_set_spec o k x o' :
  obj_set o k x = Some o' ->
  (forall k' v, fields o' !! k' = Some v ->
                fields o !! k' = Some v \/ (k' = k /\ v = x)) /\
  (items o = None -> items o' = None /\ fields o' = <[k := x]> (fields o)) /\
  (forall l', items o' = Some l' ->
     exists l, items o = Some l /\
       Forall (fun v => v ∈ l \/ v = VUndef \/ (v = x /\ k <> "parent")) l').
Proof.
  unfold obj_set. destruct (items o) as [l|] eqn:Hl.
  - destruct (String.eqb k "length") eqn:Hlen.
    + destruct x as [| | |n| | |]; try done.
      destruct (0 <=? n)%Z; [|done]. intros [= <-]. simpl.
      split; [by left|]. split; [done|]. intros l' [= <-]. exists l.
      split; [done|]. unfold resize. apply Forall_app. split.
      * apply Forall_forall. intros v Hv. left.
        eapply elem_of_sublist; [exact Hv|apply sublist_take].
      * apply Forall_forall. intros v Hv. right. left.
        by apply elem_of_replicate_inv in Hv.
    + destruct (Str.parseIndex k) as [i|] eqn:Hi.
      * intros [= <-]. simpl. split; [by left|]. split; [done|].
        intros l' [= <-]. exists l. split; [done|].
        apply Forall_forall. intros v Hv.
        apply list_elem_of_lookup in Hv as [j Hj].
        destruct (decide (i = j)) as [->|Hij].
        -- rewrite list_lookup_insert_eq in Hj.
           ++ injection Hj as <-. right. right. split; [done|].
              intros ->. by vm_compute in Hi.
           ++ unfold resize. rewrite length_app, length_take, length_replicate. lia.
        -- rewrite list_lookup_insert_ne in Hj by done.
           unfold resize in Hj. apply list_elem_of_lookup_2 in Hj.
           apply elem_of_app in Hj as [Hj|Hj].
           ++ left. eapply elem_of_sublist; [exact Hj|apply sublist_take].
           ++ right. left. by apply elem_of_replicate_inv in Hj.
      * intros [= <-]. simpl. split.
        -- intros k' v Hk'. destruct (decide (k' = k)) as [->|Hne].
           ++ rewrite lookup_insert_eq in Hk'. injection Hk' as <-. by right.
           ++ rewrite lookup_insert_ne in Hk' by done. by left.
        -- split; [done|]. intros l' Hl'. exists l. split; [done|].
           injection Hl' as <-.
           apply Forall_forall. intros v Hv. by left.
  - intros [= <-]. simpl. split.
    + intros k' v Hk'. destruct (decide (k' = k)) as [->|Hne].
      * rewrite lookup_insert_eq in Hk'. injection Hk' as <-. by right.
      * rewrite lookup_insert_ne in Hk' by done. by left.
    + split; [done|]. intros l' Hl'. done.
Qed.

(** Writing a value a property may hold keeps the invariant, as long as the
    write does not turn a placeholder into a spatial object. *)
Lemma post_setv x k v s :
  inv s ->
  stored s k v ->
  (forall p, x = VRef p -> p ∈ leaves s -> k <> "isObject3D") ->
  post (setv x k v) s (fun _ _ => True).
Proof.
  intros Hi Hv Hsafe. unfold post, setv.
  destruct x as [| | | | | |a]; try (split; [done|apply ext_refl]).
  destruct (heap s !! a) as [o|] eqn:Ha;
    [|split; [done|]; split; [apply ext_refl|done]].
  destruct (obj_set o k v) as [o'|] eqn:Hset; [|split; [done|apply ext_refl]].
  destruct (obj_set_spec _ _ _ _ Hset) as (Hfs & Hnone & Hits).
  set (s' := State (<[a := o']> (heap s)) (leaves s) (trace s)).
  destruct (ext_same s s') as [He He'].
  { intros b. simpl. destruct (decide (a = b)) as [<-|Hne].
    - rewrite lookup_insert_eq, Ha. split; eauto.
    - by rewrite lookup_insert_ne. }
  { done. }
  split; [|split; [done|done]].
  split.
  - intros p Hp. simpl in Hp. destruct (decide (a = p)) as [<-|Hne].
    + destruct (inv_leaf s Hi a Hp) as (o0 & Ho0 & Hit0 & Hf0).
      assert (o0 = o) as -> by congruence.
      destruct (Hnone Hit0) as [Hit' Hf']. exists o'. simpl.
      rewrite lookup_insert_eq. split; [done|]. split; [done|].
      unfold obj_get in *. rewrite Hit0 in Hf0. rewrite Hit', Hf'.
      rewrite lookup_insert_ne; [done|]. intros ->. by eapply Hsafe.
    + destruct (inv_leaf s Hi p Hp) as (o0 & Ho0 & Hit0 & Hf0).
      exists o0. simpl. by rewrite lookup_insert_ne.
  - intros b ob k' v' Hb Hk'. simpl in Hb. apply (stored_ext s s'); [done|].
    destruct (decide (a = b)) as [<-|Hne].
    + rewrite lookup_insert_eq in Hb. injection Hb as <-.
      destruct (Hfs k' v' Hk') as [Hold|[-> ->]]; [|done].
      by eapply inv_fields.
    + rewrite lookup_insert_ne in Hb by done. by eapply inv_fields.
  - intros b ob l' Hb Hl'. simpl in Hb. apply (Forall_clean_ext s s'); [done|].
    destruct (decide (a = b)) as [<-|Hne].
    + rewrite lookup_insert_eq in Hb. injection Hb as <-.
      destruct (Hits l' Hl') as (l & Hl & Hall).
      pose proof (inv_items s Hi a o l Ha Hl) as Hcl.
      apply Forall_forall. intros w Hw.
      apply (proj1 (Forall_forall _ _) Hall) in Hw as [Hw|[->|[-> Hk]]].
      * by apply (proj1 (Forall_forall _ _) Hcl).
      * by apply clean_prim.
      * unfold stored in Hv. by rewrite decide_False in Hv.
    + rewrite lookup_insert_ne in Hb by done. by eapply inv_items.
Qed.

(** A new object whose properties and elements are what they may be. *)
Lemma post_alloc o s :
  inv s ->
  (forall k v, fields o !! k = Some v -> stored s k v) ->
  (forall l, items o = Some l -> Forall (clean s) l) ->
  post (alloc o) s (fun a s' => clean s' (VRef a)).
Proof.
  intros Hi Hf Hit. unfold post, alloc.
  set (a := fresh (dom (heap s))).
  assert (Ha : heap s !! a = None) by (apply not_elem_of_dom, is_fresh).
  set (s' := State (<[a := o]> (heap s)) (leaves s) (trace s)).
  assert (Hal : a ∉ leaves s).
  { intros Hl. destruct (inv_leaf s Hi a Hl) as (o0 & Ho0 & _). congruence. }
  assert (He : ext s s').
  { split; [|done|done]. intros b Hb. simpl.
    destruct (decide (a = b)) as [<-|Hne]; [by rewrite lookup_insert_eq|].
    by rewrite lookup_insert_ne. }
  split; [|split; [done|]].
  - split.
    + intros p Hp. simpl in Hp. destruct (inv_leaf s Hi p Hp) as (o0 & Ho0 & H0).
      exists o0. simpl. rewrite lookup_insert_ne; [done|]. intros <-. congruence.
    + intros b ob k v Hb Hk. simpl in Hb. apply (stored_ext s s'); [done|].
      destruct (decide (a = b)) as [<-|Hne].
      * rewrite lookup_insert_eq in Hb. injection Hb as <-. by apply Hf.
      * rewrite lookup_insert_ne in Hb by done. by eapply inv_fields.
    + intros b ob l Hb Hl. simpl in Hb. apply (Forall_clean_ext s s'); [done|].
      destruct (decide (a = b)) as [<-|Hne].
      * rewrite lookup_insert_eq in Hb. injection Hb as <-. by apply Hit.
      * rewrite lookup_insert_ne in Hb by done. by eapply inv_items.
  - intros b [= <-]. simpl. by rewrite lookup_insert_eq.
Qed.

(** New elements for an array. *)
Lemma post_arr_update cs l s :
  inv s -> Forall (clean s) l -> post (arr_update cs l) s (fun _ _ => True).
Proof.
  intros Hi Hl. unfold post, arr_update.
  destruct cs as [| | | | | |a]; try (split; [done|apply ext_refl]).
  destruct (heap s !! a) as [o|] eqn:Ha; [|split; [done|apply ext_refl]].
  destruct (items o) as [l0|] eqn:Hl0; [|split; [done|apply ext_refl]].
  set (o' := Object (cname o) (fields o) (Some l) (callable o)).
  set (s' := State (<[a := o']> (heap s)) (leaves s) (trace s)).
  destruct (ext_same s s') as [He He'].
  { intros b. simpl. destruct (decide (a = b)) as [<-|Hne].
    - rewrite lookup_insert_eq, Ha. split; eauto.
    - by rewrite lookup_insert_ne. }
  { done. }
  split; [|split; [done|done]]. split.
  - intros p Hp. simpl in Hp. destruct (inv_leaf s Hi p Hp) as (o0 & Ho0 & Hit0 & H0).
    exists o0. simpl. rewrite lookup_insert_ne; [done|]. intros <-. congruence.
  - intros b ob k v Hb Hk. simpl in Hb. apply (stored_ext s s'); [done|].
    destruct (decide (a = b)) as [<-|Hne].
    + rewrite lookup_insert_eq in Hb. injection Hb as <-. by eapply inv_fields.
    + rewrite lookup_insert_ne in Hb by done. by eapply inv_fields.
  - intros b ob l' Hb Hl'. simpl in Hb. apply (Forall_clean_ext s s'); [done|].
    destruct (decide (a = b)) as [<-|Hne].
    + rewrite lookup_insert_eq in Hb. injection Hb as <-. simpl in Hl'. congruence.
    + rewrite lookup_insert_ne in Hb by done. by eapply inv_items.
Qed.

(** The last step of [createInstance]: a new placeholder around a clean
    resource. *)
Lemma post_wrap instance s :
  inv s ->
  clean s instance ->
  post (bind (alloc (plain {["current" := instance]}))
          (fun p s => Ok (VRef p) (State (heap s) ({[p]} ∪ leaves s) (trace s))))
       s (fun v s' => allocated s' v).
Proof.
  intros Hi Hc. unfold post, bind, alloc. simpl.
  set (p := fresh (dom (heap s))).
  assert (Hp : heap s !! p = None) by (apply not_elem_of_dom, is_fresh).
  set (s' := State (<[p := plain {["current" := instance]}]> (heap s))
               ({[p]} ∪ leaves s) (trace s)).
  assert (He : ext s s').
  { split.
    - intros b Hb. simpl. destruct (decide (p = b)) as [<-|Hne];
        [by rewrite lookup_insert_eq|by rewrite lookup_insert_ne].
    - intros q Hq. simpl. set_solver.
    - intros b [ob Hb] Hl. simpl in Hl. apply elem_of_union in Hl as [Hl|Hl]; [|done].
      apply elem_of_singleton in Hl as ->. congruence. }
  split; [|split; [done|]].
  - split.
    + intros q Hq. simpl in Hq. apply elem_of_union in Hq as [Hq|Hq].
      * apply elem_of_singleton in Hq as ->. exists (plain {["current" := instance]}).
        simpl. rewrite lookup_insert_eq. done.
      * destruct (inv_leaf s Hi q Hq) as (o0 & Ho0 & H0). exists o0. simpl.
        rewrite lookup_insert_ne; [done|]. intros <-. congruence.
    + intros b ob k v Hb Hk. simpl in Hb. apply (stored_ext s s'); [done|].
      destruct (decide (p = b)) as [<-|Hne].
      * rewrite lookup_insert_eq in Hb. injection Hb as <-. simpl in Hk.
        apply lookup_singleton_Some in Hk as [<- <-]. by apply clean_stored.
      * rewrite lookup_insert_ne in Hb by done. by eapply inv_fields.
    + intros b ob l Hb Hl. simpl in Hb. apply (Forall_clean_ext s s'); [done|].
      destruct (decide (p = b)) as [<-|Hne].
      * rewrite lookup_insert_eq in Hb. by injection Hb as <-.
      * rewrite lookup_insert_ne in Hb by done. by eapply inv_items.
  - intros b [= <-]. simpl. by rewrite lookup_insert_eq.
Qed.

(** *** The prop application engine keeps the invariant *)

Lemma resolve_last l k x s t :
  resolve (l ++ [k]) x s = Ok t s ->
  exists r, resolve l x s = Ok r s /\ t = field s r k.
Proof.
  rewrite PropsSpec.resolve_app. unfold bind.
  destruct (resolve l x s) as [r s1|s1] eqn:E; [|done].
  apply PropsSpec.resolve_state in E as E'. subst s1. simpl. unfold bind.
  destruct (getv r k s) as [v s2|] eqn:G; [|done].
  apply getv_state in G as [-> ->]. intros [= <-]. by exists r.
Qed.

Lemma resolve_pure l x s :
  match resolve l x s with Ok _ s' | Throw s' => s' = s end.
Proof.
  revert x. induction l as [|k l IH]; intros x; simpl; [done|].
  unfold bind. destruct (getv x k s) as [v s1|s1] eqn:G.
  - apply getv_state in G as [-> _]. apply IH.
  - by apply getv_throw in G as [-> _].
Qed.

Lemma settable_pure t s :
  match settable t s with Ok _ s' | Throw s' => s' = s end.
Proof.
  unfold settable. destruct (truthy t); [|done]. unfold bind.
  destruct (getv t "set" s) as [v s1|s1] eqn:G.
  - by apply getv_state in G as [-> _].
  - by apply getv_throw in G as [-> _].
Qed.

(** [locate] only reads, and the key it returns for a placeholder is not
    [isObject3D]. *)
Lemma locate_spec instance key s :
  inv s ->
  clean s instance ->
  match locate instance key s with
  | Ok r s' => s' = s /\
               (forall p, r.1.1 = VRef p -> p ∈ leaves s -> r.1.2 <> "isObject3D")
  | Throw s' => s' = s
  end.
Proof.
  intros Hi Hc.
  assert (Hinst : forall p, instance = VRef p -> p ∈ leaves s -> key <> "isObject3D").
  { intros p -> Hp. by destruct (Hc p eq_refl). }
  unfold locate. unfold bind at 1.
  destruct (getv instance key s) as [t0 s1|s1] eqn:G.
  2:{ by apply getv_throw in G as [-> _]. }
  apply getv_state in G as [-> _].
  destruct (Str.includes "-" key); [|done].
  unfold bind at 1. pose proof (resolve_pure (Str.split "-" key) instance s) as Hr.
  destruct (resolve (Str.split "-" key) instance s) as [t s1|s1] eqn:R; subst s1; [|done].
  unfold bind at 1. pose proof (settable_pure t s) as Hs.
  destruct (settable t s) as [st s1|s1]; subst s1; [|done].
  destruct (truthy t && negb st) eqn:Hcond; [|done].
  destruct (reverse (Str.split "-" key)) as [|name rest] eqn:Hrev; [done|].
  unfold bind. pose proof (resolve_pure (reverse rest) instance s) as Hr'.
  destruct (resolve (reverse rest) instance s) as [root s1|s1] eqn:R'; subst s1; [|done].
  simpl. split; [done|]. intros p -> Hp ->.
  assert (Hsplit : Str.split "-" key = reverse rest ++ ["isObject3D"]).
  { rewrite <- (reverse_involutive (Str.split "-" key)), Hrev.
    by rewrite reverse_cons. }
  rewrite Hsplit in R. apply resolve_last in R as (r & Hr2 & ->).
  rewrite R' in Hr2. injection Hr2 as <-.
  destruct (inv_leaf s Hi p Hp) as (o & Ho & _ & Hf).
  simpl in Hcond. rewrite Ho, Hf in Hcond. done.
Qed.

Lemma post_settable t s :
  inv s -> post (settable t) s (fun _ s' => s' = s).
Proof.
  intros Hi. unfold post. pose proof (settable_pure t s) as H.
  destruct (settable t s) as [st s1|s1]; subst s1.
  - split; [done|]. split; [apply ext_refl|done].
  - split; [done|apply ext_refl].
Qed.

Lemma post_assign root key target value s :
  inv s ->
  clean s value ->
  (forall p, root = VRef p -> p ∈ leaves s -> key <> "isObject3D") ->
  post (assign root key target value) s (fun _ _ => True).
Proof.
  intros Hi Hv Hsafe. unfold assign.
  eapply post_seq; [by apply post_settable|].
  intros st s1 _ _ ->. destruct st.
  2:{ eapply post_conseq; [apply post_setv; [done|by apply clean_stored|done]|done]. }
  eapply post_seq; [by apply post_gets|]. intros tn s1 _ _ [-> ->].
  eapply post_seq; [by apply post_gets|]. intros vn s1 _ _ [-> ->].
  destruct (ctor_name s target) as [tn|]; [|by apply post_throw].
  destruct (ctor_name s value) as [vn|]; [|by apply post_throw].
  destruct (String.eqb tn vn).
  - eapply post_seq; [by apply post_getv|]. intros copy s1 _ _ [-> ->].
    eapply post_conseq; [by apply post_callv|done].
  - eapply post_seq; [by apply post_gets|]. intros arr s1 _ _ [-> ->].
    eapply post_seq; [by apply post_getv|]. intros set s1 _ _ [-> ->].
    destruct (isArray s value).
    + eapply post_seq; [by apply post_arr_items|]. intros l s1 _ _ [-> _].
      eapply post_conseq; [by apply post_callv|done].
    + eapply post_conseq; [by apply post_callv|done].
Qed.

Lemma post_applyEntry instance kv s :
  inv s -> clean s instance -> clean s kv.2 ->
  post (applyEntry instance kv) s (fun _ _ => True).
Proof.
  intros Hi Hc Hv. unfold applyEntry. apply post_bind.
  pose proof (locate_spec instance kv.1 s Hi Hc) as H. unfold post at 1.
  destruct (locate instance kv.1 s) as [r s1|s1].
  - destruct H as [-> Hsafe]. split; [done|]. split; [apply ext_refl|].
    by apply post_assign.
  - subst s1. split; [done|apply ext_refl].
Qed.

Lemma post_forEach_entries instance (l : props) s :
  inv s -> clean s instance -> Forall (fun kv => clean s kv.2) l ->
  post (forEach (applyEntry instance) l) s (fun _ _ => True).
Proof.
  revert s. induction l as [|kv l IH]; intros s Hi Hc Hl; simpl.
  - by apply post_ret.
  - apply Forall_cons in Hl as [Hkv Hl].
    eapply post_seq; [by apply post_applyEntry|].
    intros _ s1 Hi1 He1 _. eapply post_conseq.
    + apply IH; [done|by eapply clean_ext|].
      eapply Forall_impl; [exact Hl|]. intros kv'. by apply clean_ext.
    + done.
Qed.

Lemma pget_clean s (p : props) k :
  Forall (fun kv => clean s kv.2) p -> clean s (pget p k).
Proof.
  induction 1 as [|[k' v] p Hv _ IH]; simpl; [by apply clean_prim|].
  by destruct (String.eqb k' k).
Qed.

Lemma handlerTable_clean s (p : props) hs k v :
  Forall (fun kv => clean s kv.2) p ->
  handlerTable p hs !! k = Some v -> clean s v.
Proof.
  intros Hp. unfold handlerTable.
  assert (forall acc : gmap string value,
             (forall k v, acc !! k = Some v -> clean s v) ->
             foldl (fun acc key => <[Str.handlerName key := pget p key]> acc) acc hs !! k
             = Some v -> clean s v) as H.
  { induction hs as [|h hs IH]; intros acc Hacc; simpl; [by apply Hacc|].
    apply IH. intros k' v' Hk'.
    destruct (decide (Str.handlerName h = k')) as [<-|Hne].
    - rewrite lookup_insert_eq in Hk'. injection Hk' as <-. by apply pget_clean.
    - rewrite lookup_insert_ne in Hk' by done. by eapply Hacc. }
  apply H. intros k' v'. by rewrite lookup_empty.
Qed.

Lemma post_rebuildHandlers instance (newProps : props) hs s :
  inv s -> Forall (fun kv => clean s kv.2) newProps ->
  post (rebuildHandlers instance newProps hs) s (fun _ _ => True).
Proof.
  intros Hi Hp. unfold rebuildHandlers.
  destruct (bool_decide (hs = [])); [by apply post_ret|].
  eapply post_seq.
  { apply post_alloc; [done| |done]. intros k v Hk. apply clean_stored.
    simpl in Hk. by eapply handlerTable_clean. }
  intros t s1 Hi1 He1 Ht.
  eapply post_seq.
  { apply post_setv; [done|by apply clean_stored|done]. }
  intros _ s2 Hi2 He2 _.
  eapply post_seq; [by apply post_getv|]. intros table s3 _ _ [-> ->].
  eapply post_seq; [by apply post_getv|]. intros update s3 _ _ [-> ->].
  destruct (truthy _).
  - eapply post_conseq; [by apply post_callv|done].
  - by apply post_ret.
Qed.

Lemma filteredProps_clean s0 s (newProps oldProps : props) :
  Forall (fun kv => clean s kv.2) newProps ->
  Forall (fun kv => clean s kv.2) (filteredProps s0 newProps oldProps).
Proof.
  intros H. unfold filteredProps, omit. apply Forall_forall. intros kv Hkv.
  apply list_elem_of_filter in Hkv as [_ Hkv]. revert kv Hkv. by apply Forall_forall.
Qed.

(** [applyProps] on a target that is no placeholder, with clean values. *)
Lemma post_applyProps instance (newProps oldProps : props) s :
  inv s -> clean s instance -> Forall (fun kv => clean s kv.2) newProps ->
  post (applyProps instance newProps oldProps) s (fun _ _ => True).
Proof.
  intros Hi Hc Hp. unfold applyProps.
  eapply post_seq; [by apply post_gets|]. intros hs s1 _ _ [-> ->].
  eapply post_seq; [by apply post_gets|]. intros fp s1 _ _ [-> ->].
  destruct (bool_decide _); [by apply post_ret|].
  eapply post_seq.
  { apply post_forEach_entries; [done|done|by apply filteredProps_clean]. }
  intros _ s1 Hi1 He1 _. eapply post_conseq.
  - apply post_rebuildHandlers; [done|].
    eapply Forall_impl; [exact Hp|]. intros kv. by apply clean_ext.
  - done.
Qed.

(** *** The adapter operations keep the invariant *)

(** What is assumed of the scene library's constructors: an object they
    build holds no reference other than those passed as arguments. *)
Definition registryClosed (THREE : registry) : Prop :=
  forall name ctor args k a,
    THREE name = Some ctor -> ctor args !! k = Some (VRef a) -> VRef a ∈ args.

Lemma omit_clean s (p : props) ks :
  Forall (fun kv => clean s kv.2) p -> Forall (fun kv => clean s kv.2) (omit p ks).
Proof.
  intros H. unfold omit. apply Forall_forall. intros kv Hkv.
  apply list_elem_of_filter in Hkv as [_ Hkv]. revert kv Hkv. by apply Forall_forall.
Qed.

Lemma post_dispatchEvent target type s :
  inv s -> post (dispatchEvent target type) s (fun _ _ => True).
Proof. intros Hi. by apply post_emit. Qed.

Lemma splice1_clean s l i : Forall (clean s) l -> Forall (clean s) (splice1 l i).
Proof.
  intros Hl. unfold splice1. apply Forall_app. split.
  - by apply Forall_take.
  - by apply Forall_drop.
Qed.

Lemma post_Object3D_remove this object s :
  inv s -> post (Object3D_remove this object) s (fun _ _ => True).
Proof.
  intros Hi. unfold Object3D_remove.
  eapply post_seq; [by apply post_getv|]. intros is3d s1 _ _ [-> ->].
  destruct (truthy _); [|by apply post_throw].
  eapply post_seq; [by apply post_getv|]. intros cs s1 _ _ [-> ->].
  eapply post_seq; [by apply post_arr_items|]. intros l s1 _ _ [-> Hl].
  destruct (_ =? _)%Z; [by apply post_ret|].
  eapply post_seq.
  { apply post_setv; [done|by apply clean_stored, clean_prim|done]. }
  intros _ s1 Hi1 He1 _.
  eapply post_seq; [by apply post_dispatchEvent|]. intros _ s2 Hi2 He2 _.
  eapply post_conseq; [|done]. apply post_arr_update; [done|].
  apply splice1_clean. apply (Forall_clean_ext s); [by eapply ext_trans|].
  by eapply elements_clean.
Qed.

Lemma post_Object3D_add this object s :
  inv s -> post (Object3D_add this object) s (fun _ _ => True).
Proof.
  intros Hi. unfold Object3D_add.
  eapply post_seq; [by apply post_getv|]. intros is3d s1 _ _ [-> ->].
  destruct (truthy (field s this "isObject3D")) eqn:Hthis; [|by apply post_throw].
  destruct (strict_eq object this); [by apply post_ret|].
  eapply post_seq.
  { instantiate (1 := fun c3d s' => s' = s /\
                        (truthy object && truthy c3d = true -> clean s object)).
    destruct (truthy object) eqn:Hobj.
    - eapply post_conseq; [by apply post_getv|]. intros v s' _ _ [-> ->].
      split; [done|]. simpl. by apply sceneNode_clean.
    - apply post_ret; [done|]. by split. }
  intros c3d s1 _ _ [-> Hobj].
  destruct (truthy object && truthy c3d); [|by apply post_ret].
  specialize (Hobj eq_refl).
  eapply post_seq; [by apply post_getv|]. intros old s1 _ _ [-> ->].
  eapply post_seq.
  { instantiate (1 := fun _ _ => True).
    destruct (strict_eq _ VNull); [by apply post_ret|].
    by apply post_Object3D_remove. }
  intros _ s1 Hi1 He1 _.
  eapply post_seq.
  { apply post_setv; [done| |done]. apply clean_stored.
    apply (clean_ext s); [done|]. by apply sceneNode_clean. }
  intros _ s2 Hi2 He2 _.
  eapply post_seq; [by apply post_dispatchEvent|]. intros _ s3 Hi3 He3 _.
  eapply post_seq; [by apply post_getv|]. intros cs s4 _ _ [-> ->].
  eapply post_seq; [by apply post_arr_items|]. intros l s4 _ _ [-> Hl].
  eapply post_conseq; [|done]. apply post_arr_update; [done|].
  apply Forall_app. split; [by eapply elements_clean|].
  constructor; [|done]. apply (clean_ext s); [|done].
  eapply ext_trans; [exact He1|]. by eapply ext_trans.
Qed.

Lemma post_spread v s :
  inv s -> post (spread v) s (fun l s' => s' = s /\ Forall (clean s) l).
Proof.
  intros Hi. unfold spread.
  assert (H : post (arr_items v) s (fun l s' => s' = s /\ Forall (clean s) l)).
  { eapply post_conseq; [by apply post_arr_items|].
    intros l s' _ _ [-> Hl]. split; [done|]. by eapply elements_clean. }
  destruct v; try done. apply post_ret; [done|]. split; [done|].
  apply Forall_fmap, Forall_forall. intros c _. by apply clean_prim.
Qed.

Section WithRegistry.

Variable THREE : registry.
Hypothesis THREE_closed : registryClosed THREE.

Lemma post_construct name args s :
  inv s -> Forall (clean s) args ->
  post (construct THREE name args) s (fun v s' => clean s' v).
Proof.
  intros Hi Hargs. unfold construct.
  destruct (THREE name) as [ctor|] eqn:Hctor; [|by apply post_throw].
  assert (Hfs : forall k v, ctor args !! k = Some v -> clean s v).
  { intros k v Hk. destruct v as [| | | | | |a]; try (by apply clean_prim).
    apply (proj1 (Forall_forall _ _) Hargs). by eapply THREE_closed. }
  eapply post_seq.
  { instantiate (1 := fun a s' => clean s' (VRef a)).
    destruct (truthy _).
    - eapply post_seq.
      { apply post_alloc; [done| |].
        - intros k v Hk. simpl in Hk. by rewrite lookup_empty in Hk.
        - intros l [= <-]. apply Forall_nil_2. }
      intros c s1 Hi1 He1 Hc. eapply post_conseq; [|intros ? ? _ _ H; exts; exact H].
      apply post_alloc; [done| |done]. intros k v Hk. simpl in Hk.
      destruct (decide (k = "children")) as [->|Hk1].
      { rewrite lookup_insert_eq in Hk. injection Hk as <-. by apply clean_stored. }
      rewrite lookup_insert_ne in Hk by done.
      destruct (decide (k = "parent")) as [->|Hk2].
      { rewrite lookup_insert_eq in Hk. injection Hk as <-.
        by apply clean_stored, clean_prim. }
      rewrite lookup_insert_ne in Hk by done.
      apply clean_stored, (clean_ext s); [done|]. by eapply Hfs.
    - apply post_alloc; [done| |done]. intros k v Hk. apply clean_stored.
      by eapply Hfs. }
  intros a s1 Hi1 He1 Ha.
  eapply post_seq; [by apply post_emit|]. intros _ s2 Hi2 He2 _.
  apply post_ret; [done|]. exts. apply (clean_ext s1 s2); [done|exact Ha].
Qed.

Lemma post_createInstance type (props0 : props) s :
  inv s -> Forall (fun kv => clean s kv.2) props0 ->
  post (createInstance THREE type props0) s (fun v s' => allocated s' v).
Proof.
  intros Hi Hp. unfold createInstance.
  pose proof (omit_clean s props0 ["args"] Hp) as Hp'.
  eapply post_seq.
  { instantiate (1 := fun v s' => clean s' v).
    destruct (strict_eq type (VStr "primitive")).
    - apply post_ret; [done|]. by apply pget_clean.
    - eapply post_seq.
      { instantiate (1 := fun l s' => s' = s /\ Forall (clean s) l).
        unfold argsOf. destruct (pget props0 "args") eqn:Hargs;
          try (by rewrite <- Hargs; apply post_spread).
        apply post_ret; [done|]. by split. }
      intros args s1 _ _ [-> Hargs].
      eapply post_conseq; [by apply post_construct|].
      intros ? ? _ _ H; exts; exact H. }
  intros instance s1 Hi1 He1 Hinst.
  eapply post_seq.
  { apply post_applyProps; [done|done|].
    eapply Forall_impl; [exact Hp'|]. intros kv. by apply clean_ext. }
  intros _ s2 Hi2 He2 _.
  eapply post_seq; [by apply post_getv|]. intros is3d s3 _ _ [-> ->].
  pose proof (clean_ext s1 s2 instance He2 Hinst) as Hinst2.
  destruct (truthy _).
  - apply post_ret; [done|]. exts. by apply clean_allocated.
  - eapply post_conseq; [by apply post_wrap|]. intros ? ? _ _ H. exts. exact H.
Qed.

Lemma post_appendChild parentInstance child s :
  inv s -> allocated s parentInstance ->
  post (appendChild parentInstance child) s (fun _ _ => True).
Proof.
  intros Hi Hpar. unfold appendChild.
  destruct (truthy child); [|by apply post_ret].
  eapply post_seq; [by apply post_getv|]. intros is3d s1 _ _ [-> ->].
  destruct (truthy _).
  { eapply post_conseq; [by apply post_Object3D_add|done]. }
  eapply post_seq; [by apply post_getv|]. intros current s1 _ _ [-> ->].
  eapply post_seq; [by apply post_getv|]. intros name s1 _ _ [-> ->].
  destruct (truthy _); [|by apply post_ret].
  eapply post_seq.
  { apply post_setv; [done| |done]. unfold stored. by rewrite decide_True. }
  intros _ s1 Hi1 He1 _.
  eapply post_seq; [by apply post_getv|]. intros p3d s2 _ _ [-> ->].
  eapply post_seq.
  { instantiate (1 := fun root s' => s' = s1 /\ clean s1 root).
    destruct (truthy (field s1 parentInstance "isObject3D")) eqn:H3d.
    - apply post_ret; [done|]. split; [done|]. by apply sceneNode_clean.
    - eapply post_conseq; [by apply post_getv|]. intros v s' _ _ [-> ->].
      split; [done|]. by apply field_clean. }
  intros root s2 _ _ [-> Hroot].
  eapply post_seq; [by apply post_getv|]. intros current' s2 _ _ [-> ->].
  eapply post_seq; [by apply post_getv|]. intros name' s2 _ _ [-> ->].
  eapply post_conseq; [|done]. apply post_applyProps; [done|done|].
  constructor; [|done]. by apply field_clean.
Qed.

Lemma post_removeChild parentInstance child s :
  inv s -> post (removeChild parentInstance child) s (fun _ _ => True).
Proof.
  intros Hi. unfold removeChild.
  destruct (truthy child); [|by apply post_ret].
  eapply post_seq; [by apply post_getv|]. intros is3d s1 _ _ [-> ->].
  destruct (truthy _).
  - eapply post_conseq; [by apply post_Object3D_remove|done].
  - eapply post_conseq; [|done].
    apply post_setv; [done|by apply clean_stored, clean_prim|done].
Qed.

Lemma slice_clean s l a b : Forall (clean s) l -> Forall (clean s) (slice l a b).
Proof. intros Hl. unfold slice. by apply Forall_take, Forall_drop. Qed.

Lemma post_insertBefore parentInstance child beforeChild s :
  inv s -> allocated s parentInstance ->
  post (insertBefore parentInstance child beforeChild) s (fun _ _ => True).
Proof.
  intros Hi Hpar. unfold insertBefore.
  destruct (truthy child); [|by apply post_ret].
  eapply post_seq; [by apply post_getv|]. intros is3d s1 _ _ [-> ->].
  destruct (truthy (field s child "isObject3D")) eqn:H3d.
  2:{ eapply post_conseq; [|done].
      apply post_setv; [done| |done]. unfold stored. by rewrite decide_True. }
  pose proof (sceneNode_clean s child Hi H3d) as Hchild.
  eapply post_seq.
  { apply post_setv; [done| |done]. unfold stored. by rewrite decide_True. }
  intros _ s1 Hi1 He1 _.
  eapply post_seq; [by apply post_dispatchEvent|]. intros _ s2 Hi2 He2 _.
  eapply post_seq; [by apply post_getv|]. intros cs s3 _ _ [-> ->].
  eapply post_seq; [by apply post_arr_items|]. intros l s3 _ _ [-> Hl].
  pose proof (elements_clean s2 _ l Hi2 Hl) as Hcl.
  eapply post_seq.
  { apply post_alloc; [done|done|]. intros l' [= <-].
    apply Forall_app. split; [by apply slice_clean|]. constructor.
    - apply (clean_ext s); [by eapply ext_trans|done].
    - by apply slice_clean. }
  intros a s3 Hi3 He3 Ha. eapply post_conseq; [|done].
  apply post_setv; [done|by apply clean_stored|done].
Qed.

Lemma post_someDiffers argsNew argsOld i s :
  inv s -> post (someDiffers argsNew argsOld i) s (fun _ s' => s' = s).
Proof.
  intros Hi. revert i. induction argsNew as [|v r IH]; intros i; simpl.
  - by apply post_ret.
  - eapply post_seq.
    { instantiate (1 := fun _ s' => s' = s). destruct argsOld.
      - eapply post_conseq; [by apply post_getv|]. by intros ? ? _ _ [-> _].
      - by apply post_ret. }
    intros old s1 _ _ ->. destruct (negb _).
    + by apply post_ret.
    + eapply post_conseq; [apply IH|]. intros ? ? _ _ H; exts; exact H.
Qed.

Lemma post_commitUpdate instance (oldProps newProps : props) s :
  inv s -> Forall (fun kv => clean s kv.2) newProps ->
  post (commitUpdate THREE instance oldProps newProps) s (fun _ _ => True).
Proof.
  intros Hi Hp. unfold commitUpdate.
  eapply post_seq; [by apply post_getv|]. intros is3d s1 _ _ [-> ->].
  destruct (truthy (field s instance "isObject3D")) eqn:H3d.
  { eapply post_conseq; [|done].
    apply post_applyProps; [done|by apply sceneNode_clean|done]. }
  eapply post_seq; [by apply post_getv|]. intros parent s1 _ _ [-> ->].
  eapply post_seq.
  { instantiate (1 := fun _ s' => s' = s).
    destruct (argsOf newProps).
    - eapply post_conseq; [by apply post_arr_items|]. by intros ? ? _ _ [-> _].
    - by apply post_ret. }
  intros argsNew s1 _ _ ->.
  eapply post_seq; [by apply post_someDiffers|]. intros changed s1 _ _ ->.
  destruct changed.
  - eapply post_seq; [by apply post_getv|]. intros current s1 _ _ [-> ->].
    eapply post_seq; [by apply post_getv|]. intros type s1 _ _ [-> ->].
    eapply post_seq; [by apply post_createInstance|].
    intros newInstance s1 Hi1 He1 Hnew.
    eapply post_seq; [by apply post_removeChild|]. intros _ s2 Hi2 He2 _.
    eapply post_seq.
    { apply post_appendChild; [done|].
      apply (allocated_ext s); [by eapply ext_trans|]. by apply field_allocated. }
    intros _ s3 Hi3 He3 _.
    eapply post_seq; [by apply post_getv|]. intros c s4 _ _ [-> ->].
    eapply post_seq.
    { apply post_setv; [done| |done]. apply clean_stored. by apply field_clean. }
    intros _ s4 Hi4 He4 _.
    eapply post_seq; [by apply post_getv|]. intros p s5 _ _ [-> ->].
    eapply post_conseq; [|done]. apply post_setv; [done| |done].
    unfold stored. rewrite decide_True by done. by apply field_allocated.
  - eapply post_seq; [by apply post_getv|]. intros current s1 _ _ [-> ->].
    eapply post_conseq; [|done].
    apply post_applyProps; [done|by apply field_clean|by apply omit_clean].
Qed.

End WithRegistry.

(** *** Sequences of operations *)

(** The operations the diff engine calls. *)
Inductive op :=
| CreateInstance (type : value) (props0 : props)
| AppendChild (parentInstance child : value)
| RemoveChild (parentInstance child : value)
| InsertBefore (parentInstance child beforeChild : value)
| CommitUpdate (instance : value) (oldProps newProps : props).

Definition perform (THREE : registry) (o : op) : M unit :=
  match o with
  | CreateInstance type props0 => createInstance THREE type props0 >>> ret tt
  | AppendChild parentInstance child => appendChild parentInstance child
  | RemoveChild parentInstance child => removeChild parentInstance child
  | InsertBefore parentInstance child beforeChild =>
      insertBefore parentInstance child beforeChild
  | CommitUpdate instance oldProps newProps =>
      commitUpdate THREE instance oldProps newProps
  end.

(** The state an operation ends in, whether it returns or throws. *)
Definition final {A} (r : result A) : state :=
  match r with Ok _ s | Throw s => s end.

Fixpoint run (THREE : registry) (ops : list op) (s : state) : state :=
  match ops with
  | [] => s
  | o :: r => run THREE r (final (perform THREE o s))
  end.

(** An operation is admissible in a state when the prop values it brings
    (construction arguments included, through the array that holds them) are
    clean there, and the parent it names is not a dangling reference. *)
Definition admissible (s : state) (o : op) : Prop :=
  match o with
  | CreateInstance _ props0 => Forall (fun kv => clean s kv.2) props0
  | AppendChild parentInstance _ => allocated s parentInstance
  | RemoveChild _ _ => True
  | InsertBefore parentInstance _ _ => allocated s parentInstance
  | CommitUpdate _ _ newProps => Forall (fun kv => clean s kv.2) newProps
  end.

Fixpoint admissibleRun (THREE : registry) (ops : list op) (s : state) : Prop :=
  match ops with
  | [] => True
  | o :: r => admissible s o /\ admissibleRun THREE r (final (perform THREE o s))
  end.

(** A state to start from: no placeholder yet, and no dangling reference. *)
Definition initial (s : state) : Prop :=
  leaves s = ∅ /\
  forall a o, heap s !! a = Some o ->
    (forall k v, fields o !! k = Some v -> allocated s v) /\
    (forall l, items o = Some l -> Forall (allocated s) l).

Lemma initial_inv s : initial s -> inv s.
Proof.
  intros [Hl Hc].
  assert (Hcl : forall v, allocated s v -> clean s v).
  { intros v Hv a ->. split; [by apply Hv|]. rewrite Hl. set_solver. }
  split.
  - intros p Hp. rewrite Hl in Hp. set_solver.
  - intros a o k v Ha Hk. apply clean_stored, Hcl. by eapply (Hc a o Ha).
  - intros a o l Ha Hit. eapply Forall_impl; [by eapply (Hc a o Ha)|]. done.
Qed.

Lemma post_final {A} (m : M A) s Q : post m s Q -> inv (final (m s)) /\ ext s (final (m s)).
Proof. unfold post. destruct (m s); simpl; tauto. Qed.

Lemma perform_inv THREE o s :
  registryClosed THREE -> inv s -> admissible s o ->
  inv (final (perform THREE o s)).
Proof.
  intros Hreg Hi Ha. destruct o; simpl in *.
  - eapply (post_final _ _ (fun _ _ => True)). eapply post_seq.
    + by apply post_createInstance.
    + intros. by apply post_ret.
  - eapply post_final. by apply post_appendChild.
  - eapply post_final. by apply post_removeChild.
  - eapply post_final. by apply post_insertBefore.
  - eapply post_final. by apply post_commitUpdate.
Qed.

Lemma run_inv THREE ops s :
  registryClosed THREE -> inv s -> admissibleRun THREE ops s ->
  inv (run THREE ops s).
Proof.
  intros Hreg. revert s. induction ops as [|o ops IH]; intros s Hi Ha; [done|].
  destruct Ha as [Ho Ha]. simpl. apply IH; [|done]. by apply perform_inv.
Qed.


(** A registry with two spatial classes and one that is not. *)
Definition demoTHREE : registry := fun name =>
  if String.eqb name "Scene" then Some (fun _ => {["isObject3D" := VBool true]})
  else if String.eqb name "Mesh" then Some (fun _ => {["isObject3D" := VBool true]})
  else if String.eqb name "BoxGeometry"
       then Some (fun _ => {["type" := VStr "BoxGeometry"]})
       else None.

Lemma demoTHREE_closed : registryClosed demoTHREE.
Proof.
  intros name ctor args k a. unfold demoTHREE.
  repeat (destruct (String.eqb name _); [intros [= <-] Hk;
            by apply lookup_singleton_Some in Hk as [_ ?]|]).
  done.
Qed.

(** Two argument arrays, [0] holding 1 and 2 and [1] holding 3. *)
Definition start : state :=
  State (<[0 := array [VNum 1; VNum 2]]> (<[1 := array [VNum 3]]> ∅)) ∅ [].

Lemma start_initial : initial start.
Proof.
  split; [done|]. intros a o Ha. simpl in Ha.
  apply lookup_insert_Some in Ha as [[_ <-]|[_ Ha]];
    [|apply lookup_insert_Some in Ha as [[_ <-]|[_ Ha]]; [|done]].
  - split; [done|]. intros l [= <-]. by repeat constructor.
  - split; [done|]. intros l [= <-]. by repeat constructor.
Qed.

(** A scene [3], a mesh [5] and another mesh [11] as its children, and a box
    geometry behind the placeholder [7], named "geometry", appended to the
    mesh [5], inserted before nothing, and re-created with new arguments. *)
Definition session : list op :=
  [ CreateInstance (VStr "scene") [];
    CreateInstance (VStr "mesh") [];
    CreateInstance (VStr "boxGeometry") [("args", VRef 0); ("name", VStr "geometry")];
    AppendChild (VRef 5) (VRef 7);
    AppendChild (VRef 3) (VRef 5);
    InsertBefore (VRef 5) (VRef 7) VNull;
    CommitUpdate (VRef 7) [("args", VRef 0); ("name", VStr "geometry")]
                          [("args", VRef 1); ("name", VStr "geometry")];
    CreateInstance (VStr "mesh") [];
    InsertBefore (VRef 3) (VRef 11) (VRef 5) ].

Ltac clean_now :=
  intros ? [= <-]; split;
  [ vm_compute; eauto
  | apply (bool_decide_unpack _); vm_compute; exact I ].

Lemma session_admissible : admissibleRun demoTHREE session start.
Proof.
  unfold session. cbn [admissibleRun admissible].
  repeat match goal with
         | |- _ /\ _ => split
         | |- True => exact I
         | |- Forall _ [] => apply Forall_nil_2
         | |- Forall _ (_ :: _) => apply Forall_cons_2; [cbn [snd]|]
         | |- clean _ (VStr _) => by apply clean_prim
         | |- clean _ (VRef _) => clean_now
         | |- allocated _ (VRef _) => intros ? [= <-]; vm_compute; eauto
         end.
Qed.



End AdapterInv.

(* --------------------------------------------------------------------- *)
(** ** The prop application engine: further properties *)
(* --------------------------------------------------------------------- *)

Module PropsMore.
Import Js Props Heap HeapWrites PropsSpec.

(** The state after the fields of the object [o] at address [a] have become
    [fs]. *)
Definition written (s : state) (a : addr) (o : object) (fs : gmap string value)
  : state :=
  State (<[a := Object (cname o) fs (items o) (callable o)]> (heap s))
        (leaves s) (trace s).

(** The value a prop key denotes on [x] (lines 31-34): for a dashed key the
    end of its path. *)
Definition targetOf (key : string) (x : value) : M value :=
  if Str.includes "-" key then resolve (Str.split "-" key) x else getv x key.

(** A value that line 42 never takes for a target with a [set] method, seen
    from the object at [a]: a primitive, or another object without [set]. *)
Definition atomic (s : state) (a : addr) (t : value) : Prop :=
  match t with
  | VRef b => b <> a /\ truthy (field s t "set") = false
  | _ => True
  end.

Lemma written_id s a o : heap s !! a = Some o -> written s a o (fields o) = s.
Proof.
  intros H. destruct s as [h lv tr], o as [cn fs it cl]. unfold written. simpl in *.
  by rewrite insert_id.
Qed.

Lemma uint_of_string_dash key :
  Str.includes "-" key = true -> NilEmpty.uint_of_string key = None.
Proof.
  induction key as [|c r IH]; simpl; [done|].
  destruct (Ascii.eqb c "-") eqn:E; simpl.
  - apply Ascii.eqb_eq in E as ->. intros _.
    by destruct (NilEmpty.uint_of_string r).
  - intros H. by rewrite (IH H).
Qed.

(** A dashed key is neither "length" nor an array index. *)
Lemma includes_dash_named key : Str.includes "-" key = true -> named key.
Proof.
  intros H. split.
  - apply String.eqb_neq. intros ->. by vm_compute in H.
  - unfold Str.parseIndex. by rewrite (uint_of_string_dash _ H).
Qed.

Lemma truthy_nullish v : truthy v = true -> nullish v = false.
Proof. by destruct v. Qed.

Lemma settable_eval t s :
  settable t s = Ok (truthy t && truthy (field s t "set")) s.
Proof.
  unfold settable. destruct (truthy t) eqn:E; [|done].
  by rewrite (bind_Ok _ _ _ _ _ (getv_field s t "set" (truthy_nullish _ E))).
Qed.

(** Without a settable target, lines 42-50 are the assignment of line 50. *)
Lemma assign_plain root key t v s :
  truthy t && truthy (field s t "set") = false ->
  assign root key t v s = setv root key v s.
Proof.
  intros H. unfold assign.
  by rewrite (bind_Ok _ _ _ _ _ (settable_eval t s)), H.
Qed.

Lemma locate_plain x key s :
  nullish x = false -> Str.includes "-" key = false ->
  locate x key s = Ok (x, key, field s x key) s.
Proof.
  intros Hx Hk. unfold locate.
  by rewrite (bind_Ok _ _ _ _ _ (getv_field s x key Hx)), Hk.
Qed.

Lemma applyEntry_plain x key v s :
  nullish x = false -> Str.includes "-" key = false ->
  truthy (field s x key) && truthy (field s (field s x key) "set") = false ->
  applyEntry x (key, v) s = setv x key v s.
Proof.
  intros Hx Hk Ht. unfold applyEntry.
  rewrite (bind_Ok _ _ _ _ _ (locate_plain x key s Hx Hk)). simpl.
  by apply assign_plain.
Qed.

Lemma atomic_not_settable s a t :
  atomic s a t -> truthy t && truthy (field s t "set") = false.
Proof.
  destruct t; simpl; try done; try (intros _; apply andb_false_r).
  intros [_ ->]. done.
Qed.

Lemma atomic_written s a o fs t : atomic s a t -> atomic (written s a o fs) a t.
Proof.
  destruct t as [| | | | | |b]; try done. intros [Hne H]. split; [done|].
  simpl in *. by rewrite lookup_insert_ne.
Qed.

(** A run of plain assignments on one object: the fields are inserted in the
    order of the entries. *)
Lemma forEach_assign a (l : props) : forall s o,
  heap s !! a = Some o ->
  NoDup l.*1 ->
  Forall (fun kv => Str.includes "-" kv.1 = false /\ named kv.1 /\
                    atomic s a (obj_get o kv.1)) l ->
  forEach (applyEntry (VRef a)) l s
  = Ok tt (written s a o (foldl (fun fs kv => <[kv.1 := kv.2]> fs) (fields o) l)).
Proof.
  induction l as [|[k v] l IH]; intros s o Ha Hnd Hall.
  - simpl. by rewrite written_id.
  - apply NoDup_cons in Hnd as [Hk Hnd].
    apply Forall_cons in Hall as [(Hdash & Hnamed & Hat) Hall]. simpl in *.
    assert (Hstep : applyEntry (VRef a) (k, v) s
                    = Ok tt (written s a o (<[k := v]> (fields o)))).
    { rewrite applyEntry_plain; [by apply setv_named|done|done|].
      simpl. rewrite Ha. by apply atomic_not_settable with a. }
    rewrite (bind_Ok _ _ _ _ _ Hstep).
    set (o1 := Object (cname o) (<[k := v]> (fields o)) (items o) (callable o)).
    rewrite (IH (written s a o (<[k := v]> (fields o))) o1).
    + unfold written. simpl. by rewrite insert_insert_eq.
    + simpl. by rewrite lookup_insert_eq.
    + done.
    + apply Forall_forall. intros [k' v'] Hin.
      pose proof (proj1 (Forall_forall _ _) Hall _ Hin) as (H1 & H2 & H3).
      simpl in *. split; [done|]. split; [done|].
      assert (k' <> k).
      { intros ->. apply Hk. apply list_elem_of_fmap. by exists (k, v'). }
      rewrite (obj_get_named o1 _ H2). simpl. rewrite lookup_insert_ne by done.
      rewrite <- (obj_get_named o _ H2). by apply atomic_written.
Qed.

Lemma filteredProps_NoDup s newProps oldProps :
  NoDup (keys newProps) -> NoDup (keys (filteredProps s newProps oldProps)).
Proof.
  intros H. apply (sublist_NoDup _ (keys newProps)); [done|].
  unfold keys, filteredProps, omit. apply fmap_sublist, sublist_filter.
Qed.

(** X1.  Props that change, with plain keys, on an object whose current
    values under these keys are atomic: every prop is assigned, in the order
    of [newProps]; no other object changes and nothing is called. *)
Theorem applyProps_assigns s a o newProps oldProps :
  heap s !! a = Some o ->
  NoDup (keys newProps) ->
  handlers s newProps = [] ->
  Forall (fun kv => Str.includes "-" kv.1 = false /\ named kv.1 /\
                    atomic s a (obj_get o kv.1))
         (filteredProps s newProps oldProps) ->
  applyProps (VRef a) newProps oldProps s
  = Ok tt (written s a o
             (foldl (fun fs kv => <[kv.1 := kv.2]> fs) (fields o)
                    (filteredProps s newProps oldProps))).
Proof.
  intros Ha Hnd Hhs Hall.
  pose proof (forEach_assign a _ s o Ha (filteredProps_NoDup s _ oldProps Hnd) Hall)
    as Hrun.
  unfold applyProps, gets. unfold bind at 1 2. rewrite Hhs.
  destruct (filteredProps s newProps oldProps) as [|kv fp] eqn:Hfp.
  - simpl. simpl in Hrun. by injection Hrun as <-.
  - rewrite bool_decide_eq_false_2 by done.
    by rewrite (bind_Ok _ _ _ _ _ Hrun).
Qed.

(** When one prop is left after filtering and no handler is given,
    [applyProps] is the body of its loop on that prop. *)
Lemma applyProps_one s x newProps oldProps kv :
  filteredProps s newProps oldProps = [kv] ->
  handlers s newProps = [] ->
  applyProps x newProps oldProps s = applyEntry x kv s.
Proof.
  intros Hfp Hhs. unfold applyProps, gets. unfold bind at 1 2.
  rewrite Hfp, Hhs. rewrite bool_decide_eq_false_2 by done.
  simpl. unfold bind. by destruct (applyEntry x kv s) as [[] s1|s1].
Qed.

Lemma targetOf_locate x key s t :
  nullish x = false ->
  targetOf key x s = Ok t s ->
  truthy t && negb (truthy t && truthy (field s t "set")) = false ->
  locate x key s = Ok (x, key, t) s.
Proof.
  intros Hx Ht Hre. unfold locate, targetOf in *.
  rewrite (bind_Ok _ _ _ _ _ (getv_field s x key Hx)).
  destruct (Str.includes "-" key).
  - rewrite (bind_Ok _ _ _ _ _ Ht), (bind_Ok _ _ _ _ _ (settable_eval t s)).
    by rewrite Hre.
  - rewrite (getv_field s x key Hx) in Ht. by injection Ht as <-.
Qed.

(** X2.  A dashed key whose path ends in a truthy value without [set]: the
    assignment goes to the last segment on the object the path leads to, be
    it an array; the target object itself is not written. *)
Theorem applyProps_dashed_reroots s x newProps oldProps key v path name c o o' :
  filteredProps s newProps oldProps = [(key, v)] ->
  handlers s newProps = [] ->
  nullish x = false ->
  Str.includes "-" key = true ->
  Str.split "-" key = path ++ [name] ->
  resolve path x s = Ok (VRef c) s ->
  heap s !! c = Some o ->
  truthy (obj_get o name) = true ->
  truthy (field s (obj_get o name) "set") = false ->
  obj_set o name v = Some o' ->
  applyProps x newProps oldProps s
  = Ok tt (State (<[c := o']> (heap s)) (leaves s) (trace s)).
Proof.
  intros Hfp Hhs Hx Hdash Hsplit Hpath Hc Ht Hset Ho'.
  rewrite (applyProps_one s x _ _ _ Hfp Hhs).
  assert (Htarget : resolve (path ++ [name]) x s = Ok (obj_get o name) s).
  { rewrite resolve_app, (bind_Ok _ _ _ _ _ Hpath). simpl.
    unfold bind, getv. by rewrite Hc. }
  assert (Hloc : locate x key s = Ok (VRef c, name, obj_get o name) s).
  { unfold locate.
    rewrite (bind_Ok _ _ _ _ _ (getv_field s x key Hx)), Hdash, Hsplit.
    rewrite (bind_Ok _ _ _ _ _ Htarget).
    rewrite (bind_Ok _ _ _ _ _ (settable_eval _ s)), Ht, Hset. simpl.
    rewrite reverse_snoc, reverse_involutive.
    by rewrite (bind_Ok _ _ _ _ _ Hpath). }
  unfold applyEntry. rewrite (bind_Ok _ _ _ _ _ Hloc). simpl.
  rewrite assign_plain by (by rewrite Ht, Hset).
  unfold setv. by rewrite Hc, Ho'.
Qed.

(** X3.  A dashed key whose path ends in a falsy value (0, the empty string,
    [undefined], ...): the value is assigned to a property of the target
    that is named by the whole dashed key; the path's objects do not
    change. *)
Theorem applyProps_dashed_falsy_target s a o newProps oldProps key v t :
  filteredProps s newProps oldProps = [(key, v)] ->
  handlers s newProps = [] ->
  heap s !! a = Some o ->
  Str.includes "-" key = true ->
  resolve (Str.split "-" key) (VRef a) s = Ok t s ->
  truthy t = false ->
  applyProps (VRef a) newProps oldProps s
  = Ok tt (written s a o (<[key := v]> (fields o))).
Proof.
  intros Hfp Hhs Ha Hdash Hres Ht.
  rewrite (applyProps_one s _ _ _ _ Hfp Hhs). unfold applyEntry.
  rewrite (bind_Ok _ _ _ _ _ (targetOf_locate (VRef a) key s t eq_refl
             ltac:(unfold targetOf; by rewrite Hdash) ltac:(by rewrite Ht))).
  simpl. rewrite assign_plain by (by rewrite Ht).
  by apply setv_named; [apply includes_dash_named|].
Qed.

Lemma callv_function f this args s :
  is_function s f = true ->
  callv f this args s
  = Ok tt (State (heap s) (leaves s) (trace s ++ [Invoke f this args])).
Proof. intros H. unfold callv, bind, gets. by rewrite H. Qed.

(** X4.  A key that denotes a value with a [set] method: nothing is
    assigned; the value is handed to one method of the target, [copy] when
    both have the same constructor name, else [set], with the elements of an
    array spread. *)
Theorem applyProps_settable_target s x newProps oldProps key v t tn vn :
  filteredProps s newProps oldProps = [(key, v)] ->
  handlers s newProps = [] ->
  nullish x = false ->
  targetOf key x s = Ok t s ->
  truthy t = true ->
  truthy (field s t "set") = true ->
  ctor_name s t = Some tn ->
  ctor_name s v = Some vn ->
  let method := if String.eqb tn vn then field s t "copy" else field s t "set" in
  let args := if String.eqb tn vn then [v]
              else match elements s v with Some l => l | None => [v] end in
  is_function s method = true ->
  applyProps x newProps oldProps s
  = Ok tt (State (heap s) (leaves s) (trace s ++ [Invoke method t args])).
Proof.
  intros Hfp Hhs Hx Htgt Ht Hset Htn Hvn method args Hfn.
  rewrite (applyProps_one s x _ _ _ Hfp Hhs). unfold applyEntry.
  rewrite (bind_Ok _ _ _ _ _ (targetOf_locate x key s t Hx Htgt
             ltac:(by rewrite Ht, Hset))).
  simpl. unfold assign.
  rewrite (bind_Ok _ _ _ _ _ (settable_eval t s)), Ht, Hset. simpl.
  unfold gets. unfold bind at 1 2. rewrite Htn, Hvn.
  pose proof (truthy_nullish _ Ht) as Hnt.
  subst method args. destruct (String.eqb tn vn).
  - rewrite (bind_Ok _ _ _ _ _ (getv_field s t "copy" Hnt)).
    by apply callv_function.
  - unfold bind at 1.
    rewrite (bind_Ok _ _ _ _ _ (getv_field s t "set" Hnt)).
    destruct v as [| | | | | |b]; simpl in *; try by apply callv_function.
    destruct (heap s !! b) as [ob|] eqn:Hb; simpl.
    + destruct (items ob) as [l|] eqn:Hl; simpl.
      * unfold arr_items. unfold bind at 1. rewrite Hb, Hl.
        by apply callv_function.
      * by apply callv_function.
    + by apply callv_function.
Qed.

(** X5.  [null] or [undefined] for a key that denotes a value with a [set]
    method: reading the constructor of the value throws, and nothing has
    been written or called. *)
Theorem applyProps_settable_nullish_value s x newProps oldProps key v t :
  filteredProps s newProps oldProps = [(key, v)] ->
  handlers s newProps = [] ->
  nullish x = false ->
  targetOf key x s = Ok t s ->
  truthy t = true ->
  truthy (field s t "set") = true ->
  nullish v = true ->
  applyProps x newProps oldProps s = Throw s.
Proof.
  intros Hfp Hhs Hx Htgt Ht Hset Hv.
  rewrite (applyProps_one s x _ _ _ Hfp Hhs). unfold applyEntry.
  rewrite (bind_Ok _ _ _ _ _ (targetOf_locate x key s t Hx Htgt
             ltac:(by rewrite Ht, Hset))).
  simpl. unfold assign.
  rewrite (bind_Ok _ _ _ _ _ (settable_eval t s)), Ht, Hset. simpl.
  unfold gets. unfold bind at 1 2.
  destruct (ctor_name s t); destruct v; done.
Qed.

(** X6.  Props that are each unchanged, a handler, or one of the reserved
    keys: nothing is read from the target, written or called, whatever the
    target is. *)
Theorem applyProps_skips_filtered s x newProps oldProps :
  (forall key, key ∈ keys newProps ->
     strict_eq (pget newProps key) (pget oldProps key) = true \/
     is_function s (pget newProps key) && Str.startsWith key "on" = true \/
     key ∈ ["children"; "key"; "ref"]) ->
  applyProps x newProps oldProps s = Ok tt s.
Proof.
  intros H. apply applyProps_skip, omit_all. intros key Hk.
  rewrite !elem_of_app. destruct (H key Hk) as [Hs|[Hh|Hr]].
  - left. by apply list_elem_of_filter.
  - right. left. by apply list_elem_of_filter.
  - by right; right.
Qed.

Lemma is_function_grows h lv tr a o fs t tbl f :
  h !! a = Some o -> h !! t = None ->
  is_function (State h lv tr) f = true ->
  is_function
    (State (<[a := Object (cname o) fs (items o) (callable o)]>
              (<[t := plain tbl]> h)) lv tr) f = true.
Proof.
  intros Ha Ht. destruct f as [| | | | | |u]; try done. simpl.
  destruct (h !! u) as [ou|] eqn:Hu; [|done]. intros Hc.
  destruct (decide (a = u)) as [->|Hau].
  - rewrite lookup_insert_eq. simpl. congruence.
  - rewrite lookup_insert_ne by done.
    rewrite lookup_insert_ne by congruence. by rewrite Hu.
Qed.

(** X7.  When some prop is applied and [newProps] holds handlers, the target
    gets a new handler table, built from the handlers of [newProps] alone,
    and the [update] handler, if there is one, is called on that table with
    the target as its argument, after all props have been applied. *)
Theorem applyProps_rebuilds_table s a o1 s1 newProps oldProps :
  filteredProps s newProps oldProps <> [] ->
  forEach (applyEntry (VRef a)) (filteredProps s newProps oldProps) s = Ok tt s1 ->
  heap s1 !! a = Some o1 ->
  handlers s newProps <> [] ->
  let tbl := handlerTable newProps (handlers s newProps) in
  let t := fresh (dom (heap s1)) in
  let update := default VUndef (tbl !! "update") in
  (truthy update = true -> is_function s1 update = true) ->
  applyProps (VRef a) newProps oldProps s
  = Ok tt (State (<[a := Object (cname o1) (<["__handlers" := VRef t]> (fields o1))
                          (items o1) (callable o1)]>
                    (<[t := plain tbl]> (heap s1)))
                 (leaves s1)
                 (trace s1 ++ if truthy update
                              then [Invoke update (VRef t) [VRef a]] else [])).
Proof.
  intros Hfp Hrun Ha Hhs tbl t update Hupd.
  unfold applyProps, gets. unfold bind at 1 2.
  rewrite bool_decide_eq_false_2
    by (by destruct (filteredProps s newProps oldProps)).
  rewrite (bind_Ok _ _ _ _ _ Hrun). unfold rebuildHandlers.
  rewrite bool_decide_eq_false_2 by done.
  unfold alloc at 1. unfold bind at 1. fold tbl t.
  destruct s1 as [h lv tr]. simpl in *.
  assert (Hfresh : h !! t = None) by apply not_elem_of_dom, is_fresh.
  assert (Hat : a <> t) by congruence.
  assert (Ha2 : <[t := plain tbl]> h !! a = Some o1) by (by rewrite lookup_insert_ne).
  rewrite (bind_Ok _ _ _ _ _
             (setv_named (State _ lv tr) a o1 "__handlers" (VRef t)
                named_handlers Ha2)).
  simpl heap. simpl leaves. simpl trace.
  rewrite (bind_Ok _ _ _ _ _ (getv_field _ (VRef a) "__handlers" eq_refl)).
  rewrite (field_set_named_eq _ _ _ _ _ _ _ named_handlers).
  rewrite (bind_Ok _ _ _ _ _ (getv_field _ (VRef t) "update" eq_refl)).
  assert (Hu : field (State (<[a := Object (cname o1)
                                      (<["__handlers" := VRef t]> (fields o1))
                                      (items o1) (callable o1)]>
                               (<[t := plain tbl]> h)) lv tr) (VRef t) "update"
               = update).
  { simpl. rewrite lookup_insert_ne by done. by rewrite lookup_insert_eq. }
  rewrite Hu. destruct (truthy update) eqn:Htr.
  - rewrite callv_function; [done|]. apply is_function_grows; auto.
  - unfold ret. by rewrite app_nil_r.
Qed.

(** X8.  The handler table of lines 54-57 holds, under a name, the value of
    the last handler prop with that name, and holds nothing under a name that
    no handler prop of [newProps] has. *)
Theorem handlerTable_last newProps hs n :
  handlerTable newProps hs !! n
  = pget newProps <$> last (filter (fun k => Str.handlerName k = n) hs).
Proof.
  unfold handlerTable. induction hs as [|k hs IH] using rev_ind; [done|].
  rewrite foldl_snoc, filter_app.
  destruct (decide (Str.handlerName k = n)) as [<-|Hne].
  - rewrite lookup_insert_eq. rewrite filter_cons_True by done.
    by rewrite filter_nil, last_snoc.
  - rewrite lookup_insert_ne by done. rewrite filter_cons_False by done.
    by rewrite filter_nil, app_nil_r.
Qed.

(** A mesh [0] with a position vector [1] at (0, 5), whose methods [set]
    and [copy] are the functions [2] and [3]; user data [4] without methods;
    a second vector [5]; the array [6]; two handlers [7] and [8]. *)
Definition demoMesh : state :=
  State (<[0 := Object "Mesh"
                  (<["position" := VRef 1]> (<["visible" := VBool false]>
                   {["userData" := VRef 4]})) None false]>
        (<[1 := Object "Vector3"
                  (<["x" := VNum 0]> (<["y" := VNum 5]>
                   (<["set" := VRef 2]> {["copy" := VRef 3]}))) None false]>
        (<[2 := function ∅]> (<[3 := function ∅]>
        (<[4 := plain {["count" := VNum 1]}]>
        (<[5 := Object "Vector3" (<["x" := VNum 7]> {["y" := VNum 8]}) None false]>
        (<[6 := array [VNum 1; VNum 2; VNum 3]]>
        (<[7 := function ∅]> (<[8 := function ∅]> ∅)))))))))
        ∅ [].

(** [applyProps_assigns] on the mesh: [visible] changes, [name] is new, the
    user data are replaced by a number, [key] is reserved. *)
Lemma applyProps_assigns_witness :
  exists s',
    applyProps (VRef 0)
      [("visible", VBool true); ("name", VStr "box"); ("key", VStr "k");
       ("userData", VNum 3)]
      [("visible", VBool false)] demoMesh = Ok tt s' /\
    field s' (VRef 0) "visible" = VBool true /\
    field s' (VRef 0) "name" = VStr "box" /\
    field s' (VRef 0) "userData" = VNum 3 /\
    field s' (VRef 0) "key" = VUndef.
Proof.
  eexists. split.
  - eapply (applyProps_assigns demoMesh 0).
    + vm_compute. reflexivity.
    + refine (bool_decide_unpack _ _). vm_compute. exact I.
    + vm_compute. reflexivity.
    + vm_compute. repeat (constructor; [repeat split; discriminate|]). constructor.
  - vm_compute. done.
Defined.

(** [applyProps_dashed_reroots] on the mesh: "position-y", where [y] is 5. *)
Lemma applyProps_dashed_reroots_witness :
  exists s',
    applyProps (VRef 0) [("position-y", VNum 9)] [] demoMesh = Ok tt s' /\
    field s' (VRef 1) "y" = VNum 9 /\
    field s' (VRef 0) "position-y" = VUndef /\
    field s' (VRef 0) "position" = VRef 1.
Proof.
  eexists. split.
  - eapply (applyProps_dashed_reroots demoMesh (VRef 0) _ _ "position-y" (VNum 9)
             ["position"] "y" 1); vm_compute; reflexivity.
  - vm_compute. done.
Defined.

(** [applyProps_dashed_falsy_target] on the mesh: "position-x", where [x]
    is 0. *)
Lemma applyProps_dashed_falsy_target_witness :
  exists s',
    applyProps (VRef 0) [("position-x", VNum 9)] [] demoMesh = Ok tt s' /\
    field s' (VRef 1) "x" = VNum 0 /\
    field s' (VRef 0) "position-x" = VNum 9.
Proof.
  eexists. split.
  - eapply (applyProps_dashed_falsy_target demoMesh 0 _ _ _ "position-x" (VNum 9)
             (VNum 0)); vm_compute; reflexivity.
  - vm_compute. done.
Defined.

(** [applyProps_settable_target] on the mesh: an array for [position] is
    spread into [set], a vector is handed to [copy]. *)
Lemma applyProps_settable_target_witness :
  applyProps (VRef 0) [("position", VRef 6)] [] demoMesh
  = Ok tt (State (heap demoMesh) ∅
             [Invoke (VRef 2) (VRef 1) [VNum 1; VNum 2; VNum 3]]) /\
  applyProps (VRef 0) [("position", VRef 5)] [] demoMesh
  = Ok tt (State (heap demoMesh) ∅ [Invoke (VRef 3) (VRef 1) [VRef 5]]).
Proof.
  split.
  - apply (applyProps_settable_target demoMesh (VRef 0) _ _ "position" (VRef 6)
             (VRef 1) "Vector3" "Array"); vm_compute; reflexivity.
  - apply (applyProps_settable_target demoMesh (VRef 0) _ _ "position" (VRef 5)
             (VRef 1) "Vector3" "Vector3"); vm_compute; reflexivity.
Defined.

(** [applyProps_settable_nullish_value] on the mesh: [null] for
    [position]. *)
Lemma applyProps_settable_nullish_value_witness :
  applyProps (VRef 0) [("position", VNull)] [] demoMesh = Throw demoMesh.
Proof.
  apply (applyProps_settable_nullish_value demoMesh (VRef 0) _ _ "position" VNull
           (VRef 1)); vm_compute; reflexivity.
Defined.

(** [applyProps_skips_filtered] on no target at all: an unchanged prop, a
    new handler and the three reserved keys. *)
Lemma applyProps_skips_filtered_witness :
  applyProps VUndef
    [("visible", VBool true); ("onClick", VRef 7); ("children", VRef 6);
     ("key", VStr "k"); ("ref", VRef 8)]
    [("visible", VBool true)] demoMesh = Ok tt demoMesh.
Proof.
  apply (applyProps_skips_filtered demoMesh VUndef).
  intros key Hk.
  repeat (apply elem_of_cons in Hk as [->|Hk];
          [first [ left; vm_compute; reflexivity
                 | right; left; vm_compute; reflexivity
                 | right; right; set_solver ]|]).
  by apply elem_of_nil in Hk.
Defined.

(** [applyProps_rebuilds_table] on the mesh: [visible] changes, and the
    table holds the two handlers under "click" and "update". *)
Lemma applyProps_rebuilds_table_witness :
  exists s',
    applyProps (VRef 0)
      [("visible", VBool true); ("onClick", VRef 7); ("onUpdate", VRef 8)]
      [("onClick", VRef 7); ("onUpdate", VRef 8)] demoMesh = Ok tt s' /\
    field s' (VRef 0) "__handlers" = VRef 9 /\
    field s' (VRef 9) "click" = VRef 7 /\
    field s' (VRef 9) "update" = VRef 8 /\
    trace s' = [Invoke (VRef 8) (VRef 9) [VRef 0]].
Proof.
  eexists. split.
  - eapply (applyProps_rebuilds_table demoMesh 0).
    + vm_compute. discriminate.
    + vm_compute. reflexivity.
    + vm_compute. reflexivity.
    + vm_compute. discriminate.
    + vm_compute. reflexivity.
  - vm_compute. done.
Defined.

End PropsMore.

(* --------------------------------------------------------------------- *)
(** ** The reconciliation adapter: further properties *)
(* --------------------------------------------------------------------- *)

Module AdapterMore.
Import Js Props Adapter Heap HeapWrites PropsSpec AdapterSpec PropsMore.

(** *** [insertBefore] *)

Lemma indexOf_from_missing l x i :
  Forall (fun y => strict_eq y x = false) l -> indexOf_from i l x = (-1)%Z.
Proof.
  intros H. revert i. induction H as [|y l Hy _ IH]; intros i; simpl; [done|].
  by rewrite Hy.
Qed.

(** The two slices of lines 111 and 113 cut the list at one place. *)
Lemma slices_cut (l : list value) (z : Z) :
  slice l 0 z = take (clamp (Z.of_nat (length l)) z) l /\
  slice_from l z = drop (clamp (Z.of_nat (length l)) z) l.
Proof.
  unfold slice_from, slice.
  set (len := Z.of_nat (length l)). set (n := clamp len z).
  assert (Hlen : (0 <= len)%Z) by (unfold len; lia).
  assert (clamp len 0 = 0) as ->.
  { unfold clamp. simpl. by rewrite Z.min_l by lia. }
  assert (clamp len len = length l) as ->.
  { unfold clamp. destruct (len <? 0)%Z eqn:E; [lia|].
    rewrite Z.min_id. apply Nat2Z.id. }
  split.
  - by rewrite Nat.sub_0_r.
  - apply take_ge. rewrite length_drop. lia.
Qed.

(** Lines 103-114 on a spatial child, for any child list and any reference
    child: where the new child goes, and what else changes. *)
Lemma insertBefore_result s parentInstance child beforeChild l :
  childList s parentInstance = Some l ->
  sceneNode s child ->
  let n := clamp (Z.of_nat (length l)) (indexOf l beforeChild) in
  exists s',
    insertBefore parentInstance child beforeChild s = Ok tt s' /\
    childList s' parentInstance = Some (take n l ++ child :: drop n l) /\
    field s' child "parent" = parentInstance /\
    trace s' = trace s ++ [Dispatch child "added"] /\
    (forall q lq, q <> parentInstance -> childList s q = Some lq ->
                  childList s' q = Some lq).
Proof.
  intros Hcs Hchild n.
  destruct (field_truthy_alloc _ _ _ Hchild) as (x & xo & -> & Hx).
  unfold childList in Hcs.
  destruct (field s parentInstance "children") as [| | | | | |c] eqn:Hc; try done.
  assert (exists pa po, parentInstance = VRef pa /\ heap s !! pa = Some po)
    as (pa & po & -> & Hpa).
  { apply (field_truthy_alloc s _ "children"). by rewrite Hc. }
  destruct s as [h lv tr]. simpl in Hx, Hpa.
  set (h1 := <[x := Object (cname xo) (<["parent" := VRef pa]> (fields xo))
                      (items xo) (callable xo)]> h).
  set (tr1 := tr ++ [Dispatch (VRef x) "added"]).
  set (a := fresh (dom h1)).
  set (l' := take n l ++ VRef x :: drop n l).
  assert (Hc1 : field (State h1 lv tr1) (VRef pa) "children" = VRef c).
  { rewrite <- Hc. apply (field_set_named_ne h lv tr1 x xo "parent"); done. }
  assert (He1 : elements (State h1 lv tr1) (VRef c) = Some l).
  { rewrite <- Hcs. apply (elements_set_named h lv tr1 x xo "parent"); done. }
  assert (Hfresh : h1 !! a = None).
  { apply not_elem_of_dom. apply is_fresh. }
  assert (exists po1, h1 !! pa = Some po1) as [po1 Hpo1].
  { unfold h1. destruct (decide (x = pa)) as [->|Hne].
    - rewrite lookup_insert_eq. eauto.
    - rewrite lookup_insert_ne by done. eauto. }
  assert (Hapa : a <> pa) by (intros Heq; rewrite Heq in Hfresh; congruence).
  assert (Hpo2 : <[a := array l']> h1 !! pa = Some po1)
    by (by rewrite lookup_insert_ne).
  assert (Hax : a <> x).
  { intros Heq. rewrite Heq in Hfresh. unfold h1 in Hfresh.
    by rewrite lookup_insert_eq in Hfresh. }
  exists (State (<[pa := Object (cname po1) (<["children" := VRef a]> (fields po1))
                          (items po1) (callable po1)]> (<[a := array l']> h1)) lv tr1).
  split; [|split; [|split; [|split]]].
  - unfold insertBefore. change (truthy (VRef x)) with true. cbv iota.
    rewrite (bind_Ok _ _ _ _ _ (getv_field _ (VRef x) "isObject3D" eq_refl)).
    unfold sceneNode in Hchild. rewrite Hchild.
    rewrite (bind_Ok _ _ _ _ _ (setv_named (State h lv tr) _ _ _ _ named_parent Hx)).
    unfold dispatchEvent, emit at 1. unfold bind at 1.
    simpl heap. simpl leaves. simpl trace. fold h1 tr1.
    rewrite (bind_Ok _ _ _ _ _ (getv_field _ (VRef pa) "children" eq_refl)), Hc1.
    rewrite (bind_Ok _ _ _ _ _ (arr_items_elements _ _ _ He1)).
    destruct (slices_cut l (indexOf l beforeChild)) as [-> ->]. fold n.
    unfold alloc at 1. unfold bind at 1. simpl heap. simpl leaves. simpl trace.
    change (take n l ++ [VRef x] ++ drop n l) with l'. fold a.
    by rewrite (setv_named (State _ lv tr1) _ _ _ _ named_children Hpo2).
  - unfold childList. rewrite (field_set_named_eq _ _ _ _ _ _ _ named_children).
    simpl. rewrite lookup_insert_ne, lookup_insert_eq by done. done.
  - destruct (decide (x = pa)) as [->|Hne].
    + rewrite (field_set_named_ne _ lv tr1 pa po1 "children") by done.
      simpl. rewrite Hpo2. unfold h1 in Hpo1. rewrite lookup_insert_eq in Hpo1.
      injection Hpo1 as <-. rewrite (obj_get_named _ _ named_parent). simpl.
      by rewrite lookup_insert_eq.
    + simpl. rewrite lookup_insert_ne by done.
      rewrite lookup_insert_ne by done. unfold h1. rewrite lookup_insert_eq.
      rewrite (obj_get_named _ _ named_parent). simpl. by rewrite lookup_insert_eq.
  - done.
  - intros q lq Hq Hlq. unfold childList in *.
    destruct (field (State h lv tr) q "children") as [| | | | | |cq] eqn:Hcq; try done.
    destruct (field_truthy_alloc (State h lv tr) q "children") as (qa & qo & -> & Hqa);
      [by rewrite Hcq|]. simpl in Hqa.
    assert (Hqpa : pa <> qa) by congruence.
    assert (Hqa_a : a <> qa).
    { intros <-. unfold h1 in Hfresh. destruct (decide (x = a)) as [<-|Hxa].
      - by rewrite lookup_insert_eq in Hfresh.
      - rewrite lookup_insert_ne in Hfresh by done. congruence. }
    assert (Hf : field (State (<[pa := Object (cname po1)
                                        (<["children" := VRef a]> (fields po1))
                                        (items po1) (callable po1)]>
                                 (<[a := array l']> h1)) lv tr1) (VRef qa) "children"
                 = VRef cq).
    { simpl. rewrite lookup_insert_ne by done. rewrite lookup_insert_ne by done.
      rewrite <- Hcq.
      apply (field_set_named_ne h lv tr1 x xo "parent" (VRef pa) (VRef qa) "children");
        done. }
    rewrite Hf. simpl in Hlq. simpl.
    destruct (h !! cq) as [qco|] eqn:Hcqo; [|done]. simpl in Hlq.
    assert (Hcq_a : a <> cq).
    { intros <-. unfold h1 in Hfresh. destruct (decide (x = a)) as [<-|Hxa].
      - by rewrite lookup_insert_eq in Hfresh.
      - rewrite lookup_insert_ne in Hfresh by done. congruence. }
    destruct (decide (pa = cq)) as [<-|Hpc].
    + rewrite lookup_insert_eq. simpl.
      unfold h1 in Hpo1. destruct (decide (x = pa)) as [->|Hxp].
      * rewrite lookup_insert_eq in Hpo1. injection Hpo1 as <-. simpl.
        congruence.
      * rewrite lookup_insert_ne in Hpo1 by done. congruence.
    + rewrite lookup_insert_ne by done. rewrite lookup_insert_ne by done.
      unfold h1. destruct (decide (x = cq)) as [->|Hxc].
      * rewrite lookup_insert_eq. simpl. congruence.
      * rewrite lookup_insert_ne by done. by rewrite Hcqo.
Qed.

(** X9.  A reference child that is not in the child list (among them
    [undefined] and [NaN]): the new child goes before the last child, and
    into an empty list as its only element. *)
Theorem insertBefore_reference_missing s parentInstance child beforeChild l :
  childList s parentInstance = Some l ->
  sceneNode s child ->
  Forall (fun x => strict_eq x beforeChild = false) l ->
  exists s',
    insertBefore parentInstance child beforeChild s = Ok tt s' /\
    childList s' parentInstance
    = Some (take (length l - 1) l ++ child :: drop (length l - 1) l).
Proof.
  intros Hcs Hchild Hmiss.
  destruct (insertBefore_result s parentInstance child beforeChild l Hcs Hchild)
    as (s' & Hrun & Hl' & _).
  exists s'. split; [done|]. rewrite Hl'.
  unfold indexOf. rewrite (indexOf_from_missing _ _ _ Hmiss).
  assert (clamp (Z.of_nat (length l)) (-1) = length l - 1) as ->; [|done].
  unfold clamp. simpl. lia.
Qed.

(** X10.  Whatever the reference child, the new list is the old one with
    the child put in at one place: no element leaves the list, so a child
    that was in it is in it twice. *)
Theorem insertBefore_adds_one s parentInstance child beforeChild l :
  childList s parentInstance = Some l ->
  sceneNode s child ->
  exists s' pre post,
    insertBefore parentInstance child beforeChild s = Ok tt s' /\
    l = pre ++ post /\
    childList s' parentInstance = Some (pre ++ child :: post).
Proof.
  intros Hcs Hchild.
  destruct (insertBefore_result s parentInstance child beforeChild l Hcs Hchild)
    as (s' & Hrun & Hl' & _).
  eexists s', _, _. split; [done|]. split; [|exact Hl'].
  by rewrite take_drop.
Qed.

(** X11.  The child lists of all other nodes stay as they are: a child that
    is moved to a new parent gets the new parent as its [parent], and remains
    in the child list of the old one. *)
Theorem insertBefore_keeps_old_parent s parentInstance child beforeChild l q lq :
  childList s parentInstance = Some l ->
  sceneNode s child ->
  q <> parentInstance ->
  childList s q = Some lq ->
  exists s',
    insertBefore parentInstance child beforeChild s = Ok tt s' /\
    childList s' q = Some lq /\
    field s' child "parent" = parentInstance.
Proof.
  intros Hcs Hchild Hq Hlq.
  destruct (insertBefore_result s parentInstance child beforeChild l Hcs Hchild)
    as (s' & Hrun & _ & Hp & _ & Hothers).
  exists s'. split; [done|]. split; [by apply Hothers|done].
Qed.

(** *** Placeholders on their way in and out *)

Lemma filteredProps_single s k v :
  strict_eq v VUndef = false ->
  is_function s v && Str.startsWith k "on" = false ->
  k ∉ ["children"; "key"; "ref"] ->
  filteredProps s [(k, v)] [] = [(k, v)] /\ handlers s [(k, v)] = [].
Proof.
  intros Hv Hh Hr.
  assert (Hs : sameProps [(k, v)] [] = []).
  { unfold sameProps, keys. rewrite fmap_cons, fmap_nil.
    rewrite filter_cons_False; [done|]. simpl. rewrite String.eqb_refl. congruence. }
  assert (Hhs : handlers s [(k, v)] = []).
  { unfold handlers, keys. rewrite fmap_cons, fmap_nil.
    rewrite filter_cons_False; [done|]. simpl. rewrite String.eqb_refl. congruence. }
  split; [|done]. unfold filteredProps, omit. rewrite Hs, Hhs.
  by rewrite filter_cons_True.
Qed.

Lemma field_ref s a o k : heap s !! a = Some o -> field s (VRef a) k = obj_get o k.
Proof. intros H. simpl. by rewrite H. Qed.

Lemma field_written_other s a o fs x k :
  x <> VRef a -> field (written s a o fs) x k = field s x k.
Proof.
  intros Hx. destruct x as [| | | | | |b]; try done. simpl.
  rewrite lookup_insert_ne; [done|congruence].
Qed.

Lemma field_written_ne s a o k0 v x k :
  heap s !! a = Some o -> named k0 -> k <> k0 ->
  field (written s a o (<[k0 := v]> (fields o))) x k = field s x k.
Proof.
  intros Ha Hk0 Hne. destruct s as [h lv tr].
  by apply (field_set_named_ne h lv tr a o k0 v x k).
Qed.

Lemma field_written_eq s a o k v :
  named k -> field (written s a o (<[k := v]> (fields o))) (VRef a) k = v.
Proof. intros Hk. destruct s as [h lv tr]. by apply field_set_named_eq. Qed.

(** A write leaves every other property of every object as it was. *)
Lemma field_written_frame s a o k0 v x k :
  heap s !! a = Some o -> named k0 -> (x, k) <> (VRef a, k0) ->
  field (written s a o (<[k0 := v]> (fields o))) x k = field s x k.
Proof.
  intros Ha Hk0 Hne. destruct (decide (k = k0)) as [->|Hk].
  - apply field_written_other. congruence.
  - by apply field_written_ne.
Qed.

(** Lines 84-89 on a child that is not spatial. *)
Lemma removeChild_leaf s parentInstance c co :
  heap s !! c = Some co ->
  truthy (obj_get co "isObject3D") = false ->
  removeChild parentInstance (VRef c) s
  = Ok tt (written s c co (<["parent" := VUndef]> (fields co))).
Proof.
  intros Hc H3d. unfold removeChild. change (truthy (VRef c)) with true. cbv iota.
  rewrite (bind_Ok _ _ _ _ _ (getv_field s (VRef c) "isObject3D" eq_refl)).
  rewrite (field_ref _ _ _ _ Hc), H3d. by apply setv_named.
Qed.

(** Lines 72-82 on a placeholder whose resource has a name, under a spatial
    parent. *)
Lemma appendChild_leaf_run s p po c co r ro n :
  heap s !! p = Some po -> truthy (obj_get po "isObject3D") = true ->
  heap s !! c = Some co -> truthy (obj_get co "isObject3D") = false ->
  obj_get co "current" = VRef r -> heap s !! r = Some ro ->
  obj_get ro "name" = VStr n -> n <> "" ->
  c <> p -> c <> r ->
  Str.includes "-" n = false -> named n -> n ∉ ["children"; "key"; "ref"] ->
  callable ro && Str.startsWith n "on" = false ->
  atomic s p (obj_get po n) ->
  appendChild (VRef p) (VRef c) s
  = Ok tt (written (written s c co (<["parent" := VRef p]> (fields co)))
             p po (<[n := VRef r]> (fields po))).
Proof.
  intros Hp Hp3d Hc Hc3d Hcur Hr Hname Hn Hcp Hcr Hdash Hnamed Hres Hfn Hat.
  assert (Htn : truthy (VStr n) = true).
  { simpl. apply negb_true_iff, String.eqb_neq. done. }
  unfold appendChild. change (truthy (VRef c)) with true. cbv iota.
  rewrite (bind_Ok _ _ _ _ _ (getv_field s (VRef c) "isObject3D" eq_refl)).
  rewrite (field_ref _ _ _ _ Hc), Hc3d.
  rewrite (bind_Ok _ _ _ _ _ (getv_field s (VRef c) "current" eq_refl)).
  rewrite (field_ref _ _ _ _ Hc), Hcur.
  rewrite (bind_Ok _ _ _ _ _ (getv_field s (VRef r) "name" eq_refl)).
  rewrite (field_ref _ _ _ _ Hr), Hname, Htn.
  rewrite (bind_Ok _ _ _ _ _ (setv_named s c co "parent" (VRef p) named_parent Hc)).
  fold (written s c co (<["parent" := VRef p]> (fields co))).
  set (s1 := written s c co (<["parent" := VRef p]> (fields co))).
  assert (Hp1 : heap s1 !! p = Some po) by (simpl; by rewrite lookup_insert_ne).
  assert (Hr1 : heap s1 !! r = Some ro) by (simpl; by rewrite lookup_insert_ne).
  assert (Hc1 : heap s1 !! c
                = Some (Object (cname co) (<["parent" := VRef p]> (fields co))
                          (items co) (callable co)))
    by (simpl; by rewrite lookup_insert_eq).
  rewrite (bind_Ok _ _ _ _ _ (getv_field s1 (VRef p) "isObject3D" eq_refl)).
  rewrite (field_ref _ _ _ _ Hp1), Hp3d. unfold ret at 1. unfold bind at 1.
  rewrite (bind_Ok _ _ _ _ _ (getv_field s1 (VRef c) "current" eq_refl)).
  assert (Hcur1 : field s1 (VRef c) "current" = VRef r).
  { destruct s as [h lv tr]. unfold s1, written. simpl heap. simpl leaves. simpl trace.
    rewrite (field_set_named_ne h lv tr c co "parent" (VRef p) (VRef c) "current")
      by done.
    simpl. simpl in Hc. by rewrite Hc. }
  rewrite Hcur1.
  rewrite (bind_Ok _ _ _ _ _ (getv_field s1 (VRef r) "name" eq_refl)).
  rewrite (field_ref _ _ _ _ Hr1), Hname. simpl to_key.
  assert (Hfn1 : is_function s1 (VRef r) && Str.startsWith n "on" = false).
  { simpl. by rewrite lookup_insert_ne, Hr. }
  destruct (filteredProps_single s1 n (VRef r) eq_refl Hfn1 Hres) as [Hfp Hhs].
  rewrite (applyProps_one s1 (VRef p) _ _ _ Hfp Hhs).
  rewrite applyEntry_plain; [by apply setv_named|done|done|].
  rewrite (field_ref _ _ _ _ Hp1).
  assert (Hat1 : atomic s1 p (obj_get po n)).
  { destruct (obj_get po n) as [| | | | | |b] eqn:Hb; try done.
    destruct Hat as [Hbp Hset]. split; [done|].
    destruct s as [h lv tr]. unfold s1, written. simpl heap. simpl leaves. simpl trace.
    by rewrite (field_set_named_ne h lv tr c co "parent" (VRef p) (VRef b) "set"). }
  by apply atomic_not_settable with p.
Qed.

(** X12.  [appendChild] of a placeholder whose resource has a name, to a
    spatial parent: the placeholder gets the parent as its [parent] and the
    parent gets the resource under that name; nothing else is written and
    nothing is called. *)
Theorem appendChild_named_leaf s p po c co r ro n :
  heap s !! p = Some po -> truthy (obj_get po "isObject3D") = true ->
  heap s !! c = Some co -> truthy (obj_get co "isObject3D") = false ->
  obj_get co "current" = VRef r -> heap s !! r = Some ro ->
  obj_get ro "name" = VStr n -> n <> "" ->
  c <> p -> c <> r ->
  Str.includes "-" n = false -> named n -> n ∉ ["children"; "key"; "ref"] ->
  callable ro && Str.startsWith n "on" = false ->
  atomic s p (obj_get po n) ->
  exists s',
    appendChild (VRef p) (VRef c) s = Ok tt s' /\
    field s' (VRef c) "parent" = VRef p /\
    field s' (VRef p) n = VRef r /\
    (forall x k, (x, k) <> (VRef c, "parent") -> (x, k) <> (VRef p, n) ->
                 field s' x k = field s x k) /\
    trace s' = trace s /\ leaves s' = leaves s.
Proof.
  intros Hp Hp3d Hc Hc3d Hcur Hr Hname Hn Hcp Hcr Hdash Hnamed Hres Hfn Hat.
  eexists. split; [by eapply appendChild_leaf_run|].
  set (s1 := written s c co (<["parent" := VRef p]> (fields co))).
  assert (Hp1 : heap s1 !! p = Some po) by (simpl; by rewrite lookup_insert_ne).
  split; [|split; [|split; [|done]]].
  - rewrite field_written_frame by (done || congruence).
    by apply field_written_eq.
  - by apply field_written_eq.
  - intros x k Hxc Hxp. rewrite field_written_frame by done.
    by apply field_written_frame.
Qed.

(** X13.  [removeChild] after [appendChild], on such a placeholder: the
    placeholder loses its [parent]; the resource stays where [appendChild]
    put it on the parent. *)
Theorem removeChild_leaf_keeps_resource s p po c co r ro n :
  heap s !! p = Some po -> truthy (obj_get po "isObject3D") = true ->
  heap s !! c = Some co -> truthy (obj_get co "isObject3D") = false ->
  obj_get co "current" = VRef r -> heap s !! r = Some ro ->
  obj_get ro "name" = VStr n -> n <> "" ->
  c <> p -> c <> r ->
  Str.includes "-" n = false -> named n -> n ∉ ["children"; "key"; "ref"] ->
  callable ro && Str.startsWith n "on" = false ->
  atomic s p (obj_get po n) ->
  exists s1 s2,
    appendChild (VRef p) (VRef c) s = Ok tt s1 /\
    removeChild (VRef p) (VRef c) s1 = Ok tt s2 /\
    field s2 (VRef c) "parent" = VUndef /\
    field s2 (VRef p) n = VRef r.
Proof.
  intros Hp Hp3d Hc Hc3d Hcur Hr Hname Hn Hcp Hcr Hdash Hnamed Hres Hfn Hat.
  eexists _, _. split; [by eapply appendChild_leaf_run|].
  set (s1 := written s c co (<["parent" := VRef p]> (fields co))).
  set (s2 := written s1 p po (<[n := VRef r]> (fields po))).
  set (co1 := Object (cname co) (<["parent" := VRef p]> (fields co))
                (items co) (callable co)).
  assert (Hp1 : heap s1 !! p = Some po) by (simpl; by rewrite lookup_insert_ne).
  assert (Hc2 : heap s2 !! c = Some co1).
  { simpl. rewrite lookup_insert_ne by done. by rewrite lookup_insert_eq. }
  assert (H3d : truthy (obj_get co1 "isObject3D") = false).
  { assert (obj_get co1 "isObject3D" = obj_get co "isObject3D") as ->; [|done].
    rewrite <- (field_ref s1 c co1 "isObject3D") by (simpl; by rewrite lookup_insert_eq).
    rewrite <- (field_ref s c co "isObject3D") by done.
    by apply field_written_ne. }
  split; [exact (removeChild_leaf s2 (VRef p) c co1 Hc2 H3d)|]. split.
  - by apply field_written_eq.
  - rewrite field_written_frame by (done || congruence).
    by apply field_written_eq.
Qed.

(** X14.  [insertBefore] of a child that is not spatial writes its [parent]
    and nothing else: unlike [appendChild] it does not hand the resource to
    the parent, named or not. *)
Theorem insertBefore_leaf_not_attached s parentInstance beforeChild c co :
  heap s !! c = Some co ->
  truthy (obj_get co "isObject3D") = false ->
  exists s',
    insertBefore parentInstance (VRef c) beforeChild s = Ok tt s' /\
    field s' (VRef c) "parent" = parentInstance /\
    (forall x k, (x, k) <> (VRef c, "parent") -> field s' x k = field s x k) /\
    trace s' = trace s.
Proof.
  intros Hc H3d. exists (written s c co (<["parent" := parentInstance]> (fields co))).
  split; [|split; [|split; [|done]]].
  - unfold insertBefore. change (truthy (VRef c)) with true. cbv iota.
    rewrite (bind_Ok _ _ _ _ _ (getv_field s (VRef c) "isObject3D" eq_refl)).
    rewrite (field_ref _ _ _ _ Hc), H3d. by apply setv_named.
  - by apply field_written_eq.
  - intros x k Hne. by apply field_written_frame.
Qed.

(** A mesh [0], a placeholder [1] around the geometry [2], which is named
    "geometry". *)
Definition demoNamed : state :=
  State (<[0 := Object "Mesh" {["isObject3D" := VBool true]} None false]>
        (<[1 := plain {["current" := VRef 2]}]>
        (<[2 := Object "BoxGeometry" {["name" := VStr "geometry"]} None false]> ∅)))
        {[1]} [].

Ltac demo_hyps :=
  first [ reflexivity | discriminate | vm_compute; reflexivity
        | vm_compute; discriminate | by vm_compute
        | let H := fresh in
          intros H; repeat (apply elem_of_cons in H as [H|H]; [discriminate|]);
          by apply elem_of_nil in H ].

(** [insertBefore_reference_missing] on the scene [0] with children
    [2; 3; 4]: node [5] before [undefined]. *)
Lemma insertBefore_reference_missing_witness :
  exists s',
    insertBefore (VRef 0) (VRef 5) VUndef demoGraph = Ok tt s' /\
    childList s' (VRef 0) = Some [VRef 2; VRef 3; VRef 5; VRef 4].
Proof.
  apply (insertBefore_reference_missing demoGraph (VRef 0) (VRef 5) VUndef
           [VRef 2; VRef 3; VRef 4]).
  - reflexivity.
  - reflexivity.
  - repeat constructor.
Defined.

(** [insertBefore_adds_one] on the same scene: node [3], which is a child
    already, before node [2]. *)
Lemma insertBefore_adds_one_witness :
  exists s' pre post,
    insertBefore (VRef 0) (VRef 3) (VRef 2) demoGraph = Ok tt s' /\
    [VRef 2; VRef 3; VRef 4] = pre ++ post /\
    childList s' (VRef 0) = Some (pre ++ VRef 3 :: post).
Proof.
  apply (insertBefore_adds_one demoGraph (VRef 0) (VRef 3) (VRef 2)
           [VRef 2; VRef 3; VRef 4]); reflexivity.
Defined.

(** [insertBefore_keeps_old_parent] on the same scene: node [3], a child of
    the scene [0], is inserted under node [5]. *)
Lemma insertBefore_keeps_old_parent_witness :
  exists s',
    insertBefore (VRef 5) (VRef 3) VUndef demoGraph = Ok tt s' /\
    childList s' (VRef 0) = Some [VRef 2; VRef 3; VRef 4] /\
    field s' (VRef 3) "parent" = VRef 5.
Proof.
  apply (insertBefore_keeps_old_parent demoGraph (VRef 5) (VRef 3) VUndef []
           (VRef 0) [VRef 2; VRef 3; VRef 4]); demo_hyps.
Defined.

(** [appendChild_named_leaf] on the mesh [0] and the placeholder [1]. *)
Lemma appendChild_named_leaf_witness :
  exists s',
    appendChild (VRef 0) (VRef 1) demoNamed = Ok tt s' /\
    field s' (VRef 1) "parent" = VRef 0 /\
    field s' (VRef 0) "geometry" = VRef 2 /\
    (forall x k, (x, k) <> (VRef 1, "parent") -> (x, k) <> (VRef 0, "geometry") ->
                 field s' x k = field demoNamed x k) /\
    trace s' = trace demoNamed /\ leaves s' = leaves demoNamed.
Proof.
  eapply (appendChild_named_leaf demoNamed 0 _ 1 _ 2 _ "geometry"); demo_hyps.
Defined.

(** [removeChild_leaf_keeps_resource] on the same mesh and placeholder. *)
Lemma removeChild_leaf_keeps_resource_witness :
  exists s1 s2,
    appendChild (VRef 0) (VRef 1) demoNamed = Ok tt s1 /\
    removeChild (VRef 0) (VRef 1) s1 = Ok tt s2 /\
    field s2 (VRef 1) "parent" = VUndef /\
    field s2 (VRef 0) "geometry" = VRef 2.
Proof.
  eapply (removeChild_leaf_keeps_resource demoNamed 0 _ 1 _ 2 _ "geometry");
    demo_hyps.
Defined.

(** [insertBefore_leaf_not_attached] on the same mesh and placeholder. *)
Lemma insertBefore_leaf_not_attached_witness :
  exists s',
    insertBefore (VRef 0) (VRef 1) VUndef demoNamed = Ok tt s' /\
    field s' (VRef 1) "parent" = VRef 0 /\
    (forall x k, (x, k) <> (VRef 1, "parent") -> field s' x k = field demoNamed x k) /\
    trace s' = trace demoNamed.
Proof.
  eapply (insertBefore_leaf_not_attached demoNamed (VRef 0) VUndef 1); demo_hyps.
Defined.

(** *** [createInstance] *)

(** Spreading only reads. *)
Lemma spread_state v s :
  match spread v s with Ok _ s' | Throw s' => s' = s end.
Proof.
  destruct v as [| | | | | |a]; try done. simpl.
  destruct (heap s !! a) as [o|]; [|done]. by destruct (items o).
Qed.

(** X15.  A type tag that names no constructor of the registry (and is not
    'primitive'): [createInstance] throws, and nothing has been allocated,
    written or called, whatever the props. *)
Theorem createInstance_unknown_class THREE type props0 s :
  strict_eq type (VStr "primitive") = false ->
  THREE (Str.upperFirst (typeTag type)) = None ->
  createInstance THREE type props0 s = Throw s.
Proof.
  intros Hprim Hnone. unfold createInstance. rewrite Hprim.
  unfold bind at 1 2. destruct (argsOf props0) as [v|].
  - pose proof (spread_state v s) as Hs.
    destruct (spread v s) as [l s'|s']; subst s'; [|done].
    unfold construct. by rewrite Hnone.
  - unfold ret at 1. unfold construct. by rewrite Hnone.
Qed.

(** [createInstance_unknown_class] with a registry that knows box
    geometries only. *)
Lemma createInstance_unknown_class_witness :
  createInstance boxRegistry (VStr "sphereGeometry") [("args", VRef 8)] demoGraph
  = Throw demoGraph.
Proof.
  apply (createInstance_unknown_class boxRegistry (VStr "sphereGeometry")
           [("args", VRef 8)] demoGraph); reflexivity.
Defined.

Lemma pget_elem (p : props) k v : pget p k = v -> v <> VUndef -> (k, v) ∈ p.
Proof.
  induction p as [|[k' v'] p IH]; simpl; [congruence|].
  destruct (String.eqb k' k) eqn:E.
  - apply String.eqb_eq in E as ->. intros -> _. left.
  - intros H1 H2. right. by apply IH.
Qed.

Lemma pget_omit (p : props) ks k : k ∉ ks -> pget (omit p ks) k = pget p k.
Proof.
  intros Hk. unfold omit. induction p as [|[k' v'] p IH]; [done|].
  destruct (decide (k' ∈ ks)) as [Hin|Hnin].
  - rewrite filter_cons_False by (simpl; by intros H; apply H).
    simpl. rewrite IH. destruct (String.eqb k' k) eqn:E; [|done].
    apply String.eqb_eq in E as ->. done.
  - rewrite filter_cons_True by done. simpl. by rewrite IH.
Qed.

Lemma foldl_insert_lookup (l : props) : forall (fs : gmap string value) k v,
  NoDup l.*1 -> (k, v) ∈ l ->
  foldl (fun fs kv => <[kv.1 := kv.2]> fs) fs l !! k = Some v.
Proof.
  induction l as [|[k' v'] l IH] using rev_ind; intros fs k v Hnd Hin.
  - by apply elem_of_nil in Hin.
  - rewrite foldl_snoc. simpl. rewrite fmap_app in Hnd.
    apply NoDup_app in Hnd as (Hnd & Hdis & _).
    apply elem_of_app in Hin as [Hin|Hin].
    + rewrite lookup_insert_ne; [by apply IH|].
      intros ->. apply (Hdis k); [|simpl; left].
      apply list_elem_of_fmap. by exists (k, v).
    + apply list_elem_of_singleton in Hin as [= -> ->]. by rewrite lookup_insert_eq.
Qed.

(** X16.  'primitive' with the object [o] under the key "object" and plain
    props: no constructor is called; the props, the "object" prop among
    them, are assigned to [o], which thus comes to refer to itself; a spatial
    [o] is returned as it is, any other is wrapped in a new placeholder. *)
Theorem createInstance_primitive THREE s o ob props0 :
  let props := omit props0 ["args"] in
  let fp := filteredProps s props [] in
  let fs := foldl (fun fs kv => <[kv.1 := kv.2]> fs) (fields ob) fp in
  let s1 := written s o ob fs in
  let p := fresh (dom (heap s1)) in
  pget props0 "object" = VRef o ->
  heap s !! o = Some ob ->
  NoDup (keys props0) ->
  handlers s props = [] ->
  Forall (fun kv => Str.includes "-" kv.1 = false /\ named kv.1 /\
                    atomic s o (obj_get ob kv.1)) fp ->
  fs !! "object" = Some (VRef o) /\
  createInstance THREE (VStr "primitive") props0 s
  = if truthy (field s1 (VRef o) "isObject3D") then Ok (VRef o) s1
    else Ok (VRef p) (State (<[p := plain {["current" := VRef o]}]> (heap s1))
                        ({[p]} ∪ leaves s1) (trace s1)).
Proof.
  intros props fp fs s1 p Hobj Ho Hnd Hhs Hall.
  assert (Hobj' : pget props "object" = VRef o).
  { unfold props. rewrite pget_omit; [done|].
    intros H. apply list_elem_of_singleton in H. discriminate. }
  assert (Hnd' : NoDup (keys props)).
  { apply (sublist_NoDup _ (keys props0)); [done|].
    unfold keys, props, omit. apply fmap_sublist, sublist_filter. }
  assert (Hndfp : NoDup fp.*1) by (by apply filteredProps_NoDup).
  split.
  - apply foldl_insert_lookup; [done|].
    unfold fp, filteredProps, omit. apply list_elem_of_filter. split.
    + simpl. rewrite Hhs. rewrite !elem_of_app. intros [H|[H|H]].
      * unfold sameProps in H. apply list_elem_of_filter in H as [H _].
        by rewrite Hobj' in H.
      * by apply elem_of_nil in H.
      * repeat (apply elem_of_cons in H as [H|H]; [discriminate|]).
        by apply elem_of_nil in H.
    + by apply pget_elem.
  - unfold createInstance. change (strict_eq (VStr "primitive") (VStr "primitive"))
      with true. cbv iota. unfold ret at 1. unfold bind at 1. fold props.
    rewrite Hobj'.
    assert (Hrun : applyProps (VRef o) props [] s = Ok tt s1).
    { pose proof (forEach_assign o fp s ob Ho Hndfp Hall) as Hrun.
      unfold applyProps, gets. unfold bind at 1 2. rewrite Hhs. fold fp.
      unfold s1, fs. destruct fp as [|kv fp'] eqn:Hfp.
      - simpl. simpl in Hrun. by injection Hrun as <-.
      - rewrite bool_decide_eq_false_2 by done.
        by rewrite (bind_Ok _ _ _ _ _ Hrun). }
    rewrite (bind_Ok _ _ _ _ _ Hrun).
    rewrite (bind_Ok _ _ _ _ _ (getv_field s1 (VRef o) "isObject3D" eq_refl)).
    destruct (truthy (field s1 (VRef o) "isObject3D")); [done|].
    unfold alloc. unfold bind. done.
Qed.

(** A group [0] and a texture [1], neither with a property "object". *)
Definition demoPrimitive : state :=
  State (<[0 := Object "Group" {["isObject3D" := VBool true]} None false]>
        (<[1 := Object "Texture" ∅ None false]> ∅)) ∅ [].

(** [createInstance_primitive] on the group, which is returned with a
    property "object" that is the group itself, and on the texture, which is
    wrapped. *)
Lemma createInstance_primitive_witness :
  (exists s',
     createInstance boxRegistry (VStr "primitive")
       [("object", VRef 0); ("visible", VBool false)] demoPrimitive
     = Ok (VRef 0) s' /\
     field s' (VRef 0) "object" = VRef 0 /\
     field s' (VRef 0) "visible" = VBool false /\
     trace s' = []) /\
  (exists s',
     createInstance boxRegistry (VStr "primitive") [("object", VRef 1)] demoPrimitive
     = Ok (VRef 2) s' /\
     field s' (VRef 2) "current" = VRef 1 /\
     field s' (VRef 1) "object" = VRef 1 /\
     leaves s' = {[2]}).
Proof.
  split.
  - destruct (createInstance_primitive boxRegistry demoPrimitive 0
                (Object "Group" {["isObject3D" := VBool true]} None false)
                [("object", VRef 0); ("visible", VBool false)]) as [_ ->].
    + reflexivity.
    + vm_compute. reflexivity.
    + refine (bool_decide_unpack _ _). by vm_compute.
    + reflexivity.
    + vm_compute. repeat (constructor; [repeat split; discriminate|]). constructor.
    + eexists. split; [vm_compute; reflexivity|]. vm_compute. done.
  - destruct (createInstance_primitive boxRegistry demoPrimitive 1
                (Object "Texture" ∅ None false) [("object", VRef 1)]) as [_ ->].
    + reflexivity.
    + vm_compute. reflexivity.
    + refine (bool_decide_unpack _ _). by vm_compute.
    + reflexivity.
    + vm_compute. repeat (constructor; [repeat split; discriminate|]). constructor.
    + eexists. split; [vm_compute; reflexivity|]. vm_compute. done.
Defined.

(** *** [commitUpdate] *)

(** [argsOld[index]] as line 127 reads it, [undefined] under the empty
    default. *)
Definition oldArg (s : state) (argsOld : option value) (index : nat) : value :=
  match argsOld with
  | None => VUndef
  | Some o => field s o (Str.indexKey index)
  end.

(** The new argument list of line 124, when it can be iterated. *)
Definition newArgs (s : state) (newProps : props) : option (list value) :=
  match argsOf newProps with
  | None => Some []
  | Some v => elements s v
  end.

Lemma someDiffers_from s argsOld argsNew i0 :
  match argsOld with Some o => nullish o = false | None => True end ->
  exists b,
    someDiffers argsNew argsOld i0 s = Ok b s /\
    (b = true <->
     exists i v, argsNew !! i = Some v /\
                 strict_eq v (oldArg s argsOld (i0 + i)) = false).
Proof.
  intros Hold. revert i0. induction argsNew as [|v r IH]; intros i0.
  - exists false. split; [done|]. split; [done|]. by intros (i & v & H & _).
  - simpl.
    assert (Hread : (match argsOld with
                     | Some o => getv o (Str.indexKey i0)
                     | None => ret VUndef
                     end) s = Ok (oldArg s argsOld i0) s).
    { destruct argsOld as [o|]; [|done]. by apply getv_field. }
    rewrite (bind_Ok _ _ _ _ _ Hread).
    destruct (strict_eq v (oldArg s argsOld i0)) eqn:E; simpl.
    + destruct (IH (S i0)) as (b & Hrun & Hb). exists b. split; [done|].
      rewrite Hb. split.
      * intros (i & w & Hi & Hw). exists (S i), w. split; [done|].
        by replace (i0 + S i) with (S i0 + i) by lia.
      * intros (i & w & Hi & Hw). destruct i as [|i].
        -- simpl in Hi. injection Hi as <-. rewrite Nat.add_0_r in Hw. congruence.
        -- exists i, w. split; [done|].
           by replace (S i0 + i) with (i0 + S i) by lia.
    + exists true. split; [done|]. split; [|done]. intros _.
      exists 0, v. split; [done|]. by rewrite Nat.add_0_r.
Qed.

(** X17.  The comparison of line 127 is true exactly when some element of
    the new argument list is not [===] to what the old list holds at the
    same index; what the old list holds beyond the length of the new one
    is never looked at. *)
Theorem someDiffers_iff s argsOld argsNew :
  match argsOld with Some o => nullish o = false | None => True end ->
  exists b,
    someDiffers argsNew argsOld 0 s = Ok b s /\
    (b = true <->
     exists i v, argsNew !! i = Some v /\ strict_eq v (oldArg s argsOld i) = false).
Proof. intros H. exact (someDiffers_from s argsOld argsNew 0 H). Qed.

(** [someDiffers_iff] on the argument arrays [8] = [1; 2] and [9] = [1]. *)
Lemma someDiffers_iff_witness :
  exists b,
    someDiffers [VNum 1] (Some (VRef 8)) 0 demoGraph = Ok b demoGraph /\
    (b = true <->
     exists i v, [VNum 1] !! i = Some v /\
                 strict_eq v (oldArg demoGraph (Some (VRef 8)) i) = false).
Proof. apply (someDiffers_iff demoGraph (Some (VRef 8)) [VNum 1]). reflexivity. Defined.

(** X18.  On a placeholder, when every new argument is [===] to the old
    argument at its index, [commitUpdate] keeps the resource and is the
    [applyProps] of line 137 on it, with the props other than [args]; so it
    is when the new props have fewer arguments than the old ones, or none. *)
Theorem commitUpdate_keeps_resource THREE s instance oldProps newProps argsNew :
  dataLeaf s instance ->
  newArgs s newProps = Some argsNew ->
  match argsOf oldProps with Some o => nullish o = false | None => True end ->
  (forall i v, argsNew !! i = Some v ->
               strict_eq v (oldArg s (argsOf oldProps) i) = true) ->
  commitUpdate THREE instance oldProps newProps s
  = applyProps (field s instance "current")
      (omit newProps ["args"]) (omit oldProps ["args"]) s.
Proof.
  intros (Ht & H3d & Hcur) Hnew Hold Hsame. unfold commitUpdate.
  pose proof (truthy_not_nullish _ Ht) as Hnn.
  rewrite (bind_Ok _ _ _ _ _ (getv_field s instance "isObject3D" Hnn)), H3d.
  rewrite (bind_Ok _ _ _ _ _ (getv_field s instance "parent" Hnn)).
  assert (Hread : (match argsOf newProps with
                   | Some v => arr_items v
                   | None => ret []
                   end) s = Ok argsNew s).
  { unfold newArgs in Hnew. destruct (argsOf newProps) as [v|].
    - by apply arr_items_elements.
    - by injection Hnew as <-. }
  rewrite (bind_Ok _ _ _ _ _ Hread).
  destruct (someDiffers_from s (argsOf oldProps) argsNew 0 Hold) as (b & Hrun & Hb).
  rewrite (bind_Ok _ _ _ _ _ Hrun).
  destruct b.
  - destruct (proj1 Hb eq_refl) as (i & v & Hi & Hv).
    change (0 + i) with i in Hv. rewrite (Hsame i v Hi) in Hv. discriminate.
  - by rewrite (bind_Ok _ _ _ _ _ (getv_field s instance "current" Hnn)).
Qed.

(** [commitUpdate_keeps_resource] on the placeholder [6], whose geometry was
    built from the arguments [1; 2]: an update to no arguments at all. *)
Lemma commitUpdate_keeps_resource_witness :
  commitUpdate boxRegistry (VRef 6) [("args", VRef 8)] [("name", VStr "box")] demoGraph
  = applyProps (VRef 7) [("name", VStr "box")] [] demoGraph.
Proof.
  apply (commitUpdate_keeps_resource boxRegistry demoGraph (VRef 6)
           [("args", VRef 8)] [("name", VStr "box")] []).
  - repeat split.
  - reflexivity.
  - reflexivity.
  - intros i v Hi. by destruct i.
Defined.

(** What is left of [applyProps] when there are no props. *)
Lemma applyProps_nil x oldProps s : applyProps x [] oldProps s = Ok tt s.
Proof. by apply applyProps_skip. Qed.

Lemma getv_ref s a o k :
  heap s !! a = Some o -> getv (VRef a) k s = Ok (obj_get o k) s.
Proof. intros H. unfold getv. by rewrite H. Qed.

(** X19.  On a placeholder, when some new argument differs and the props
    hold nothing but arguments: one resource is constructed from the new
    arguments, under the type tag of the old resource, and the placeholder,
    still the same object, comes to wrap it; when the new resource has no
    name, the placeholder ends with [parent] [undefined] and no other object
    that existed before is written.  The second placeholder, the one
    [createInstance] returned, is left behind. *)
Theorem commitUpdate_reinstantiates THREE s i io r ro tag vn l ctor oldProps newProps :
  heap s !! i = Some io ->
  truthy (obj_get io "isObject3D") = false ->
  obj_get io "current" = VRef r ->
  heap s !! r = Some ro ->
  obj_get ro "type" = VStr tag ->
  tag <> "primitive" ->
  argsOf newProps = Some vn ->
  elements s vn = Some l ->
  omit newProps ["args"] = [] ->
  match argsOf oldProps with Some o => nullish o = false | None => True end ->
  (exists j v, l !! j = Some v /\ strict_eq v (oldArg s (argsOf oldProps) j) = false) ->
  THREE (Str.upperFirst tag) = Some ctor ->
  truthy (default VUndef (ctor l !! "isObject3D")) = false ->
  truthy (default VUndef (ctor l !! "name")) = false ->
  let name := Str.upperFirst tag in
  let g := fresh (dom (heap s)) in
  let h1 := <[g := Object name (ctor l) None false]> (heap s) in
  let p := fresh (dom h1) in
  let h2 := <[p := plain {["current" := VRef g]}]> h1 in
  commitUpdate THREE (VRef i) oldProps newProps s
  = Ok tt (State (<[i := Object (cname io)
                          (<["parent" := VUndef]>
                             (<["current" := VRef g]>
                                (<["parent" := VUndef]> (fields io))))
                          (items io) (callable io)]> h2)
                 ({[p]} ∪ leaves s)
                 (trace s ++ [Construct name l g])).
Proof.
  intros Hi H3d Hcur Hr Htype Htag Hvn Hl Hrest Hold Hdiff Hctor Hc3d Hcname
    name g h1 p h2.
  assert (Hg : heap s !! g = None) by apply not_elem_of_dom, is_fresh.
  assert (Hp : h1 !! p = None) by apply not_elem_of_dom, is_fresh.
  assert (Hig : i <> g) by congruence.
  assert (Hgp : g <> p).
  { intros E. rewrite <- E in Hp. unfold h1 in Hp. by rewrite lookup_insert_eq in Hp. }
  assert (Hip : i <> p).
  { intros E. rewrite <- E in Hp. unfold h1 in Hp.
    rewrite lookup_insert_ne in Hp by done. congruence. }
  unfold commitUpdate.
  rewrite (bind_Ok _ _ _ _ _ (getv_ref _ i io "isObject3D" Hi)), H3d.
  rewrite (bind_Ok _ _ _ _ _ (getv_ref _ i io "parent" Hi)).
  rewrite Hvn, (bind_Ok _ _ _ _ _ (arr_items_elements _ _ _ Hl)).
  destruct (someDiffers_from s (argsOf oldProps) l 0 Hold)
    as (b & Hrun & Hb).
  rewrite (bind_Ok _ _ _ _ _ Hrun). rewrite (proj2 Hb Hdiff).
  rewrite (bind_Ok _ _ _ _ _ (getv_ref _ i io "current" Hi)), Hcur.
  rewrite (bind_Ok _ _ _ _ _ (getv_ref _ r ro "type" Hr)), Htype.
  (* createInstance *)
  set (s2 := State h2 ({[p]} ∪ leaves s) (trace s ++ [Construct name l g])).
  assert (Hcreate : createInstance THREE (VStr tag) newProps s
                    = Ok (VRef p) s2).
  { unfold createInstance. rewrite Hrest, Hvn.
    assert (strict_eq (VStr tag) (VStr "primitive") = false) as ->.
    { simpl. apply bool_decide_eq_false_2. congruence. }
    assert (Hspread : spread vn s = Ok l s).
    { destruct vn; try done. by apply arr_items_elements. }
    assert (Hnew : bind (spread vn)
                     (fun args => construct THREE
                                    (Str.upperFirst (typeTag (VStr tag))) args) s
                   = Ok (VRef g) (State h1 (leaves s)
                                    (trace s ++ [Construct name l g]))).
    { rewrite (bind_Ok _ _ _ _ _ Hspread). unfold typeTag, to_key.
      unfold construct. rewrite Hctor, Hc3d.
      unfold alloc, emit, ret, bind. done. }
    rewrite (bind_Ok _ _ _ _ _ Hnew).
    rewrite (bind_Ok _ _ _ _ _ (applyProps_nil _ _ _)).
    assert (Hg1 : h1 !! g = Some (Object name (ctor l) None false))
      by apply lookup_insert_eq.
    rewrite (bind_Ok _ _ _ _ _
               (getv_ref (State h1 (leaves s) _) g _ "isObject3D" Hg1)).
    change (obj_get (Object name (ctor l) None false) "isObject3D")
      with (default VUndef (ctor l !! "isObject3D")).
    rewrite Hc3d. unfold alloc, bind. simpl heap. simpl leaves. simpl trace.
    by fold p h2. }
  rewrite (bind_Ok _ _ _ _ _ Hcreate).
  (* removeChild *)
  assert (Hi2 : heap s2 !! i = Some io).
  { simpl. unfold h2, h1. by rewrite !lookup_insert_ne. }
  rewrite (bind_Ok _ _ _ _ _ (removeChild_leaf s2 _ i io Hi2 H3d)).
  set (io1 := Object (cname io) (<["parent" := VUndef]> (fields io)) (items io)
                (callable io)).
  set (s3 := written s2 i io (<["parent" := VUndef]> (fields io))).
  assert (Hp3 : heap s3 !! p = Some (plain {["current" := VRef g]})).
  { simpl. rewrite lookup_insert_ne by done. unfold h2. by rewrite lookup_insert_eq. }
  assert (Hg3 : heap s3 !! g = Some (Object name (ctor l) None false)).
  { simpl. rewrite lookup_insert_ne by done. unfold h2, h1.
    rewrite lookup_insert_ne by done. by rewrite lookup_insert_eq. }
  assert (Hi3 : heap s3 !! i = Some io1) by (simpl; by rewrite lookup_insert_eq).
  (* appendChild *)
  assert (Happend : appendChild (obj_get io "parent") (VRef p) s3 = Ok tt s3).
  { unfold appendChild. change (truthy (VRef p)) with true. cbv iota.
    rewrite (bind_Ok _ _ _ _ _ (getv_ref s3 p _ "isObject3D" Hp3)).
    change (truthy (obj_get (plain {["current" := VRef g]}) "isObject3D")) with false.
    cbv iota.
    rewrite (bind_Ok _ _ _ _ _ (getv_ref s3 p _ "current" Hp3)).
    change (obj_get (plain {["current" := VRef g]}) "current") with (VRef g).
    rewrite (bind_Ok _ _ _ _ _ (getv_ref s3 g _ "name" Hg3)).
    change (obj_get (Object name (ctor l) None false) "name")
      with (default VUndef (ctor l !! "name")).
    by rewrite Hcname. }
  rewrite (bind_Ok _ _ _ _ _ Happend).
  rewrite (bind_Ok _ _ _ _ _ (getv_ref s3 p _ "current" Hp3)).
  change (obj_get (plain {["current" := VRef g]}) "current") with (VRef g).
  rewrite (bind_Ok _ _ _ _ _ (setv_named s3 i io1 "current" (VRef g) named_current Hi3)).
  set (io2 := Object (cname io1) (<["current" := VRef g]> (fields io1)) (items io1)
                (callable io1)).
  set (s4 := State _ (leaves s3) (trace s3)).
  assert (Hp4 : heap s4 !! p = Some (plain {["current" := VRef g]})).
  { simpl. rewrite lookup_insert_ne by done. rewrite lookup_insert_ne by done.
    unfold h2. by rewrite lookup_insert_eq. }
  assert (Hi4 : heap s4 !! i = Some io2) by (simpl; by rewrite lookup_insert_eq).
  rewrite (bind_Ok _ _ _ _ _ (getv_ref s4 p _ "parent" Hp4)).
  change (obj_get (plain {["current" := VRef g]}) "parent") with VUndef.
  rewrite (setv_named s4 i io2 "parent" VUndef named_parent Hi4).
  simpl. by rewrite !insert_insert_eq.
Qed.

(** [commitUpdate_reinstantiates] on the placeholder [6]: from the arguments
    [1] to the arguments [1; 2]. *)
Lemma commitUpdate_reinstantiates_witness :
  exists s',
    commitUpdate boxRegistry (VRef 6) [("args", VRef 9)] [("args", VRef 8)] demoGraph
    = Ok tt s' /\
    field s' (VRef 6) "current" = VRef 14 /\
    field s' (VRef 6) "parent" = VUndef /\
    field s' (VRef 15) "current" = VRef 14 /\
    leaves s' = {[6; 15]} /\
    trace s' = [Construct "BoxGeometry" [VNum 1; VNum 2] 14].
Proof.
  eexists. split.
  - eapply (commitUpdate_reinstantiates boxRegistry demoGraph 6 _ 7 _ "BoxGeometry"
              (VRef 8) [VNum 1; VNum 2]); try (vm_compute; reflexivity).
    + discriminate.
    + exists 1, (VNum 2). split; reflexivity.
  - vm_compute. done.
Defined.

End AdapterMore.

(* --------------------------------------------------------------------- *)
(** ** Pointer picking: further properties *)
(* --------------------------------------------------------------------- *)

Module PickingMore.
Import Picking PickingSpec.

(** The state a handler ends in, returned or thrown. *)
Definition finalState {S} (o : outcome S) : S :=
  match o with Done s | Raised s => s end.

Definition isSetCursor (c : call) : bool :=
  match c with SetCursor _ => true | _ => false end.

(** Some node hit by the event has a hover handler. *)
Definition anyHover (sc : scene) (intersects : list intersection) : bool :=
  existsb (fun i => bool_decide (is_Some (handler sc (object i) "hover"))) intersects.

(** The click a hit stands for, if its node has a click handler. *)
Definition clickOf (sc : scene) (d : intersection) : option call :=
  (fun f => Click f d) <$> handler sc (object d) "click".

Lemma filter_snoc_cursor l c :
  filter (fun c => isSetCursor c = true) (l ++ [c])
  = filter (fun c => isSetCursor c = true) l ++ (if isSetCursor c then [c] else []).
Proof.
  rewrite filter_app. f_equal. destruct (isSetCursor c) eqn:E.
  - by rewrite filter_cons_True.
  - rewrite filter_cons_False; [done|congruence].
Qed.

(** The loop of [intersect] under the move callback returns; the [hover]
    flag is set when a node hit has a hover handler; the cursor is not
    touched. *)
Lemma move_hits_flag sc intersects s :
  exists s',
    intersect sc intersects (onMoveHit sc) s = Done s' /\
    hover s' = hover s || anyHover sc intersects /\
    filter (fun c => isSetCursor c = true) (calls s')
    = filter (fun c => isSetCursor c = true) (calls s).
Proof.
  unfold intersect. revert s. induction intersects as [|i l IH]; intros s.
  { exists s. split; [done|]. by rewrite orb_false_r. }
  simpl each.
  change (anyHover sc (i :: l))
    with (bool_decide (is_Some (handler sc (object i) "hover")) || anyHover sc l).
  unfold handler, onMoveHit.
  destruct (__handlers (sc (object i))) as [h|] eqn:Hh; simpl.
  - destruct (h !! "hover") as [f|] eqn:Hf.
    + destruct (tget (hovered s) (uuid (sc (object i)))) eqn:Ht.
      * destruct (IH (MoveState true (hovered s) (calls s))) as (s' & Hrun & Hfl & Hc).
        exists s'. split; [done|]. split; [|done].
        rewrite Hfl. simpl. by rewrite !orb_true_r.
      * destruct (IH (MoveState true (tset (hovered s) (uuid (sc (object i))) (object i))
                        (calls s ++ [Hover f i]))) as (s' & Hrun & Hfl & Hc).
        exists s'. split; [done|]. split.
        -- rewrite Hfl. simpl. by rewrite !orb_true_r.
        -- rewrite Hc. simpl calls. rewrite filter_snoc_cursor. simpl.
           by rewrite app_nil_r.
    + destruct (IH s) as (s' & Hrun & Hfl & Hc). exists s'. split; [done|].
      split; [|done]. by rewrite Hfl.
  - destruct (IH s) as (s' & Hrun & Hfl & Hc). exists s'. split; [done|].
    split; [|done]. by rewrite Hfl.
Qed.

(** The leave loop does not touch the cursor, thrown or not. *)
Lemma leave_cursor sc intersects vs s :
  filter (fun c => isSetCursor c = true)
         (calls (finalState (each (onLeave sc intersects) vs s)))
  = filter (fun c => isSetCursor c = true) (calls s).
Proof.
  revert s. induction vs as [|o vs IH]; intros s; [done|].
  simpl. unfold onLeave at 1.
  destruct (bool_decide (intersects = []) || _); [|by apply IH].
  destruct (__handlers (sc o)) as [h|]; [|done].
  rewrite IH. simpl. destruct (h !! "unhover"); simpl; [|done].
  rewrite filter_snoc_cursor. simpl. by rewrite app_nil_r.
Qed.

(** X20.  One pointer-move event calls [setCursor] at most once: with
    'pointer' when a node hit has a hover handler and the cursor the
    listener closed over is not 'pointer', with 'default' when no node hit
    has one and that cursor is not 'default', and not at all otherwise. *)
Theorem handleMove_cursor sc cursor intersects t :
  let want := if anyHover sc intersects then "pointer" else "default" in
  filter (fun c => isSetCursor c = true)
         (calls (finalState (handleMove sc cursor intersects t)))
  = if String.eqb cursor want then [] else [SetCursor want].
Proof.
  intros want. unfold handleMove.
  destruct (move_hits_flag sc intersects (MoveState false t []))
    as (s1 & -> & Hfl & Hc).
  rewrite leave_cursor. unfold updateCursor. simpl in Hfl, Hc. rewrite Hfl.
  fold want. destruct (String.eqb cursor want); [done|]. simpl.
  by rewrite filter_snoc_cursor, Hc.
Qed.

(** The loop of [intersect] under the move callback keeps the map
    well-formed. *)
Lemma move_hits_wf sc intersects s :
  wf sc (hovered s) ->
  exists s',
    intersect sc intersects (onMoveHit sc) s = Done s' /\ wf sc (hovered s').
Proof.
  unfold intersect. revert s. induction intersects as [|i l IH]; intros s Hwf.
  { by exists s. }
  simpl. unfold onMoveHit.
  destruct (__handlers (sc (object i))) as [h|] eqn:Hh; [|by apply IH].
  destruct (h !! "hover") as [f|]; [|by apply IH].
  destruct (tget (hovered s) (uuid (sc (object i)))) eqn:Ht; [by apply IH|].
  apply IH. simpl. apply wf_tset; [done|done|]. by rewrite Hh.
Qed.

Lemma elem_of_tdelete (t : table) k e : e ∈ tdelete t k <-> e ∈ t /\ e.1 <> k.
Proof. unfold tdelete. rewrite list_elem_of_filter. tauto. Qed.

(** What the leave loop over the nodes [vs] leaves in the map: the entries
    whose key is not the uuid of a node of [vs] that was not hit. *)
Lemma leave_loop_map sc intersects vs s :
  Forall (fun o => is_Some (__handlers (sc o))) vs ->
  exists s',
    each (onLeave sc intersects) vs s = Done s' /\
    forall e, e ∈ hovered s' <->
              e ∈ hovered s /\
              ~ exists o, o ∈ vs /\ ~ hit intersects o /\ uuid (sc o) = e.1.
Proof.
  revert s. induction vs as [|o vs IH]; intros s Hh.
  { exists s. split; [done|]. intros e. split; [|by intros [? _]].
    intros He. split; [done|]. intros (o & Ho & _). by apply elem_of_nil in Ho. }
  apply Forall_cons in Hh as [[tbl Ho] Hh]. simpl. unfold onLeave at 1.
  destruct (bool_decide (intersects = []) || _) eqn:Hcond.
  - apply leaves_iff in Hcond. rewrite Ho.
    set (s1 := MoveState _ _ _).
    destruct (IH s1 Hh) as (s' & Hrun & Hmap). exists s'. split; [done|].
    intros e. rewrite Hmap.
    assert (hovered s1 = tdelete (hovered s) (uuid (sc o))) as ->
      by (unfold s1; by destruct (tbl !! "unhover")).
    rewrite elem_of_tdelete. split.
    + intros [[He Hk] Hn]. split; [done|]. intros (o' & Ho' & Hnh & Hu).
      apply elem_of_cons in Ho' as [->|Ho']; [by apply Hk|].
      apply Hn. by exists o'.
    + intros [He Hn]. split; [split; [done|]|].
      * intros Hk. apply Hn. exists o. split; [left|done].
      * intros (o' & Ho' & Hnh & Hu). apply Hn. exists o'. split; [by right|done].
  - assert (Hhit : hit intersects o).
    { destruct (hit_dec intersects o) as [H|H]; [done|].
      apply leaves_iff in H. congruence. }
    destruct (IH s Hh) as (s' & Hrun & Hmap). exists s'. split; [done|].
    intros e. rewrite Hmap. split.
    + intros [He Hn]. split; [done|]. intros (o' & Ho' & Hnh & Hu).
      apply elem_of_cons in Ho' as [->|Ho']; [done|]. apply Hn. by exists o'.
    + intros [He Hn]. split; [done|]. intros (o' & Ho' & Hnh & Hu).
      apply Hn. exists o'. split; [by right|done].
Qed.

(** X21.  From a well-formed [hovered] map, one pointer-move event returns
    and leaves in the map, well-formed again, only nodes that the event
    hit. *)
Theorem handleMove_keeps_only_hit sc cursor intersects t :
  wf sc t ->
  exists s',
    handleMove sc cursor intersects t = Done s' /\
    wf sc (hovered s') /\
    Forall (fun e => hit intersects e.2) (hovered s').
Proof.
  intros Hwf. unfold handleMove.
  destruct (move_hits_wf sc intersects (MoveState false t []) Hwf)
    as (s1 & -> & Hwf1).
  assert (Hh : hovered (updateCursor cursor s1) = hovered s1).
  { unfold updateCursor. by destruct (String.eqb _ _). }
  rewrite Hh.
  destruct (wf_values sc _ Hwf1) as (Hhs & _ & _ & _).
  destruct (leave_loop_map sc intersects (values (hovered s1))
              (updateCursor cursor s1) Hhs) as (s' & Hrun & Hmap).
  destruct (leave_runs sc intersects (values (hovered s1))
              (updateCursor cursor s1) Hhs) as (s'' & Hrun' & Hwf').
  rewrite Hrun in Hrun'. injection Hrun' as <-.
  exists s'. split; [done|]. split; [apply Hwf'; by rewrite Hh|].
  apply Forall_forall. intros e He. apply Hmap in He as [He Hn]. rewrite Hh in He.
  destruct (hit_dec intersects e.2) as [H|H]; [done|].
  exfalso. apply Hn. exists e.2. split; [|split; [done|]].
  - unfold values. apply list_elem_of_fmap. by exists e.
  - destruct Hwf1 as [_ Hall].
    by destruct (proj1 (Forall_forall _ _) Hall e He) as [-> _].
Qed.

(** [handleMove_keeps_only_hit] on the demo scene: node 0 is in the map and
    the event hits node 1 only. *)
Lemma handleMove_keeps_only_hit_witness :
  exists s',
    handleMove demoScene "pointer" [Intersection 1 1] [("a", 0)] = Done s' /\
    wf demoScene (hovered s') /\
    Forall (fun e => hit [Intersection 1 1] e.2) (hovered s').
Proof.
  apply (handleMove_keeps_only_hit demoScene "pointer" [Intersection 1 1] [("a", 0)]).
  split.
  - apply NoDup_singleton.
  - repeat constructor. by eexists.
Defined.

(** X22.  One click returns and calls click handlers only, each with an
    intersection of the event whose node has that handler, in the order of
    the intersections: nodes without a handler table or without a click
    handler are passed over. *)
Theorem onClick_calls_in_order sc intersects :
  exists s',
    onClick sc intersects = Done s' /\
    clickCalls s' `sublist_of` omap (clickOf sc) intersects.
Proof.
  unfold onClick, intersect.
  assert (H : forall s, exists s' new,
            each (fun i s => match __handlers (sc (object i)) with
                             | None => Done s
                             | Some _ => onClickHit sc i s
                             end) intersects s = Done s' /\
            clickCalls s' = clickCalls s ++ new /\
            new `sublist_of` omap (clickOf sc) intersects).
  { induction intersects as [|i l IH]; intros s.
    { exists s, []. split; [done|]. by rewrite app_nil_r. }
    simpl. unfold clickOf at 1, handler, onClickHit.
    destruct (__handlers (sc (object i))) as [h|] eqn:Hh; simpl.
    - destruct (h !! "click") as [f|] eqn:Hf; simpl.
      + destruct (tget (clicked s) (uuid (sc (object i)))) eqn:Ht.
        * destruct (IH s) as (s' & new & Hrun & Hc & Hsub).
          exists s', new. split; [done|]. split; [done|]. by apply sublist_cons.
        * destruct (IH (ClickState (tset (clicked s) (uuid (sc (object i))) (object i))
                          (clickCalls s ++ [Click f i])))
            as (s' & new & Hrun & Hc & Hsub).
          exists s', (Click f i :: new). split; [done|]. split.
          -- rewrite Hc. simpl. by rewrite <- app_assoc.
          -- by apply sublist_skip.
      + destruct (IH s) as (s' & new & Hrun & Hc & Hsub). by exists s', new.
    - destruct (IH s) as (s' & new & Hrun & Hc & Hsub). by exists s', new. }
  destruct (H (ClickState [] [])) as (s' & new & Hrun & Hc & Hsub).
  exists s'. split; [done|]. by rewrite Hc.
Qed.

End PickingMore.

(* --------------------------------------------------------------------- *)
(** ** The render loop *)
(* --------------------------------------------------------------------- *)

Module FrameSpec.
Import Js Heap HeapWrites PropsMore AdapterMore.

(** The state [s] with further events on its trace. *)
Definition logged (s : state) (evs : list event) : state :=
  State (heap s) (leaves s) (trace s ++ evs).

Lemma logged_logged s e1 e2 : logged (logged s e1) e2 = logged s (e1 ++ e2).
Proof. unfold logged. simpl. by rewrite app_assoc. Qed.

Lemma logged_nil s : logged s [] = s.
Proof. destruct s. unfold logged. simpl. by rewrite app_nil_r. Qed.

Section WithCanvas.

Variables requestAnimationFrame current onUpdate renderFn : value.

(** The calls that notify the functions [l], in order. *)
Definition notified (l : list value) : list event :=
  (fun fn => Invoke fn VUndef [current]) <$> l.

(** The events of a frame before the subscribers are notified. *)
Definition opening (self : value) : list event :=
  Invoke requestAnimationFrame VUndef [self] ::
  (if truthy onUpdate then [Invoke onUpdate VUndef [current]] else []).

(** The draw call of a frame. *)
Definition draw (s : state) : event :=
  if truthy renderFn then Invoke renderFn VUndef [current]
  else Invoke (field s (field s current "gl") "render") (field s current "gl")
              [field s current "scene"; field s current "camera"].

Lemma notify_function fn s :
  is_function s fn = true ->
  Frame.notify current fn s = Ok tt (logged s [Invoke fn VUndef [current]]).
Proof. intros H. by apply callv_function. Qed.

Lemma notify_all l : forall s,
  Forall (fun fn => is_function s fn = true) l ->
  forEach (Frame.notify current) l s = Ok tt (logged s (notified l)).
Proof.
  induction l as [|fn l IH]; intros s Hl.
  - simpl. unfold ret. by rewrite logged_nil.
  - apply Forall_cons in Hl as [Hfn Hl]. simpl.
    rewrite (bind_Ok _ _ _ _ _ (notify_function fn s Hfn)).
    rewrite (IH (logged s _)) by done. by rewrite (logged_logged s).
Qed.

Lemma notify_until pre bad post s :
  Forall (fun fn => is_function s fn = true) pre ->
  is_function s bad = false ->
  forEach (Frame.notify current) (pre ++ bad :: post) s
  = Throw (logged s (notified pre)).
Proof.
  intros Hpre Hbad. rewrite forEach_app.
  rewrite (bind_Ok _ _ _ _ _ (notify_all pre s Hpre)). simpl.
  unfold Frame.notify at 1, callv, bind, gets.
  change (is_function (logged s (notified pre)) bad) with (is_function s bad).
  by rewrite Hbad.
Qed.

(** A frame up to the loop over the subscribers. *)
Lemma renderLoop_opening s self (k : M unit) :
  truthy (field s current "active") = true ->
  is_function s requestAnimationFrame = true ->
  (truthy onUpdate = true -> is_function s onUpdate = true) ->
  bind (callv requestAnimationFrame VUndef [self])
       (fun _ => bind (if truthy onUpdate then Frame.notify current onUpdate
                       else ret tt) (fun _ => k)) s
  = k (logged s (opening self)).
Proof.
  intros Hact Hraf Hupd.
  rewrite (bind_Ok _ _ _ _ _ (callv_function _ VUndef [self] s Hraf)).
  fold (logged s [Invoke requestAnimationFrame VUndef [self]]).
  unfold opening. destruct (truthy onUpdate) eqn:E.
  - rewrite (bind_Ok _ _ _ _ _ (notify_function onUpdate (logged s _) (Hupd eq_refl))).
    by rewrite (logged_logged s).
  - unfold ret, bind. done.
Qed.

Lemma current_not_nullish s k :
  truthy (field s current k) = true -> nullish current = false.
Proof. by destruct current. Qed.

(** X23.  A frame of the running loop, when the subscribers are functions:
    the next frame is requested first; then [onUpdate], if given, every
    subscriber once, in the order of the array, and one draw, by the [render]
    prop if given and by [gl.render(scene, camera)] otherwise, are called;
    the heap is not written. *)
Theorem renderLoop_frame s self l :
  truthy (field s current "active") = true ->
  is_function s requestAnimationFrame = true ->
  (truthy onUpdate = true -> is_function s onUpdate = true) ->
  elements s (field s current "subscribers") = Some l ->
  Forall (fun fn => is_function s fn = true) l ->
  (truthy renderFn = true -> is_function s renderFn = true) ->
  (truthy renderFn = false ->
   nullish (field s current "gl") = false /\
   is_function s (field s (field s current "gl") "render") = true) ->
  Frame.renderLoop requestAnimationFrame current onUpdate renderFn self s
  = Ok tt (logged s (opening self ++ notified l ++ [draw s])).
Proof.
  intros Hact Hraf Hupd Hsubs Hl Hrfn Hgl.
  pose proof (current_not_nullish s _ Hact) as Hcur.
  unfold Frame.renderLoop.
  rewrite (bind_Ok _ _ _ _ _ (getv_field s current "active" Hcur)), Hact.
  cbv [negb]. rewrite (renderLoop_opening s self _ Hact Hraf Hupd).
  set (s1 := logged s (opening self)).
  rewrite (bind_Ok _ _ _ _ _ (getv_field s1 current "subscribers" Hcur)).
  change (field s1 current "subscribers") with (field s current "subscribers").
  rewrite (bind_Ok _ _ _ _ _
             (arr_items_elements s1 (field s current "subscribers") l Hsubs)).
  rewrite (bind_Ok _ _ _ _ _ (notify_all l s1 Hl)).
  unfold s1. rewrite (logged_logged s).
  set (s2 := logged s (opening self ++ notified l)).
  unfold draw. destruct (truthy renderFn) eqn:E.
  - rewrite (notify_function renderFn s2 (Hrfn eq_refl)).
    unfold s2. by rewrite (logged_logged s), <- app_assoc.
  - destruct (Hgl eq_refl) as [Hnn Hfn].
    rewrite (bind_Ok _ _ _ _ _ (getv_field s2 current "gl" Hcur)).
    change (field s2 current "gl") with (field s current "gl").
    rewrite (bind_Ok _ _ _ _ _ (getv_field s2 _ "render" Hnn)).
    rewrite (bind_Ok _ _ _ _ _ (getv_field s2 current "scene" Hcur)).
    rewrite (bind_Ok _ _ _ _ _ (getv_field s2 current "camera" Hcur)).
    rewrite (callv_function _ _ _ s2 Hfn).
    unfold s2, logged. cbn [heap leaves trace]. by rewrite <- !app_assoc.
Qed.

(** X24.  A frame of the running loop with a subscriber that is not a
    function: the frame throws at that subscriber, after the subscribers
    before it; the later ones are not notified and nothing is drawn, but the
    next frame has been requested. *)
Theorem renderLoop_subscriber_throws s self pre bad post :
  truthy (field s current "active") = true ->
  is_function s requestAnimationFrame = true ->
  (truthy onUpdate = true -> is_function s onUpdate = true) ->
  elements s (field s current "subscribers") = Some (pre ++ bad :: post) ->
  Forall (fun fn => is_function s fn = true) pre ->
  is_function s bad = false ->
  Frame.renderLoop requestAnimationFrame current onUpdate renderFn self s
  = Throw (logged s (opening self ++ notified pre)).
Proof.
  intros Hact Hraf Hupd Hsubs Hpre Hbad.
  pose proof (current_not_nullish s _ Hact) as Hcur.
  unfold Frame.renderLoop.
  rewrite (bind_Ok _ _ _ _ _ (getv_field s current "active" Hcur)), Hact.
  cbv [negb]. rewrite (renderLoop_opening s self _ Hact Hraf Hupd).
  set (s1 := logged s (opening self)).
  rewrite (bind_Ok _ _ _ _ _ (getv_field s1 current "subscribers" Hcur)).
  change (field s1 current "subscribers") with (field s current "subscribers").
  rewrite (bind_Ok _ _ _ _ _
             (arr_items_elements s1 (field s current "subscribers") _ Hsubs)).
  rewrite (bind_Throw _ _ _ _ (notify_until pre bad post s1 Hpre Hbad)).
  unfold s1. by rewrite (logged_logged s).
Qed.

(** X25.  After the clean-up has cleared the [active] flag, a frame that
    was still pending does nothing: it requests no further frame, notifies
    nobody and draws nothing. *)
Theorem renderLoop_after_deactivate s self c o :
  current = VRef c ->
  heap s !! c = Some o ->
  bind (Frame.deactivate current)
       (fun _ => Frame.renderLoop requestAnimationFrame current onUpdate renderFn self) s
  = Ok tt (written s c o (<["active" := VBool false]> (fields o))).
Proof.
  intros Hc Ho. unfold Frame.deactivate. rewrite Hc.
  assert (Hk : named "active") by done.
  rewrite (bind_Ok _ _ _ _ _ (setv_named s c o "active" (VBool false) Hk Ho)).
  fold (written s c o (<["active" := VBool false]> (fields o))).
  unfold Frame.renderLoop.
  rewrite (bind_Ok _ _ _ _ _ (getv_field _ (VRef c) "active" eq_refl)).
  by rewrite (field_written_eq s c o "active" (VBool false) Hk).
Qed.

(** X26.  [subscribe(fn)] followed by the function it returned: the
    subscribers are then the entries identical to [fn], those of before and
    the new one; every other subscriber has been dropped.  The array that
    [subscribe] pushed onto is left as it is, and a new one is installed. *)
Theorem subscribe_then_unsubscribe s fn c o a l :
  current = VRef c ->
  heap s !! c = Some o ->
  obj_get o "subscribers" = VRef a ->
  elements s (VRef a) = Some l ->
  a <> c ->
  strict_eq fn fn = true ->
  exists s',
    bind (Frame.addSubscriber current fn) (fun _ => Frame.dropSubscriber current fn) s
    = Ok tt s' /\
    elements s' (field s' current "subscribers")
    = Some (filter (fun x => strict_eq x fn = true) l ++ [fn]) /\
    elements s' (VRef a) = Some (l ++ [fn]) /\
    field s' current "subscribers" <> VRef a /\
    trace s' = trace s.
Proof.
  intros Hc Ho Hsubs Hl Hac Hfn. rewrite Hc.
  destruct s as [h lv tr]. simpl in Ho, Hl.
  destruct (h !! a) as [ao|] eqn:Ha; [|done]. simpl in Hl.
  set (ao1 := Object (cname ao) (fields ao) (Some (l ++ [fn])) (callable ao)).
  set (h1 := <[a := ao1]> h).
  assert (Ho1 : h1 !! c = Some o) by (unfold h1; by rewrite lookup_insert_ne).
  assert (Ha1 : h1 !! a = Some ao1) by (unfold h1; by rewrite lookup_insert_eq).
  set (b := fresh (dom h1)).
  assert (Hb : h1 !! b = None) by apply not_elem_of_dom, is_fresh.
  assert (Hbc : b <> c) by congruence.
  assert (Hba : b <> a) by congruence.
  set (l' := Loop.unsubscribe fn (l ++ [fn])).
  set (h2 := <[b := array l']> h1).
  assert (Ho2 : h2 !! c = Some o) by (unfold h2; by rewrite lookup_insert_ne).
  assert (Hk : named "subscribers") by done.
  exists (State (<[c := Object (cname o) (<["subscribers" := VRef b]> (fields o))
                         (items o) (callable o)]> h2) lv tr).
  split; [|split; [|split; [|split]]].
  - unfold Frame.addSubscriber.
    unfold bind at 1 2. unfold getv at 1. simpl heap. rewrite Ho, Hsubs.
    unfold bind at 1. unfold arr_items at 1. simpl heap. rewrite Ha, Hl.
    unfold arr_update. simpl heap. rewrite Ha, Hl. simpl leaves. simpl trace.
    fold ao1 h1. unfold Frame.dropSubscriber.
    unfold bind at 1. unfold getv at 1. simpl heap. rewrite Ho1, Hsubs.
    unfold bind at 1. unfold arr_items at 1. simpl heap. rewrite Ha1. simpl items.
    unfold alloc, bind. simpl heap. simpl leaves. simpl trace. fold b l' h2.
    by rewrite (setv_named (State h2 lv tr) c o "subscribers" (VRef b) Hk Ho2).
  - rewrite (field_set_named_eq h2 lv tr c o "subscribers" (VRef b) Hk).
    simpl. rewrite lookup_insert_ne by done. unfold h2. rewrite lookup_insert_eq.
    simpl. unfold l', Loop.unsubscribe. rewrite filter_app. f_equal. f_equal.
    by rewrite filter_cons_True.
  - simpl. rewrite lookup_insert_ne by done. unfold h2.
    rewrite lookup_insert_ne by done. by rewrite Ha1.
  - rewrite (field_set_named_eq h2 lv tr c o "subscribers" (VRef b) Hk). congruence.
  - done.
Qed.

End WithCanvas.

(** The state object [0] of a canvas with the subscribers [4; 5] (the array
    [1]) and the renderer [2], whose method [render] is the function [3];
    [6] is [requestAnimationFrame], [7] the render loop, [8] an [onUpdate]
    prop; [9] is an object that is no function. *)
Definition demoCanvas : state :=
  State (<[0 := plain (<["active" := VBool true]>
                        (<["subscribers" := VRef 1]>
                        (<["gl" := VRef 2]>
                        (<["scene" := VRef 10]> {["camera" := VRef 11]}))))]>
        (<[1 := array [VRef 4; VRef 5]]>
        (<[2 := Object "WebGLRenderer" {["render" := VRef 3]} None false]>
        (<[3 := function ∅]> (<[4 := function ∅]> (<[5 := function ∅]>
        (<[6 := function ∅]> (<[7 := function ∅]> (<[8 := function ∅]>
        (<[9 := plain ∅]>
        (<[10 := Object "Scene" ∅ None false]>
        (<[11 := Object "PerspectiveCamera" ∅ None false]>
        (<[12 := array [VRef 4; VRef 9; VRef 5]]> ∅)))))))))))))
        ∅ [].

(** [renderLoop_frame] on the canvas, with [onUpdate] and without a
    [render] prop. *)
Lemma renderLoop_frame_witness :
  Frame.renderLoop (VRef 6) (VRef 0) (VRef 8) VUndef (VRef 7) demoCanvas
  = Ok tt (State (heap demoCanvas) ∅
             [Invoke (VRef 6) VUndef [VRef 7];
              Invoke (VRef 8) VUndef [VRef 0];
              Invoke (VRef 4) VUndef [VRef 0];
              Invoke (VRef 5) VUndef [VRef 0];
              Invoke (VRef 3) (VRef 2) [VRef 10; VRef 11]]).
Proof.
  apply (renderLoop_frame (VRef 6) (VRef 0) (VRef 8) VUndef demoCanvas (VRef 7)
           [VRef 4; VRef 5]); try reflexivity.
  - repeat constructor.
  - discriminate.
  - intros _. by split.
Defined.

(** The canvas with the subscribers [4; 9; 5] of the array [12], of which
    [9] is no function, and without renderer. *)
Definition demoCanvasBad : state :=
  State (<[0 := plain (<["active" := VBool true]> {["subscribers" := VRef 12]})]>
           (heap demoCanvas)) ∅ [].

(** [renderLoop_subscriber_throws] on that canvas. *)
Lemma renderLoop_subscriber_throws_witness :
  Frame.renderLoop (VRef 6) (VRef 0) VUndef VUndef (VRef 7) demoCanvasBad
  = Throw (State (heap demoCanvasBad) ∅
             [Invoke (VRef 6) VUndef [VRef 7]; Invoke (VRef 4) VUndef [VRef 0]]).
Proof.
  apply (renderLoop_subscriber_throws (VRef 6) (VRef 0) VUndef VUndef demoCanvasBad
           (VRef 7) [VRef 4] (VRef 9) [VRef 5]); try reflexivity.
  - discriminate.
  - repeat constructor.
Defined.

(** [renderLoop_after_deactivate] on the canvas. *)
Lemma renderLoop_after_deactivate_witness :
  exists s',
    bind (Frame.deactivate (VRef 0))
         (fun _ => Frame.renderLoop (VRef 6) (VRef 0) (VRef 8) VUndef (VRef 7))
         demoCanvas = Ok tt s' /\
    field s' (VRef 0) "active" = VBool false /\
    trace s' = [].
Proof.
  eexists. split.
  - eapply (renderLoop_after_deactivate (VRef 6) (VRef 0) (VRef 8) VUndef demoCanvas
              (VRef 7) 0); reflexivity.
  - vm_compute. done.
Defined.

(** [subscribe_then_unsubscribe] on the canvas: subscribing [8] and
    unsubscribing it again silences [4] and [5]. *)
Lemma subscribe_then_unsubscribe_witness :
  exists s',
    bind (Frame.addSubscriber (VRef 0) (VRef 8)) (fun _ => Frame.dropSubscriber (VRef 0) (VRef 8))
         demoCanvas = Ok tt s' /\
    elements s' (field s' (VRef 0) "subscribers")
    = Some (filter (fun x => strict_eq x (VRef 8) = true) [VRef 4; VRef 5] ++ [VRef 8]) /\
    elements s' (VRef 1) = Some ([VRef 4; VRef 5] ++ [VRef 8]) /\
    field s' (VRef 0) "subscribers" <> VRef 1 /\
    trace s' = trace demoCanvas.
Proof.
  eapply (subscribe_then_unsubscribe (VRef 0) demoCanvas (VRef 8) 0 _ 1 [VRef 4; VRef 5]);
    try reflexivity.
  discriminate.
Defined.

End FrameSpec.

(* --------------------------------------------------------------------- *)
(** ** Roots *)
(* --------------------------------------------------------------------- *)

Module RootsSpec.
Import Roots.

#[local] Existing Instance Js.value_eq_dec.

(** The calls of the two exported functions; a [Render] comes with the root
    that [createContainer] would return. *)
Inductive action :=
| Render (element container : Js.value) (created : root)
| Unmount (container : Js.value).

Definition serve (s : store) (o : action) : store :=
  match o with
  | Render element container created => render element container created s
  | Unmount container => unmountComponentAtNode container s
  end.

Definition isCreateOf (c : Js.value) (x : request) : bool :=
  match x with
  | CreateContainer c' => bool_decide (c' = c)
  | _ => false
  end.

Definition isRenderOf (c : Js.value) (o : action) : bool :=
  match o with
  | Render _ c' _ => bool_decide (c' = c)
  | Unmount _ => false
  end.

(** How many roots have been created for the container [c]. *)
Definition creations (c : Js.value) (l : list request) : nat :=
  length (filter (fun x => isCreateOf c x = true) l).

Lemma creations_app c l1 l2 : creations c (l1 ++ l2) = creations c l1 + creations c l2.
Proof. unfold creations. by rewrite filter_app, length_app. Qed.

Lemma creations_nil c : creations c [] = 0.
Proof. done. Qed.

Lemma creations_cons c x l :
  creations c (x :: l) = (if isCreateOf c x then 1 else 0) + creations c l.
Proof.
  unfold creations. destruct (isCreateOf c x) eqn:E.
  - by rewrite filter_cons_True.
  - rewrite filter_cons_False; [done|congruence].
Qed.

Lemma get_set_eq m c r : get (set m c r) c = Some r.
Proof.
  induction m as [|[k r'] m IH]; simpl.
  - by rewrite decide_True.
  - destruct (decide (k = c)) as [->|Hne]; simpl.
    + by rewrite decide_True.
    + by rewrite decide_False.
Qed.

Lemma get_set_ne m c c' r : c <> c' -> get (set m c r) c' = get m c'.
Proof.
  intros Hne. induction m as [|[k r'] m IH]; simpl.
  - by rewrite decide_False.
  - destruct (decide (k = c)) as [->|Hk]; simpl.
    + by rewrite !decide_False.
    + by rewrite IH.
Qed.

Lemma get_delete_eq m c : get (delete m c) c = None.
Proof.
  unfold delete. induction m as [|[k r] m IH]; [done|].
  destruct (decide (k = c)) as [->|Hk].
  - rewrite filter_cons_False by (simpl; by intros H). done.
  - rewrite filter_cons_True by done. simpl. by rewrite decide_False.
Qed.

(** X27.  However often and in whatever order containers are rendered into
    and unmounted, as long as no unmount has been committed: a container
    that has a root gets no other one, and a container without a root gets
    exactly one if it is rendered into at all. *)
Theorem render_creates_at_most_once actions : forall s c,
  creations c (requests (foldl serve s actions))
  = creations c (requests s) +
    match get (roots s) c with
    | Some _ => 0
    | None => if existsb (isRenderOf c) actions then 1 else 0
    end.
Proof.
  induction actions as [|o actions IH]; intros s c.
  { simpl. by destruct (get (roots s) c). }
  simpl foldl. rewrite IH. destruct o as [e c' r|c']; simpl.
  - unfold render. destruct (get (roots s) c') as [r0|] eqn:Hc'; simpl.
    + rewrite creations_app, !creations_cons, creations_nil. simpl.
      destruct (get (roots s) c) as [r1|] eqn:Hc; [lia|].
      rewrite bool_decide_eq_false_2 by congruence. simpl. lia.
    + rewrite !creations_app, !creations_cons, creations_nil. simpl.
      destruct (decide (c' = c)) as [->|Hne].
      * rewrite get_set_eq, Hc'. rewrite !bool_decide_eq_true_2 by done.
        simpl. lia.
      * rewrite get_set_ne by done. rewrite !bool_decide_eq_false_2 by done.
        simpl. lia.
  - unfold unmountComponentAtNode.
    destruct (get (roots s) c') as [r0|] eqn:Hc'; simpl; [|done].
    rewrite creations_app, !creations_cons, creations_nil. simpl. lia.
Qed.

(** X28.  A render that comes between an unmount and its commit goes to the
    root that is being unmounted; the commit then forgets that root, and the
    next render creates a new one for the container. *)
Theorem render_during_unmount s c r e e' r1 r2 :
  get (roots s) c = Some r ->
  let s1 := unmountComponentAtNode c s in
  let s2 := render e c r1 s1 in
  let s3 := unmounted c s2 in
  let s4 := render e' c r2 s3 in
  requests s4
  = requests s ++ [UpdateContainer Js.VNull r (Some c);
                UpdateContainer e r None; GetPublicRootInstance r;
                CreateContainer c;
                UpdateContainer e' r2 None; GetPublicRootInstance r2] /\
  get (roots s4) c = Some r2.
Proof.
  intros Hr s1 s2 s3 s4.
  unfold s4, s3, s2, s1, unmountComponentAtNode, unmounted, render.
  rewrite Hr. simpl. rewrite Hr. simpl. rewrite get_delete_eq. simpl.
  rewrite get_set_eq. split; [|done]. by rewrite <- !app_assoc.
Qed.

(** [render_during_unmount] for a scene [VRef 0] mounted at root 1. *)
Lemma render_during_unmount_witness :
  let s := Store [(Js.VRef 0, 1)] [] in
  let s4 := render (Js.VStr "b") (Js.VRef 0) 3
              (unmounted (Js.VRef 0)
                 (render (Js.VStr "a") (Js.VRef 0) 2
                    (unmountComponentAtNode (Js.VRef 0) s))) in
  requests s4
  = [UpdateContainer Js.VNull 1 (Some (Js.VRef 0));
     UpdateContainer (Js.VStr "a") 1 None; GetPublicRootInstance 1;
     CreateContainer (Js.VRef 0);
     UpdateContainer (Js.VStr "b") 3 None; GetPublicRootInstance 3] /\
  get (roots s4) (Js.VRef 0) = Some 3.
Proof.
  exact (render_during_unmount (Store [(Js.VRef 0, 1)] []) (Js.VRef 0) 1
           (Js.VStr "a") (Js.VStr "b") 2 3 eq_refl).
Defined.

End RootsSpec.
